(** * Content-distribution engine of the video feed client

    A shallow embedding of the recommendation ranker
    ([applySmartRecommendations]), the section allocator ([pickVideos] and
    the pass around it), the marquee carousel ([displayVideos], [animate])
    and the preview cache ([preloadVideoChunk], [initSmartBuffering],
    [cleanUpOldCache]), followed by the properties established about them.

    JavaScript numbers are rationals.  The scores and comparison results of
    the ranker and of the allocator are IEEE doubles: every operation on
    them is rounded ([fl]).  Pixel offsets and watch progress are exact
    rationals.  [Set<string>] is a [gset string]; arrays are lists. *)

From Stdlib Require Import QArith Qround Qminmax Lqa Qpower Qabs.
From stdpp Require Import base strings list sorting gmap sets pretty.

Set Warnings "-clear-no-such-hyp".

(* ===================================================================== *)
(** * Part I: the embedding                                               *)
(* ===================================================================== *)

(** ** Data model (the fields the engine reads) *)

Record Video := {
  id : string;
  video_url : string;
  video_type : string;      (* 'Shorts' | 'Long Video', as stored *)
  category : string;
  is_trending : bool
}.

#[global] Instance Video_eq_dec : EqDecision Video.
Proof. solve_decision. Defined.

(** One entry of [watchHistory]: [{ id, progress }]. *)
Record WatchEntry := {
  watched : string;         (* the entry's [id] *)
  progress : Q
}.

Record UserInteractions := {
  likedIds : list string;
  dislikedIds : list string;
  watchHistory : list WatchEntry
}.

(** ** [Math.random] and code that draws from it

    The random source is the stream of numbers the successive calls of
    [Math.random()] return; a computation that draws takes the stream and
    returns its value with the rest of the stream. *)

Definition RandomSource : Type := nat -> Q.

Definition Rand (A : Type) : Type := RandomSource -> A * RandomSource.

Definition ret {A} (a : A) : Rand A := fun s => (a, s).

Definition bind {A B} (m : Rand A) (k : A -> Rand B) : Rand B :=
  fun s => let (a, s') := m s in k a s'.

Notation "'let*' x ':=' m 'in' k" := (bind m (fun x => k))
  (at level 10, x name, m at level 100, k at level 200, only parsing).

Definition Math_random : Rand Q :=
  fun s => (s 0%nat, fun n => s (S n)).

(** [Math.random()] returns a number in [0, 1). *)
Definition unit_interval (s : RandomSource) : Prop :=
  forall n, (0 <= s n)%Q /\ (s n < 1)%Q.


(** The source that returns [r] and then what [s] returns. *)
Definition drawFirst (r : Q) (s : RandomSource) : RandomSource :=
  fun n => match n with O => r | S m => s m end.

(** ** Numbers: IEEE doubles

    An operation on doubles gives the double nearest to the exact result,
    the one with the even significand of two that are equally near.  The
    doubles around [x] are the multiples of [2 ^ quantum x]: 53 bits down
    from the leading bit of [x], and not below [2 ^ -1074].  The numbers of
    the ranker stay below 31, far from the range where a double
    overflows. *)

(** The whole part of the binary logarithm of a positive number. *)
Definition Qlog2 (a : Q) : Z :=
  let e := (Z.log2 (Qnum a) - Z.log2 (Z.pos (Qden a)))%Z in
  if Qle_bool (2 ^ e) a then e else (e - 1)%Z.

Definition roundHalfEven (m : Q) : Z :=
  let f := Qfloor m in
  match (m - inject_Z f ?= 1 # 2)%Q with
  | Lt => f
  | Gt => (f + 1)%Z
  | Eq => if Z.even f then f else (f + 1)%Z
  end.

Definition quantum (x : Q) : Z := (Z.max (Qlog2 (Qabs x)) (-1022) - 52)%Z.

(** The double nearest to [x]. *)
Definition fl (x : Q) : Q :=
  if Qeq_bool x 0 then 0%Q
  else
    let q := quantum x in
    Qred (inject_Z (roundHalfEven (x / 2 ^ q)) * 2 ^ q).

(** [d] is a double. *)
Definition representable (d : Q) : Prop := (fl d == d)%Q.

(** ** [Array.prototype.sort]

    The sort of the engine the client runs on (V8): the leading run of the
    array is found by comparing each element with the one before it
    ([CountAndMakeRun]; a run that falls is reversed), and the elements
    after the run are put in their places one by one by binary search
    ([BinaryInsertionSort]).  The comparison function may draw random
    numbers, and draws them in the order in which the sort compares.  This
    is the whole sort for arrays of fewer than 64 elements; a longer array
    the engine cuts into several runs made this way, which it merges. *)

#[global] Instance Qlt_decision (x y : Q) : Decision (x < y)%Q.
Proof. destruct (Qlt_le_dec x y); [left | right]; [assumption | lra]. Defined.

(** [order < 0] *)
Definition negative (order : Q) : bool := bool_decide (order < 0)%Q.

(** The loop of [CountAndMakeRun]: how many of the elements after the
    second join the run. *)
Fixpoint runOn {A} (compareFn : A -> A -> Rand Q) (isDescending : bool)
    (previousElement : A) (rest : list A) : Rand nat :=
  match rest with
  | [] => ret 0%nat
  | currentElement :: rest' =>
      let* order := compareFn currentElement previousElement in
      if (if isDescending then negb (negative order) else negative order)
      then ret 0%nat
      else
        let* n := runOn compareFn isDescending currentElement rest' in
        ret (S n)
  end.

(** The length of the leading run, and the array with that run rising. *)
Definition CountAndMakeRun {A} (compareFn : A -> A -> Rand Q)
    (workArray : list A) : Rand (nat * list A) :=
  match workArray with
  | elementHigh :: elementLow :: rest =>
      let* order := compareFn elementLow elementHigh in
      let isDescending := negative order in
      let* n := runOn compareFn isDescending elementLow rest in
      let runLength := S (S n) in
      ret (runLength,
           if isDescending
           then reverse (take runLength workArray) ++ drop runLength workArray
           else workArray)
  | _ => ret (length workArray, workArray)
  end.

(** The binary search of [BinaryInsertionSort] for the place of [pivot]
    among the sorted elements between [left] and [right]; the range halves
    with every round, so [right - left] rounds are enough. *)
Fixpoint findSlot {A} (compareFn : A -> A -> Rand Q) (rounds : nat)
    (pivot : A) (sorted : list A) (left right : nat) : Rand nat :=
  match rounds with
  | O => ret left
  | S rounds' =>
      if (left <? right)%nat then
        let mid := (left + (right - left) / 2)%nat in
        match sorted !! mid with
        | Some element =>
            let* order := compareFn pivot element in
            if negative order
            then findSlot compareFn rounds' pivot sorted left mid
            else findSlot compareFn rounds' pivot sorted (S mid) right
        | None => ret left
        end
      else ret left
  end.

Fixpoint BinaryInsertionSort {A} (compareFn : A -> A -> Rand Q)
    (sorted todo : list A) : Rand (list A) :=
  match todo with
  | [] => ret sorted
  | pivot :: todo' =>
      let* left :=
        findSlot compareFn (length sorted) pivot sorted 0 (length sorted) in
      BinaryInsertionSort compareFn
        (take left sorted ++ pivot :: drop left sorted) todo'
  end.

Definition Array_sort {A} (compareFn : A -> A -> Rand Q) (arr : list A)
    : Rand (list A) :=
  if (length arr <? 2)%nat then ret arr
  else
    let* run := CountAndMakeRun compareFn arr in
    BinaryInsertionSort compareFn (take run.1 run.2) (drop run.1 run.2).

(** ** The recommendation ranker (App: [applySmartRecommendations]) *)

Definition includes {A} `{EqDecision A} (arr : list A) (x : A) : bool :=
  bool_decide (x ∈ arr).

(** [new Set([...likedIds, ...dislikedIds,
              ...watchHistory.filter(w => w.progress > 0.1).map(w => w.id)])] *)
Definition seenIds (userInteractions : UserInteractions) : gset string :=
  list_to_set
    (likedIds userInteractions ++ dislikedIds userInteractions ++
     (watched <$> filter (λ w, (0.1 < progress w)%Q)
                         (watchHistory userInteractions))).

(** The fixed bonuses of [scoreVideo]. *)
Definition interestBonus : Q := 20.
Definition trendingBonus : Q := 5.

(** The part of a score that does not depend on the random draw. *)
Definition bonus (userInterests : list string) (v : Video) : Q :=
  (if includes userInterests (category v) then interestBonus else 0) +
  (if is_trending v then trendingBonus else 0).

(** The coarser grading by interest alone. *)
Definition interestTier (userInterests : list string) (v : Video) : Q :=
  if includes userInterests (category v) then 1 else 0.

(** [scoreVideo]: [score = 0], the two boosts, then [Math.random() * 5]. *)
Definition scoreVideo (userInterests : list string) (v : Video) : Rand Q :=
  let score := 0%Q in
  let score := if includes userInterests (category v)
               then fl (score + 20) else score in
  let score := if is_trending v then fl (score + 5) else score in
  let* r := Math_random in
  ret (fl (score + fl (r * 5))).

(** [(a, b) => scoreVideo(b) - scoreVideo(a)]; [scoreVideo(b)] draws first. *)
Definition byScore (userInterests : list string) (a b : Video) : Rand Q :=
  let* sb := scoreVideo userInterests b in
  let* sa := scoreVideo userInterests a in
  ret (fl (sb - sa)).

(** [() => Math.random() - 0.5] *)
Definition shuffleCompare (_ _ : Video) : Rand Q :=
  let* r := Math_random in ret (fl (r - 0.5)).

(** [userInterests] is what [SmartBrain.getTopInterests()] returns. *)
Definition applySmartRecommendations (userInterests : list string)
    (videos : list Video) (userInteractions : UserInteractions)
    : Rand (list Video) :=
  match videos with
  | [] => ret []
  | _ =>
      let seen := seenIds userInteractions in
      let unseenVideos := filter (λ v, id v ∉ seen) videos in
      let seenVideos := filter (λ v, id v ∈ seen) videos in
      let* unseenVideos := Array_sort shuffleCompare unseenVideos in
      let* sortedUnseen := Array_sort (byScore userInterests) unseenVideos in
      let* sortedSeen := Array_sort (byScore userInterests) seenVideos in
      ret (sortedUnseen ++ sortedSeen)
  end.

(** The older copy of the ranker kept at the repository root. *)
Module Legacy.

(** [score = Math.random() * 10], then the two boosts. *)
Definition scoreVideo (userInterests : list string) (v : Video) : Rand Q :=
  let* r := Math_random in
  let score := fl (r * 10) in
  let score := if includes userInterests (category v)
               then fl (score + 20) else score in
  let score := if is_trending v then fl (score + 5) else score in
  ret score.

Definition byScore (userInterests : list string) (a b : Video) : Rand Q :=
  let* sb := scoreVideo userInterests b in
  let* sa := scoreVideo userInterests a in
  ret (fl (sb - sa)).

Definition applySmartRecommendations (userInterests : list string)
    (videos : list Video) (userInteractions : UserInteractions)
    : Rand (list Video) :=
  match videos with
  | [] => ret []
  | _ =>
      let seen := seenIds userInteractions in
      let unseenVideos := filter (λ v, id v ∉ seen) videos in
      let seenVideos := filter (λ v, id v ∈ seen) videos in
      let* sortedUnseen := Array_sort (byScore userInterests) unseenVideos in
      let* sortedSeen := Array_sort (byScore userInterests) seenVideos in
      ret (sortedUnseen ++ sortedSeen)
  end.

End Legacy.


(** ** The user's interactions (App: the handlers behind [setInteractions]) *)

(** [new Set(arr)], as [Array.from] and the spread syntax list it: the
    elements of [arr] in the order of their first occurrence. *)
Definition Set_add (set : list string) (x : string) : list string :=
  if includes set x then set else set ++ [x].

Definition new_Set (arr : list string) : list string := foldl Set_add [] arr.

(** [handleLikeToggle(id)] *)
Definition handleLikeToggle (videoId : string) (p : UserInteractions)
    : UserInteractions :=
  let isAlreadyLiked := includes (likedIds p) videoId in
  if isAlreadyLiked
  then {| likedIds := filter (λ x, x ≠ videoId) (likedIds p);
          dislikedIds := dislikedIds p;
          watchHistory := watchHistory p |}
  else {| likedIds := likedIds p ++ [videoId];
          dislikedIds := filter (λ x, x ≠ videoId) (dislikedIds p);
          watchHistory := watchHistory p |}.

(** [handleDislike(id)] *)
Definition handleDislike (videoId : string) (p : UserInteractions)
    : UserInteractions :=
  {| likedIds := filter (λ x, x ≠ videoId) (likedIds p);
     dislikedIds := new_Set (dislikedIds p ++ [videoId]);
     watchHistory := watchHistory p |}.

(** [onRestore(id)] of the page of hidden videos. *)
Definition onRestore (videoId : string) (p : UserInteractions)
    : UserInteractions :=
  {| likedIds := likedIds p;
     dislikedIds := filter (λ x, x ≠ videoId) (dislikedIds p);
     watchHistory := watchHistory p |}.

(** [onProgress(id, progress)] of the two players. *)
Definition onProgress (videoId : string) (fraction : Q)
    (p : UserInteractions) : UserInteractions :=
  let history := filter (λ h, watched h ≠ videoId) (watchHistory p) in
  {| likedIds := likedIds p;
     dislikedIds := dislikedIds p;
     watchHistory :=
       history ++ [{| watched := videoId; progress := fraction |}] |}.

(** What the user does to a video, and the handler each action runs. *)
Inductive Interaction :=
  | Like (videoId : string)
  | Dislike (videoId : string)
  | Restore (videoId : string)
  | Progress (videoId : string) (fraction : Q).

Definition interact (p : UserInteractions) (action : Interaction)
    : UserInteractions :=
  match action with
  | Like videoId => handleLikeToggle videoId p
  | Dislike videoId => handleDislike videoId p
  | Restore videoId => onRestore videoId p
  | Progress videoId fraction => onProgress videoId fraction p
  end.

(** No id is listed twice, none is both liked and disliked, and the watch
    history has one entry for an id. *)
Definition consistent (p : UserInteractions) : Prop :=
  NoDup (likedIds p) ∧ NoDup (dislikedIds p) ∧
  (∀ x, x ∈ likedIds p → x ∉ dislikedIds p) ∧
  NoDup (watched <$> watchHistory p).

(** ** The interests (SmartLogic: [SmartBrain]) *)

(** [saveInterest(interest)], as far as [localInterests] goes, the list
    [getTopInterests] returns to the ranker; the copies in [localStorage]
    and in the user's profile are written from it. *)
Definition saveInterest (interest : string) (localInterests : list string)
    : list string :=
  if bool_decide (interest = "") then localInterests
  else if includes localInterests interest then localInterests
  else localInterests ++ [interest].

(** [playShortVideo(v, list)], [playLongVideo(v, list)]: the interests
    afterwards and the play list given to the player, which is made from the
    feed on display, not from [playlist]. *)
Definition playShortVideo (v : Video) (playlist feed : list Video)
    (localInterests : list string) : list string * list Video :=
  (saveInterest (category v) localInterests,
   filter (λ vid, video_type vid = "Shorts") feed).

Definition playLongVideo (v : Video) (playlist feed : list Video)
    (localInterests : list string) : list string * list Video :=
  (saveInterest (category v) localInterests,
   filter (λ vid, video_type vid = "Long Video") feed).

(** ** The profile (SmartLogic: [getUserProfile]) *)

(** What [getDoc] gives for the user's document: it fails, the document
    does not exist, or it has the data, with or without a list of
    interests. *)
Inductive ProfileDoc :=
  | Unreachable
  | Missing
  | Profile (interests : option (list string)).

(** [getUserProfile(uid)]: the interests of the profile it returns ([None]
    when the profile has none) and [localInterests] afterwards. *)
Definition getUserProfile (onLine : bool) (remote : ProfileDoc)
    (localInterests : list string) : option (list string) * list string :=
  if negb onLine then (Some localInterests, localInterests)
  else
    match remote with
    | Profile (Some interests) =>
        (Some interests, new_Set (localInterests ++ interests))
    | Profile None => (None, localInterests)
    | Missing | Unreachable => (Some localInterests, localInterests)
    end.

(** ** The section allocator (CustomDynamicLayout: [distributedContent]) *)

(** One entry of the layout descriptor: [section.id] and [section.type]. *)
Record LayoutSection := {
  section_id : option string;
  section_type : string
}.

(** [section.id || `section-${index}`]: an absent or empty id is falsy. *)
Definition sectionKey (section : LayoutSection) (index : nat) : string :=
  match section_id section with
  | Some k => if bool_decide (k = "") then "section-" +:+ pretty index else k
  | None => "section-" +:+ pretty index
  end.

(** [() => 0.5 - Math.random()] *)
Definition recycleCompare (_ _ : Video) : Rand Q :=
  let* r := Math_random in ret (fl (0.5 - r)).

(** [pickVideos(pool, count)] reads and updates the [usedIds] of the pass:
    it returns the batch and the new set.  In the branch that recycles,
    [selected] is all of [available], so a pool entry is outside [selected]
    exactly when its id is already used; comparing records and comparing
    object references then select the same entries. *)
Definition pickVideos (usedIds : gset string) (pool : list Video)
    (count : nat) : Rand (list Video * gset string) :=
  match pool with
  | [] => ret ([], usedIds)
  | _ =>
      let available := filter (λ v, id v ∉ usedIds) pool in
      let selected := take count available in
      let usedIds := usedIds ∪ list_to_set (id <$> selected) in
      if (length selected <? count)%nat then
        let needed := (count - length selected)%nat in
        let* recycled :=
          Array_sort recycleCompare (filter (λ v, v ∉ selected) pool) in
        ret (selected ++ take needed recycled, usedIds)
      else ret (selected, usedIds)
  end.

(** Which pool a section draws from ([shortsOnly], [longsOnly] or all of
    [videos]), and how many videos it asks for: the branches of the
    [forEach] over the sections. *)
Inductive PoolKind := ShortsPool | LongsPool | MixedPool.

#[global] Instance PoolKind_eq_dec : EqDecision PoolKind.
Proof. solve_decision. Defined.

Definition demand (section : LayoutSection) : option (PoolKind * nat) :=
  let type := section_type section in
  if bool_decide (type = "long_video") then Some (LongsPool, 1%nat)
  else if bool_decide (type = "shorts_grid") then Some (ShortsPool, 4%nat)
  else if bool_decide (type = "long_slider") then Some (LongsPool, 10%nat)
  else if bool_decide (type = "slider_left")
          || bool_decide (type = "slider_right")
  then Some (MixedPool, 10%nat)
  else None.

Definition poolOf (videos : list Video) (kind : PoolKind) : list Video :=
  match kind with
  | ShortsPool => filter (λ v, video_type v = "Shorts") videos
  | LongsPool => filter (λ v, video_type v = "Long Video") videos
  | MixedPool => videos
  end.

(** The state of one pass: the shared [usedIds] and the [distribution]. *)
Record Allocation := {
  usedIds : gset string;
  distribution : gmap string (list Video)
}.

(** The body of [sections.forEach((section, index) => ...)]. *)
Definition allocateSection (videos : list Video) (st : Allocation)
    (index : nat) (section : LayoutSection) : Rand Allocation :=
  match demand section with
  | Some (kind, count) =>
      let* picked := pickVideos (usedIds st) (poolOf videos kind) count in
      ret {| usedIds := picked.2;
             distribution :=
               <[sectionKey section index := picked.1]> (distribution st) |}
  | None => ret st
  end.

Fixpoint forEachSection (videos : list Video) (sections : list LayoutSection)
    (index : nat) (st : Allocation) : Rand Allocation :=
  match sections with
  | [] => ret st
  | section :: rest =>
      let* st' := allocateSection videos st index section in
      forEachSection videos rest (S index) st'
  end.

Definition distributedContent (sections : list LayoutSection)
    (videos : list Video) : Rand (gmap string (list Video)) :=
  let* st := forEachSection videos sections 0
               {| usedIds := ∅; distribution := ∅ |} in
  ret (distribution st).

(** The default home layout (MainContent: [getUniqueBatch]): without a
    saved layout the home page takes its batches from the same kind of
    shared [usedIds], first come first served, and does not recycle. *)
Definition getUniqueBatch (usedIds : gset string) (source : list Video)
    (count : nat) : list Video * gset string :=
  let available := filter (λ v, id v ∉ usedIds) source in
  let selected := take count available in
  (selected, usedIds ∪ list_to_set (id <$> selected)).

(** Quantities in which the uniqueness of a pass is stated: what the sections
    drawing from one pool ask for in total, how many distinct videos a pool
    holds, and that no id lies in the batches of two section keys. *)
Definition asks (kind : PoolKind) (section : LayoutSection) : nat :=
  match demand section with
  | Some (k, count) => if bool_decide (k = kind) then count else 0%nat
  | None => 0%nat
  end.

Definition totalDemand (sections : list LayoutSection) (kind : PoolKind)
    : nat :=
  sum_list (asks kind <$> sections).

Definition idsOf (pool : list Video) : gset string :=
  list_to_set (id <$> pool).

Definition distinctIds (pool : list Video) : nat := size (idsOf pool).

(** Every stored batch is made of videos whose id is marked as used. *)
Definition storedAreUsed (st : Allocation) : Prop :=
  ∀ k b v, distribution st !! k = Some b → v ∈ b → id v ∈ usedIds st.

Definition batchesDisjoint (dist : gmap string (list Video)) : Prop :=
  ∀ k1 k2 b1 b2 v1 v2,
    k1 ≠ k2 → dist !! k1 = Some b1 → dist !! k2 = Some b2 →
    v1 ∈ b1 → v2 ∈ b2 → id v1 ≠ id v2.

(** A section without an id of its own: the key is made from its index. *)
Definition unnamed (section : LayoutSection) : Prop :=
  section_id section = None ∨ section_id section = Some "".

(** The older copy of the layout (CustomDynamicLayout at the repository
    root): every section draws its videos by itself. *)
Module LegacyLayout.

(** [getVideosForSection(count, type)] with [type] one of ['Shorts'],
    ['Long Video'] and ['Mixed']. *)
Definition getVideosForSection (videos : list Video) (count : nat)
    (type : string) : Rand (list Video) :=
  let filtered :=
    if bool_decide (type ≠ "Mixed")
    then filter (λ v, video_type v = type) videos
    else videos in
  let* shuffled := Array_sort recycleCompare filtered in
  ret (take count shuffled).

End LegacyLayout.

(** ** The default home page (MainContent: the batches of the fallback
    layout) *)

(** The batches of the page, by the names the component gives them. *)
Record HomeLayout := {
  marqueeShorts1 : list Video;
  marqueeLongs1 : list Video;
  interestGrid : list Video;
  gridShorts1 : list Video;
  gridShorts2 : list Video;
  stackLongs1 : list Video;
  marqueeShorts2 : list Video;
  marqueeLongs2 : list Video;
  gridShorts3 : list Video;
  gridShorts4 : list Video;
  stackLongs2 : list Video;
  marqueeShorts3 : list Video;
  marqueeLongs3 : list Video
}.

(** The calls of [getUniqueBatch] in the order of the source, each on the
    [usedIds] the calls before it have left. *)
Definition homeLayout (safeVideos : list Video) : HomeLayout :=
  let shortsOnly := poolOf safeVideos ShortsPool in
  let longsOnly := poolOf safeVideos LongsPool in
  let usedIds : gset string := ∅ in
  let '(ms1, usedIds) := getUniqueBatch usedIds shortsOnly 10 in
  let '(ml1, usedIds) := getUniqueBatch usedIds longsOnly 10 in
  let '(iGrid, usedIds) := getUniqueBatch usedIds shortsOnly 4 in
  let '(gs1, usedIds) := getUniqueBatch usedIds shortsOnly 2 in
  let '(gs2, usedIds) := getUniqueBatch usedIds shortsOnly 2 in
  let '(sl1, usedIds) := getUniqueBatch usedIds longsOnly 4 in
  let '(ms2, usedIds) := getUniqueBatch usedIds shortsOnly 10 in
  let '(ml2, usedIds) := getUniqueBatch usedIds longsOnly 10 in
  let '(gs3, usedIds) := getUniqueBatch usedIds shortsOnly 2 in
  let '(gs4, usedIds) := getUniqueBatch usedIds shortsOnly 2 in
  let '(sl2, usedIds) := getUniqueBatch usedIds longsOnly 4 in
  let '(ms3, usedIds) := getUniqueBatch usedIds shortsOnly 10 in
  let '(ml3, usedIds) := getUniqueBatch usedIds longsOnly 10 in
  {| marqueeShorts1 := ms1; marqueeLongs1 := ml1;
     interestGrid := iGrid;
     gridShorts1 := gs1; gridShorts2 := gs2; stackLongs1 := sl1;
     marqueeShorts2 := ms2; marqueeLongs2 := ml2;
     gridShorts3 := gs3; gridShorts4 := gs4; stackLongs2 := sl2;
     marqueeShorts3 := ms3; marqueeLongs3 := ml3 |}.

(** The batches from the top of the page to its foot. *)
Definition homeSections (layout : HomeLayout) : list (list Video) :=
  [marqueeShorts1 layout; marqueeLongs1 layout; interestGrid layout;
   gridShorts1 layout; gridShorts2 layout; stackLongs1 layout;
   marqueeShorts2 layout; marqueeLongs2 layout;
   gridShorts3 layout; gridShorts4 layout; stackLongs2 layout;
   marqueeShorts3 layout; marqueeLongs3 layout].

(** [arr.slice(start, end)] *)
Definition slice {A} (start stop : nat) (arr : list A) : list A :=
  take (stop - start) (drop start arr).

(** The used ids of a pool are those of its first [n] entries. *)
Definition consumed (used : gset string) (pool : list Video) (n : nat)
    : Prop :=
  ∀ i v, pool !! i = Some v → (id v ∈ used ↔ i < n).

(** ** The home view (App: [renderContent]) *)

(** [renderContent]: the videos handed to the pages of the home view. *)
Definition activeVideos (feed : list Video) (interactions : UserInteractions)
    : list Video :=
  filter (λ v, id v ∉ dislikedIds interactions) feed.

(** ** The trend page (TrendPage: [trendVideos]) *)

Definition trendVideos (allVideos : list Video) (excludedIds : list string)
    : list Video :=
  let validVideos := filter (λ v, id v ∉ excludedIds) allVideos in
  let trending := filter (λ v, is_trending v = true) validVideos in
  let others := filter (λ v, is_trending v ≠ true) validVideos in
  trending ++ others.

(** ** The videos to resume (MainContent: [unfinishedVideos]) *)

(** [arr.find(p)] *)
Definition Array_find {A} (P : A → Prop) `{∀ x, Decision (P x)}
    (arr : list A) : option A :=
  snd <$> list_find P arr.

(** The watched part lies strictly between 5% and 95%; the entries are
    mapped to the first video of that id, those without a video or without
    a URL are dropped, and the latest entry comes first. *)
Definition unfinishedVideos (safeVideos : list Video)
    (interactions : UserInteractions) : list Video :=
  reverse
    (filter (λ v, video_url v ≠ "")
       (omap (λ h, Array_find (λ vid, id vid = watched h) safeVideos)
          (filter (λ h, (0.05 < progress h)%Q ∧ (progress h < 0.95)%Q)
             (watchHistory interactions)))).

(** ** The figures and colours of a card (MainContent:
    [getDeterministicStats], [getNeonColor]) *)

(** [ToInt32]: the integer modulo 2^32, taken from -2^31 up to 2^31 - 1. *)
Definition toInt32 (x : Z) : Z := ((x + 2 ^ 31) mod 2 ^ 32 - 2 ^ 31)%Z.

(** [x << n] *)
Definition shiftLeft (x n : Z) : Z := toInt32 (Z.shiftl (toInt32 x) n).

(** A string of the program is a sequence of UTF-16 code units, which
    [charCodeAt] returns one by one; a string here holds the same text as
    UTF-8 bytes.  [utf16] turns the bytes into the code units: a character
    of up to three bytes is one unit, one of four bytes a pair of
    surrogates; a byte that starts no character stands for U+FFFD. *)
Definition continues (b : Z) : bool := (128 <=? b)%Z && (b <? 192)%Z.

Definition point2 (b1 b2 : Z) : Z := ((b1 - 192) * 64 + (b2 - 128))%Z.

Definition point3 (b1 b2 b3 : Z) : Z :=
  ((b1 - 224) * 4096 + (b2 - 128) * 64 + (b3 - 128))%Z.

Definition point4 (b1 b2 b3 b4 : Z) : Z :=
  ((b1 - 240) * 262144 + (b2 - 128) * 4096 + (b3 - 128) * 64
   + (b4 - 128))%Z.

Definition twoBytes (b1 b2 : Z) : bool :=
  (194 <=? b1)%Z && (b1 <? 224)%Z && continues b2.

Definition threeBytes (b1 b2 b3 : Z) : bool :=
  (224 <=? b1)%Z && (b1 <? 240)%Z && continues b2 && continues b3
  && (2048 <=? point3 b1 b2 b3)%Z
  && negb ((55296 <=? point3 b1 b2 b3)%Z && (point3 b1 b2 b3 <? 57344)%Z).

Definition fourBytes (b1 b2 b3 b4 : Z) : bool :=
  (240 <=? b1)%Z && (b1 <? 245)%Z && continues b2 && continues b3
  && continues b4
  && (65536 <=? point4 b1 b2 b3 b4)%Z && (point4 b1 b2 b3 b4 <? 1114112)%Z.

(** The two surrogates of a character above U+FFFF. *)
Definition surrogates (point : Z) : list Z :=
  [(55296 + (point - 65536) / 1024)%Z; (56320 + (point - 65536) mod 1024)%Z].

Fixpoint utf16 (bytes : list Z) : list Z :=
  match bytes with
  | [] => []
  | b1 :: rest1 =>
      if (0 <=? b1)%Z && (b1 <? 128)%Z then b1 :: utf16 rest1
      else
        match rest1 with
        | b2 :: rest2 =>
            if twoBytes b1 b2 then point2 b1 b2 :: utf16 rest2
            else
              match rest2 with
              | b3 :: rest3 =>
                  if threeBytes b1 b2 b3
                  then point3 b1 b2 b3 :: utf16 rest3
                  else
                    match rest3 with
                    | b4 :: rest4 =>
                        if fourBytes b1 b2 b3 b4
                        then surrogates (point4 b1 b2 b3 b4) ++ utf16 rest4
                        else 65533%Z :: utf16 rest1
                    | [] => 65533%Z :: utf16 rest1
                    end
              | [] => 65533%Z :: utf16 rest1
              end
        | [] => [65533%Z]
        end
  end.

(** The code units of a string. *)
Definition charCodes (str : string) : list Z :=
  utf16 ((λ c, Z.of_N (Ascii.N_of_ascii c))
           <$> String.list_ascii_of_string str).

(** The loop of [getDeterministicStats]:
    [hash = ((hash << 5) - hash) + seed.charCodeAt(i); hash |= 0]. *)
Definition seedHash (seed : string) : Z :=
  foldl (λ hash code, toInt32 ((shiftLeft hash 5 - hash) + code)%Z) 0%Z
    (charCodes seed).

(** [getDeterministicStats(seed).views]; [%] is the remainder that takes the
    sign of the dividend.  The [likes], which the function derives from the
    views in floating point, are left out. *)
Definition statsViews (seed : string) : Z :=
  if bool_decide (seed = "") then 0%Z
  else
    let hash := seedHash seed in
    let baseViews := (Z.abs (Z.rem hash 900000) + 500000)%Z in
    (baseViews * (Z.abs (Z.rem hash 5) + 2))%Z.

Definition COLOR_PALETTE : list string :=
  ["border-red-600"; "border-red-500"; "border-red-400";
   "border-orange-600"; "border-orange-500"; "border-orange-400";
   "border-amber-500"; "border-amber-400"; "border-yellow-500";
   "border-yellow-400"; "border-lime-500"; "border-lime-400";
   "border-green-600"; "border-green-500"; "border-green-400";
   "border-emerald-500"; "border-emerald-400"; "border-teal-500";
   "border-teal-400"; "border-cyan-500"; "border-cyan-400";
   "border-sky-500"; "border-sky-400"; "border-blue-600";
   "border-blue-500"; "border-indigo-500"; "border-indigo-400";
   "border-violet-600"; "border-violet-500"; "border-purple-600";
   "border-purple-500"; "border-fuchsia-600"; "border-fuchsia-500";
   "border-pink-600"; "border-pink-500"; "border-rose-500"].

(** The loop of [getNeonColor]:
    [hash = str.charCodeAt(i) + ((hash << 5) - hash)], without [|= 0]: the
    hash is a number that is whole and, for strings of less than two million
    characters, below 2^53, where numbers are exact. *)
Definition neonHash (str : string) : Z :=
  foldl (λ hash code, code + (shiftLeft hash 5 - hash))%Z 0%Z
    (charCodes str).

(** [getNeonColor(id, indexOffset).border]; [None] stands for
    [undefined]. *)
Definition getNeonColor (id : string) (indexOffset : nat) : option string :=
  let str := id +:+ pretty indexOffset in
  let hash := neonHash str in
  let index := Z.rem (Z.abs hash) (Z.of_nat (length COLOR_PALETTE)) in
  COLOR_PALETTE !! Z.to_nat index.

(** ** Pulling the home page down (MainContent: the touch handlers) *)

#[global] Instance Qeq_decision (x y : Q) : Decision (x == y)%Q.
Proof. destruct (Qeq_dec x y); [left | right]; assumption. Defined.

(** The state behind [pullOffset] and [startY]. *)
Record Pull := {
  pullOffset : Q;
  startY : Q
}.

(** A touch event with what the handlers read of it: [window.scrollY] and
    [e.touches[0].pageY]. *)
Inductive Touch :=
  | TouchStart (scrollY pageY : Q)
  | TouchMove (pageY : Q)
  | TouchEnd.

(** [onTouchStart], [onTouchMove], [onTouchEnd]: the state afterwards, and
    whether [onHardRefresh] was called. *)
Definition onTouch (st : Pull) (touch : Touch) : Pull * bool :=
  match touch with
  | TouchStart scrollY pageY =>
      (if decide (scrollY == 0)%Q
       then {| pullOffset := pullOffset st; startY := pageY |}
       else st, false)
  | TouchMove pageY =>
      if decide (startY st == 0)%Q then (st, false)
      else
        let diff := (pageY - startY st)%Q in
        if decide ((0 < diff)%Q ∧ (diff < 150)%Q)
        then ({| pullOffset := diff; startY := startY st |}, false)
        else (st, false)
  | TouchEnd =>
      ({| pullOffset := 0; startY := 0 |},
       bool_decide (80 < pullOffset st)%Q)
  end.

(** The state after a sequence of touch events. *)
Definition afterTouches (st : Pull) (touches : list Touch) : Pull :=
  foldl (λ st touch, (onTouch st touch).1) st touches.

(** ** The marquee carousel (MainContent: [InteractiveMarquee]) *)

(** [displayVideos]: the list the strip renders. *)
Definition displayVideos (videos : list Video) : list Video :=
  match videos with
  | [] => []
  | _ =>
      if (length videos <? 5)%nat
      then videos ++ videos ++ videos ++ videos ++ videos
      else videos ++ videos ++ videos
  end.

(** The older copy of the carousel repeats a short list four times. *)
Module LegacyMarquee.

Definition displayVideos (videos : list Video) : list Video :=
  match videos with
  | [] => []
  | _ =>
      if (length videos <? 5)%nat
      then videos ++ videos ++ videos ++ videos
      else videos ++ videos ++ videos
  end.

End LegacyMarquee.

#[global] Instance Qle_decision (x y : Q) : Decision (x <= y)%Q.
Proof. destruct (Qlt_le_dec y x); [right | left]; [lra | assumption]. Defined.

(** The scrolling element behind [containerRef]: the properties [animate]
    reads and writes.  Assigning [scrollLeft] keeps the value inside the
    scrollable range, as the browser does. *)
Record Container := {
  scrollLeft : Q;
  scrollWidth : Q;
  clientWidth : Q
}.

Definition setScrollLeft (container : Container) (x : Q) : Container :=
  {| scrollLeft :=
       Qmax 0 (Qmin x (scrollWidth container - clientWidth container));
     scrollWidth := scrollWidth container;
     clientWidth := clientWidth container |}.

(** One animation frame of [animate]. *)
Definition animate (isDragging : bool) (internalSpeed : Q)
    (container : Container) : Container :=
  if isDragging then container
  else
    let container :=
      setScrollLeft container (scrollLeft container + internalSpeed)%Q in
    let scrollLeft_ := scrollLeft container in
    let scrollWidth_ := scrollWidth container in
    if decide (0 < scrollWidth_)%Q then
      let singleSetWidth := (scrollWidth_ / 3)%Q in
      if decide ((0 < internalSpeed)%Q ∧
                 (singleSetWidth * 2 <= scrollLeft_)%Q)
      then setScrollLeft container (scrollLeft_ - singleSetWidth)%Q
      else if decide ((internalSpeed < 0)%Q ∧ (scrollLeft_ <= 10)%Q)
      then setScrollLeft container (scrollLeft_ + singleSetWidth)%Q
      else container
    else container.

(** What [animate] does to the offset before any wrap: the advance. *)
Definition advanced (internalSpeed : Q) (container : Container) : Container :=
  setScrollLeft container (scrollLeft container + internalSpeed)%Q.

(** Modelled from the class names of the strip ([flex gap-3 px-6], items
    [w-24] or [w-40], [shrink-0]): the items stand in one row, each
    [itemWidth] wide, [gap] apart, with [padding] before the first and after
    the last. *)
Record Strip := {
  itemWidth : Q;
  gap : Q;
  padding : Q
}.

(** [w-24 gap-3 px-6] in pixels. *)
Definition shortsStrip : Strip :=
  {| itemWidth := 96; gap := 12; padding := 24 |}.

(** A strip without gap and padding, where the content is as wide as its
    items together. *)
Definition plainStrip (width : Q) : Strip :=
  {| itemWidth := width; gap := 0; padding := 0 |}.

Definition stride (strip : Strip) : Q := (itemWidth strip + gap strip)%Q.

(** The [scrollWidth] of a strip of [n] items. *)
Definition contentWidth (strip : Strip) (n : nat) : Q :=
  match n with
  | O => (2 * padding strip)%Q
  | S m => (2 * padding strip + inject_Z (Z.of_nat n) * itemWidth strip
            + inject_Z (Z.of_nat m) * gap strip)%Q
  end.

(** What the strip shows at content coordinate [x]: the item whose slot
    holds [x], and how far into the slot [x] lies. *)
Definition shownAt (strip : Strip) (items : list Video) (x : Q)
    : option Video * Q :=
  let slot := Qfloor ((x - padding strip) / stride strip) in
  (if (0 <=? slot)%Z then items !! Z.to_nat slot else None,
   Qred (x - padding strip - inject_Z slot * stride strip)).

(** What a viewport scrolled to [offset] shows [t] pixels from its left
    edge. *)
Definition rendered (strip : Strip) (items : list Video)
    (container : Container) (t : Q) : option Video * Q :=
  shownAt strip items (scrollLeft container + t)%Q.

(** The cards of the strip: [displayVideos.map] renders an item unless it
    lacks a [video_url]. *)
Definition cards (videos : list Video) : list Video :=
  filter (λ item, video_url item ≠ "") (displayVideos videos).

(** The container of a mounted marquee over [videos], scrolled to [offset]. *)
Definition mounted (strip : Strip) (videos : list Video) (viewport : Q)
    (offset : Q) : Container :=
  {| scrollLeft := offset;
     scrollWidth := contentWidth strip (length (cards videos));
     clientWidth := viewport |}.

(** The container after [n] animation frames without dragging. *)
Definition frames (n : nat) (internalSpeed : Q) (container : Container)
    : Container :=
  Nat.iter n (animate false internalSpeed) container.

(** ** The preview cache (smartCache) *)

(** A response, as far as the cache code looks at it. *)
Record Response := {
  status : Z
}.

(** [response.ok]: the status is in the range 200-299. *)
Definition ok (response : Response) : bool :=
  (200 <=? status response)%Z && (status response <=? 299)%Z.

(** The cache named [VIDEO_CACHE_NAME]: its entries, oldest first, as
    [cache.keys()] lists them. *)
Abbreviation Cache := (list (string * Response)).

Definition keys (cache : Cache) : list string := cache.*1.

(** What lies outside the program: [navigator.onLine], what [fetch] answers
    for a URL ([None] when the request fails: network error, rejected
    cross-origin request), and whether the store accepts a write under a
    URL. *)
Record World := {
  onLine : bool;
  network : string -> option Response;
  storeAccepts : string -> bool
}.

(** An [async] function: it runs on the cache and either returns or throws
    (its promise is fulfilled or rejected). *)
Inductive Settled (A : Type) : Type :=
  | Fulfilled (a : A)
  | Rejected.
Arguments Fulfilled {A} a.
Arguments Rejected {A}.

Definition Async (A : Type) : Type := Cache -> Settled A * Cache.

Definition resolve {A} (a : A) : Async A := fun cache => (Fulfilled a, cache).

Definition throw {A} : Async A := fun cache => (Rejected, cache).

Definition andThen {A B} (m : Async A) (k : A -> Async B) : Async B :=
  fun cache =>
    match m cache with
    | (Fulfilled a, cache') => k a cache'
    | (Rejected, cache') => (Rejected, cache')
    end.

Notation "'await' x ':=' m 'in' k" := (andThen m (fun x => k))
  (at level 10, x name, m at level 100, k at level 200, only parsing).

(** [try { body } catch (e) { handler }] *)
Definition tryCatch {A} (body handler : Async A) : Async A :=
  fun cache =>
    match body cache with
    | (Fulfilled a, cache') => (Fulfilled a, cache')
    | (Rejected, cache') => handler cache'
    end.

(** [cache.match(url)] *)
Definition cache_match (url : string) : Async (option Response) :=
  fun cache =>
    (Fulfilled ((λ found, found.2.2) <$> list_find (λ e, e.1 = url) cache),
     cache).

(** [cache.delete(url)] *)
Definition cache_delete (url : string) : Async bool :=
  fun cache =>
    (Fulfilled (bool_decide (url ∈ keys cache)),
     filter (λ e, e.1 ≠ url) cache).

(** [cache.put(url, response)]: an entry under the same URL is replaced and
    the new entry is the youngest.  A cache does not take a partial
    response: for one of status 206 the promise is rejected with a
    [TypeError].  Any other write can be refused by the store. *)
Definition cache_put (world : World) (url : string) (response : Response)
    : Async unit :=
  fun cache =>
    if (status response =? 206)%Z then (Rejected, cache)
    else if storeAccepts world url
    then (Fulfilled tt, filter (λ e, e.1 ≠ url) cache ++ [(url, response)])
    else (Rejected, cache).

(** [cache.keys()] *)
Definition cache_keys : Async (list string) :=
  fun cache => (Fulfilled (keys cache), cache).

(** [fetch(url, { headers: { Range }, ... })] *)
Definition fetch (world : World) (url : string) : Async Response :=
  match network world url with
  | Some response => resolve response
  | None => throw
  end.

(** [!url || !url.startsWith('http')] *)
Definition notHttp (url : string) : bool :=
  bool_decide (url = "") || negb (String.prefix "http" url).

Definition preloadVideoChunk (world : World) (url : string) : Async bool :=
  if notHttp url then resolve false
  else
    tryCatch
      (await found := cache_match url in
       match found with
       | Some _ => resolve true
       | None =>
           await response := fetch world url in
           if ok response || (status response =? 206)%Z then
             await _ := cache_put world url response in
             resolve true
           else resolve false
       end)
      (resolve false).

(** [Promise.allSettled(promises)] records how each promise settled and is
    itself always fulfilled.  Here the promises run one after the other in
    the order of the list; the requests of a warm-up, which the program
    starts together, are followed await by await further down. *)
Fixpoint allSettled {A} (promises : list (Async A))
    : Async (list (Settled A)) :=
  match promises with
  | [] => resolve []
  | p :: rest =>
      fun cache =>
        let (outcome, cache') := p cache in
        andThen (allSettled rest)
          (fun outcomes => resolve (outcome :: outcomes)) cache'
  end.

Definition initSmartBuffering (world : World) (videos : list Video)
    : Async unit :=
  if negb (onLine world) || bool_decide (videos = []) then resolve tt
  else
    let priorityQueue := take 5 videos in
    let promises :=
      (λ video,
         if bool_decide (video_url video ≠ "")
         then preloadVideoChunk world (video_url video)
         else resolve false) <$> priorityQueue in
    await _ := allSettled promises in
    resolve tt.

(** [for (let i = 0; i < keys.length - 20; i++) await cache.delete(keys[i])] *)
Fixpoint deleteEach (urls : list string) : Async unit :=
  match urls with
  | [] => resolve tt
  | url :: rest => await _ := cache_delete url in deleteEach rest
  end.

Definition cleanUpOldCache : Async unit :=
  tryCatch
    (await keys := cache_keys in
     if (50 <? length keys)%nat
     then deleteEach (take (length keys - 20) keys)
     else resolve tt)
    (resolve tt).

(** The request for [url] is made, answered with a status the code goes on
    with and the cache takes, and stored. *)
Definition succeeds (world : World) (url : string) : Prop :=
  notHttp url = false ∧
  ∃ response,
    network world url = Some response ∧
    ok response || (status response =? 206)%Z = true ∧
    status response ≠ 206%Z ∧
    storeAccepts world url = true.

(** ** The requests of one warm-up, await by await

    [initSmartBuffering] starts its requests together: each call of
    [preloadVideoChunk] runs up to its next [await] and gives way to the
    others.  A request stands at one of its awaits or has returned. *)
Inductive Request :=
  | AtOpen (url : string)
  | AtMatch (url : string)
  | AtFetch (url : string)
  | AtPut (url : string) (response : Response)
  | Returned (result : bool).

(** Where the request for a video starts: at [caches.open], unless it
    returns before. *)
Definition begin (video : Video) : Request :=
  if bool_decide (video_url video ≠ "") then
    if notHttp (video_url video) then Returned false
    else AtOpen (video_url video)
  else Returned false.

(** A request runs from one await to the next. *)
Definition stepRequest (world : World) (request : Request) (cache : Cache)
    : Request * Cache :=
  match request with
  | AtOpen url => (AtMatch url, cache)
  | AtMatch url =>
      match cache_match url cache with
      | (Fulfilled (Some _), cache') => (Returned true, cache')
      | (Fulfilled None, cache') => (AtFetch url, cache')
      | (Rejected, cache') => (Returned false, cache')
      end
  | AtFetch url =>
      match fetch world url cache with
      | (Fulfilled response, cache') =>
          if ok response || (status response =? 206)%Z
          then (AtPut url response, cache')
          else (Returned false, cache')
      | (Rejected, cache') => (Returned false, cache')
      end
  | AtPut url response =>
      match cache_put world url response cache with
      | (Fulfilled _, cache') => (Returned true, cache')
      | (Rejected, cache') => (Returned false, cache')
      end
  | Returned result => (Returned result, cache)
  end.

(** The requests advance in the order of a schedule, which names the request
    that takes the next step. *)
Fixpoint interleave (world : World) (schedule : list nat)
    (requests : list Request) (cache : Cache) : list Request * Cache :=
  match schedule with
  | [] => (requests, cache)
  | i :: schedule' =>
      match requests !! i with
      | Some request =>
          let (request', cache') := stepRequest world request cache in
          interleave world schedule' (<[i := request']> requests) cache'
      | None => interleave world schedule' requests cache
      end
  end.

Definition hasReturned (request : Request) : Prop :=
  match request with Returned _ => True | _ => False end.


(** How many awaits a request still has before it. *)
Definition awaitsLeft (request : Request) : nat :=
  match request with
  | AtOpen _ => 4
  | AtMatch _ => 3
  | AtFetch _ => 2
  | AtPut _ _ => 1
  | Returned _ => 0
  end.

(** Four turns for each of [n] requests. *)
Definition fourRounds (n : nat) : list nat :=
  seq 0 n ++ seq 0 n ++ seq 0 n ++ seq 0 n.

(** The requests a call of [initSmartBuffering] starts. *)
Definition started (world : World) (videos : list Video) : list Request :=
  if negb (onLine world) || bool_decide (videos = []) then []
  else begin <$> take 5 videos.

(** The older copy of the preview cache (smartCache at the repository
    root): the requests run one after the other, each fetching without a
    look into the store, and what is stored is a new response made from the
    body that was read. *)
Module LegacyCache.

(** [response.blob()]: reading the body can fail. *)
Definition blob (bodyReads : string -> bool) (url : string) : Async unit :=
  if bodyReads url then resolve tt else throw.

(** [new Response(blob)] *)
Definition newResponse : Response := {| status := 200 |}.

(** The request for [url] is made, answered with a usable status, and the
    store accepts the write. *)
Definition succeeds (world : World) (url : string) : Prop :=
  notHttp url = false ∧
  ∃ response,
    network world url = Some response ∧
    ok response || (status response =? 206)%Z = true ∧
    storeAccepts world url = true.

(** [bufferNext(index)] on the part of the queue from [index] on. *)
Fixpoint bufferNext (world : World) (bodyReads : string -> bool)
    (queue : list Video) : Async unit :=
  match queue with
  | [] => resolve tt
  | video :: rest =>
      if notHttp (video_url video) then
        await _ := bufferNext world bodyReads rest in
        resolve tt
      else
        await _ :=
          tryCatch
            (let publicURL := video_url video in
             await response := fetch world publicURL in
             if ok response || (status response =? 206)%Z then
               await _ := blob bodyReads publicURL in
               await _ := cache_put world publicURL newResponse in
               resolve tt
             else resolve tt)
            (resolve tt) in
        await _ := bufferNext world bodyReads rest in
        resolve tt
  end.

(** The chain [bufferNext(0)], which the source starts without waiting for
    it, is followed to its end. *)
Definition initSmartBuffering (world : World) (bodyReads : string -> bool)
    (videos : list Video) : Async unit :=
  if negb (onLine world) || bool_decide (videos = []) then resolve tt
  else
    let queue := take 5 videos in
    bufferNext world bodyReads queue.

End LegacyCache.

(** ** Refreshing the feed (App: [handleManualRefresh]) *)

(** The refresh ranks the raw videos anew, warms the cache for the first
    three of the new order before it shows them and for the five after them
    once it has.  The result is the list given to [setDisplayVideos], or
    nothing when a refresh is already under way.  The last warm-up, which
    the handler does not wait for, is followed to its end. *)
Definition handleManualRefresh (world : World) (userInterests : list string)
    (isRefreshing : bool) (rawVideos : list Video)
    (interactions : UserInteractions) (s : RandomSource)
    : Async (option (list Video)) :=
  if isRefreshing then resolve None
  else
    let newOrder :=
      (applySmartRecommendations userInterests rawVideos interactions s).1 in
    await _ :=
      (if (0 <? length newOrder)%nat
       then initSmartBuffering world (slice 0 3 newOrder)
       else resolve tt) in
    await _ :=
      (if (3 <? length newOrder)%nat
       then initSmartBuffering world (slice 3 8 newOrder)
       else resolve tt) in
    resolve (Some newOrder).

(** ** Sample data used by the examples *)

Definition short (name : string) : Video :=
  {| id := name; video_url := "https://cdn.example/" +:+ name +:+ ".mp4";
     video_type := "Shorts"; category := "night"; is_trending := false |}.

Definition long (name : string) : Video :=
  {| id := name; video_url := "https://cdn.example/" +:+ name +:+ ".mp4";
     video_type := "Long Video"; category := "night"; is_trending := false |}.

Definition trending (v : Video) : Video :=
  {| id := id v; video_url := video_url v; video_type := video_type v;
     category := category v; is_trending := true |}.

Definition noInteractions : UserInteractions :=
  {| likedIds := []; dislikedIds := []; watchHistory := [] |}.

(** Every call of [Math.random()] returns one half. *)
Definition halves : RandomSource := fun _ => (1 # 2)%Q.


(** A first draw of nine tenths, then zero for ever. *)
Definition highThenLow : RandomSource :=
  fun n => match n with O => (9 # 10)%Q | _ => 0%Q end.

(** A first draw of [1 - 2 ^ -52], a double just below 1, then zero for
    ever. *)
Definition largestThenZero : RandomSource :=
  fun n => match n with O => (1 - 1 / 2 ^ 52)%Q | _ => 0%Q end.

Definition grid (key : string) : LayoutSection :=
  {| section_id := Some key; section_type := "shorts_grid" |}.

Definition slider (key : string) : LayoutSection :=
  {| section_id := Some key; section_type := "slider_left" |}.

Definition sixShorts : list Video :=
  [short "a"; short "b"; short "c"; short "d"; short "e"; short "f"].

(** The pass after a first grid has taken the first four of [sixShorts]. *)
Definition afterFirstGrid : Allocation :=
  {| usedIds := list_to_set ["a"; "b"; "c"; "d"];
     distribution :=
       {[ "g1" := [short "a"; short "b"; short "c"; short "d"] ]} |}.

(** One Long video ahead of ten Shorts. *)
Definition oneLongTenShorts : list Video :=
  [long "p"; short "a"; short "b"; short "c"; short "d"; short "e";
   short "f"; short "g"; short "h"; short "i"; short "j"].

Definition fourShortsSixLongs : list Video :=
  [short "a"; short "b"; short "c"; short "d";
   long "p"; long "q"; long "r"; long "s"; long "t"; long "u"].

Definition feature (key : string) : LayoutSection :=
  {| section_id := Some key; section_type := "long_video" |}.

Definition threeShorts : list Video := [short "a"; short "b"; short "c"].

Definition twelveShorts : list Video :=
  sixShorts ++
  [short "g"; short "h"; short "i"; short "j"; short "k"; short "l"].

(** A video of interest, and a video of interest that is trending: both
    liked. *)
Definition bothLiked : UserInteractions :=
  {| likedIds := ["a"; "b"]; dislikedIds := []; watchHistory := [] |}.

Definition fiveShorts : list Video :=
  [short "a"; short "b"; short "c"; short "d"; short "e"].

(** A phone-wide viewport over the strip of [threeShorts], one frame before
    the offset reaches two thirds of the content width (1656 pixels). *)
Definition beforeWrap : Container :=
  mounted shortsStrip threeShorts 390 (11035 # 10).

(** The same on strips without gap and padding, items 100 pixels wide. *)
Definition plainBeforeWrap : Container :=
  mounted (plainStrip 100) threeShorts 390 (9995 # 10).

(** Five items on the strip with gap and padding: the content is again 1656
    pixels wide, one source list 540. *)
Definition fiveBeforeWrap : Container :=
  mounted shortsStrip fiveShorts 390 (11035 # 10).

(** The answer of a server that sends the range asked for, and that of one
    that sends the whole file. *)
Definition partial : Response := {| status := 206 |}.

Definition whole : Response := {| status := 200 |}.

Definition fiveVideos : list Video :=
  [short "v1"; short "v2"; short "v3"; short "v4"; short "v5"].

(** On line; every request is answered with the whole file except the one
    for the third of [fiveVideos], which fails; the store accepts every
    write. *)
Definition thirdFails : World :=
  {| onLine := true;
     network := fun url =>
       if bool_decide (url = video_url (short "v3")) then None
       else Some whole;
     storeAccepts := fun _ => true |}.

(** On line; the server sends the range asked for. *)
Definition rangeServer : World :=
  {| onLine := true;
     network := fun _ => Some partial;
     storeAccepts := fun _ => true |}.

(** A store of 51 entries, the oldest first. *)
Definition fullStore : Cache :=
  (λ n, ("https://cdn.example/" +:+ pretty n +:+ ".mp4", whole))
    <$> seq 0 51.

(** The first request runs to its put, then the others run one after the
    other from the last to the second. *)
Definition backwards : list nat :=
  [0; 0; 0; 4; 4; 4; 4; 3; 3; 3; 3; 2; 2; 2; 2; 1; 1; 1; 1; 0]%nat.

(** A single Short on the strip with gap and padding: five cards, 576
    pixels of content behind a viewport of 390. *)
Definition oneShortStrip : Container :=
  mounted shortsStrip [short "a"] 390 0.

(** A Short of another category. *)
Definition dayShort (name : string) : Video :=
  {| id := name; video_url := "https://cdn.example/" +:+ name +:+ ".mp4";
     video_type := "Shorts"; category := "day"; is_trending := false |}.

(** Two sections without ids. *)
Definition unnamedGrid : LayoutSection :=
  {| section_id := None; section_type := "shorts_grid" |}.

(* ===================================================================== *)
(** * Part II: properties                                                 *)
(* ===================================================================== *)

(** ** Lists and sets *)

Lemma filter_ext_elem {A} (P Q : A → Prop)
    `{∀ x, Decision (P x)} `{∀ x, Decision (Q x)} (l : list A) :
  (∀ x, x ∈ l → (P x ↔ Q x)) → filter P l = filter Q l.
Proof.
  induction l as [|x l IH]; intros HPQ; [done|].
  rewrite !filter_cons.
  assert (P x ↔ Q x) as Hx by (apply HPQ; left).
  rewrite IH by (intros y Hy; apply HPQ; by right).
  destruct (decide (P x)), (decide (Q x)); tauto.
Qed.

Lemma filter_all {A} (P : A → Prop) `{∀ x, Decision (P x)} (l : list A) :
  Forall P l → filter P l = l.
Proof.
  induction 1 as [|x l Hx _ IH]; [done|].
  rewrite filter_cons. destruct (decide (P x)); [|done]. by rewrite IH.
Qed.

Lemma filter_complement_length {A} (P : A → Prop) `{∀ x, Decision (P x)}
    (l : list A) :
  length (filter P l) + length (filter (λ x, ¬ P x) l) = length l.
Proof.
  rewrite <- length_app. by rewrite filter_app_complement.
Qed.

Lemma sublist_filter_mono {A} (P : A → Prop) `{∀ x, Decision (P x)}
    (l1 l2 : list A) :
  l1 `sublist_of` l2 → filter P l1 `sublist_of` filter P l2.
Proof.
  induction 1 as [|x l1 l2 _ IH|x l1 l2 _ IH]; [done|..];
    rewrite ?filter_cons; destruct (decide (P x));
    try (by constructor); done.
Qed.

Lemma submseteq_NoDup {A} (l1 l2 : list A) :
  l1 ⊆+ l2 → NoDup l2 → NoDup l1.
Proof.
  intros [k Hk]%submseteq_Permutation Hnd. rewrite Hk in Hnd.
  by apply NoDup_app in Hnd as [? _].
Qed.

Lemma NoDup_fmap_inj {A B} (f : A → B) (l : list A) (x y : A) :
  NoDup (f <$> l) → x ∈ l → y ∈ l → f x = f y → x = y.
Proof.
  induction l as [|z l IH]; intros Hnd Hx Hy Hf; [by inversion Hx|].
  rewrite fmap_cons in Hnd. apply NoDup_cons in Hnd as [Hz Hnd].
  apply elem_of_cons in Hx as [->|Hx];
    apply elem_of_cons in Hy as [->|Hy]; [done|..|by apply IH].
  - destruct Hz. rewrite Hf. by apply list_elem_of_fmap_2.
  - destruct Hz. rewrite <- Hf. by apply list_elem_of_fmap_2.
Qed.

Lemma size_list_to_set_le (l : list string) :
  size (list_to_set l : gset string) ≤ length l.
Proof.
  induction l as [|x l IH].
  - done.
  - rewrite list_to_set_cons, size_union_alt, size_singleton. simpl.
    assert (size ((list_to_set l : gset string) ∖ {[x]})
            ≤ size (list_to_set l : gset string)) as Hs
      by (apply subseteq_size; set_solver).
    lia.
Qed.

(** ** The sort returns a rearrangement of its input *)

Section SortPermutation.
Context {A : Type} (compareFn : A -> A -> Rand Q).

Lemma CountAndMakeRun_perm (workArray : list A) (s : RandomSource) :
  (CountAndMakeRun compareFn workArray s).1.2 ≡ₚ workArray.
Proof.
  unfold CountAndMakeRun.
  destruct workArray as [|elementHigh [|elementLow rest]]; [done..|].
  unfold bind. destruct (compareFn elementLow elementHigh s) as [order s1].
  destruct (runOn compareFn (negative order) elementLow rest s1) as [n s2].
  cbn [ret fst snd]. destruct (negative order); [|done].
  rewrite reverse_Permutation. by rewrite take_drop.
Qed.

Lemma BinaryInsertionSort_perm (todo : list A) :
  ∀ sorted s,
    (BinaryInsertionSort compareFn sorted todo s).1 ≡ₚ sorted ++ todo.
Proof.
  induction todo as [|pivot todo IH]; intros sorted s; simpl.
  - by rewrite app_nil_r.
  - unfold bind.
    destruct (findSlot compareFn (length sorted) pivot sorted 0
                (length sorted) s) as [left s1].
    rewrite IH.
    rewrite <- (Permutation_middle (take left sorted) (drop left sorted)).
    rewrite take_drop. simpl. apply Permutation_middle.
Qed.

Lemma Array_sort_perm (arr : list A) (s : RandomSource) :
  (Array_sort compareFn arr s).1 ≡ₚ arr.
Proof.
  unfold Array_sort. destruct (length arr <? 2)%nat; [done|].
  unfold bind. pose proof (CountAndMakeRun_perm arr s) as Hrun.
  destruct (CountAndMakeRun compareFn arr s) as [[runLength run] s1].
  cbn [fst snd] in *.
  rewrite BinaryInsertionSort_perm. by rewrite take_drop.
Qed.

(** The search for a slot never stops for want of rounds: with
    [right - left] rounds or more the result is the same. *)
Lemma findSlot_rounds (pivot : A) (sorted : list A) :
  ∀ rounds rounds' left right s,
    right ≤ length sorted →
    right - left ≤ rounds → right - left ≤ rounds' →
    findSlot compareFn rounds pivot sorted left right s
    = findSlot compareFn rounds' pivot sorted left right s.
Proof.
  induction rounds as [|rounds IH]; intros rounds' left right s Hlen H1 H2.
  - destruct rounds' as [|rounds']; [done|]. cbn [findSlot].
    by rewrite (proj2 (Nat.ltb_ge left right)) by lia.
  - destruct rounds' as [|rounds']; cbn [findSlot].
    { by rewrite (proj2 (Nat.ltb_ge left right)) by lia. }
    destruct (left <? right)%nat eqn:Hlt; [|done].
    apply Nat.ltb_lt in Hlt.
    pose proof (Nat.div_lt (right - left) 2 ltac:(lia) ltac:(lia)).
    destruct (sorted !! _) as [element|]; [|done].
    unfold bind. destruct (compareFn pivot element s) as [order s1].
    destruct (negative order); apply IH; lia.
Qed.

End SortPermutation.

(** ** The ranker: unseen before seen *)

Section RankerOrder.
Variables (userInterests : list string) (ux : UserInteractions).

Lemma ranked_split videos s :
  ∃ us ss,
    (applySmartRecommendations userInterests videos ux s).1 = us ++ ss ∧
    us ≡ₚ filter (λ v, id v ∉ seenIds ux) videos ∧
    ss ≡ₚ filter (λ v, id v ∈ seenIds ux) videos.
Proof.
  unfold applySmartRecommendations.
  destruct videos as [|v0 vs]; [by exists [], []|].
  generalize (v0 :: vs). clear v0 vs. intros videos.
  unfold bind.
  pose proof (Array_sort_perm shuffleCompare
                (filter (λ v, id v ∉ seenIds ux) videos) s) as H1.
  destruct (Array_sort shuffleCompare _ s) as [shuffled s1].
  pose proof (Array_sort_perm (byScore userInterests) shuffled s1) as H2.
  destruct (Array_sort (byScore userInterests) shuffled s1) as [us s2].
  pose proof (Array_sort_perm (byScore userInterests)
                (filter (λ v, id v ∈ seenIds ux) videos) s2) as H3.
  destruct (Array_sort (byScore userInterests) _ s2) as [ss s3].
  simpl in *. exists us, ss. split; [done|]. split; [|done].
  by rewrite H2.
Qed.

Lemma legacy_ranked_split videos s :
  ∃ us ss,
    (Legacy.applySmartRecommendations userInterests videos ux s).1
      = us ++ ss ∧
    us ≡ₚ filter (λ v, id v ∉ seenIds ux) videos ∧
    ss ≡ₚ filter (λ v, id v ∈ seenIds ux) videos.
Proof.
  unfold Legacy.applySmartRecommendations.
  destruct videos as [|v0 vs]; [by exists [], []|].
  generalize (v0 :: vs). clear v0 vs. intros videos.
  unfold bind.
  pose proof (Array_sort_perm (Legacy.byScore userInterests)
                (filter (λ v, id v ∉ seenIds ux) videos) s) as H2.
  destruct (Array_sort (Legacy.byScore userInterests) _ s) as [us s2].
  pose proof (Array_sort_perm (Legacy.byScore userInterests)
                (filter (λ v, id v ∈ seenIds ux) videos) s2) as H3.
  destruct (Array_sort (Legacy.byScore userInterests) _ s2) as [ss s3].
  simpl in *. by exists us, ss.
Qed.

(** What both copies of the ranker give for an output that splits into a
    rearrangement of the unseen videos followed by one of the seen. *)
Lemma split_gives_order (videos out us ss : list Video) :
  out = us ++ ss →
  us ≡ₚ filter (λ v, id v ∉ seenIds ux) videos →
  ss ≡ₚ filter (λ v, id v ∈ seenIds ux) videos →
  out ≡ₚ videos ∧
  Forall (λ v, id v ∉ seenIds ux) us ∧ Forall (λ v, id v ∈ seenIds ux) ss ∧
  (∀ i j a b, out !! i = Some a → out !! j = Some b →
              id a ∈ seenIds ux → id b ∉ seenIds ux → j < i).
Proof.
  intros -> Hus Hss.
  assert (Forall (λ v, id v ∉ seenIds ux) us) as Fu.
  { rewrite Hus. apply Forall_forall. intros v Hv.
    by apply list_elem_of_filter in Hv as [? _]. }
  assert (Forall (λ v, id v ∈ seenIds ux) ss) as Fs.
  { rewrite Hss. apply Forall_forall. intros v Hv.
    by apply list_elem_of_filter in Hv as [? _]. }
  split; [|split; [done|split; [done|]]].
  - rewrite Hus, Hss. symmetry.
    rewrite <- (filter_app_complement (λ v, id v ∉ seenIds ux) videos) at 1.
    apply Permutation_app; [done|].
    rewrite (list_filter_iff (λ v, ¬ (id v ∉ seenIds ux))
               (λ v, id v ∈ seenIds ux));
      [done|].
    intros v. split.
    + intros Hn. by destruct (decide (id v ∈ seenIds ux)); [|destruct Hn].
    + intros Hin Hn. by apply Hn.
  - intros i j a b Hi Hj Ha Hb.
    destruct (decide (i < length us)) as [Hlt|Hge].
    + rewrite lookup_app_l in Hi by done.
      rewrite Forall_lookup in Fu. by destruct (Fu _ _ Hi).
    + destruct (decide (j < length us)) as [Hj'|Hj']; [lia|].
      rewrite lookup_app_r in Hj by lia.
      rewrite Forall_lookup in Fs. by destruct Hb; eapply Fs.
Qed.

End RankerOrder.

(** C1. For every pool, interaction state, interest list and random source,
    the ranker's output is a rearrangement of the pool and splits into a
    block of videos whose id is not in [seenIds] followed by a block of
    videos whose id is in [seenIds]; hence a video that is not seen never
    stands after one that is. *)
Theorem unseen_before_seen (userInterests : list string)
    (videos : list Video) (ux : UserInteractions) (s : RandomSource) :
  let out := (applySmartRecommendations userInterests videos ux s).1 in
  out ≡ₚ videos ∧
  (∃ us ss, out = us ++ ss ∧
     Forall (λ v, id v ∉ seenIds ux) us ∧
     Forall (λ v, id v ∈ seenIds ux) ss) ∧
  (∀ i j a b, out !! i = Some a → out !! j = Some b →
     id a ∈ seenIds ux → id b ∉ seenIds ux → j < i).
Proof.
  intros out.
  destruct (ranked_split userInterests ux videos s) as (us & ss & E & Hu & Hs).
  destruct (split_gives_order ux videos out us ss E Hu Hs)
    as (Hp & Fu & Fs & Hord).
  split; [done|]. split; [|done]. by exists us, ss.
Qed.

(** The same holds for the older copy of the ranker. *)
Lemma legacy_unseen_before_seen (userInterests : list string)
    (videos : list Video) (ux : UserInteractions) (s : RandomSource) :
  let out := (Legacy.applySmartRecommendations userInterests videos ux s).1 in
  out ≡ₚ videos ∧
  (∃ us ss, out = us ++ ss ∧
     Forall (λ v, id v ∉ seenIds ux) us ∧
     Forall (λ v, id v ∈ seenIds ux) ss).
Proof.
  intros out.
  destruct (legacy_ranked_split userInterests ux videos s)
    as (us & ss & E & Hu & Hs).
  destruct (split_gives_order ux videos out us ss E Hu Hs)
    as (Hp & Fu & Fs & _).
  split; [done|]. by exists us, ss.
Qed.

(** ** Rounding *)

Lemma two_power_pos (e : Z) : (0 < 2 ^ e)%Q.
Proof. by apply Qpower_0_lt. Qed.

Lemma two_power_Z (n : Z) : (0 <= n)%Z → (inject_Z (2 ^ n) == 2 ^ n)%Q.
Proof. intros Hn. by rewrite Zpower_Qpower. Qed.

(** [Qlog2 a] is the binade of [a]. *)
Lemma Qlog2_spec (a : Q) :
  (0 < a)%Q → (2 ^ Qlog2 a <= a)%Q ∧ (a < 2 ^ (Qlog2 a + 1))%Q.
Proof.
  intros Ha. unfold Qlog2.
  set (p := Qnum a). set (d := Z.pos (Qden a)).
  assert (0 < p)%Z as Hp.
  { unfold Qlt in Ha. simpl in Ha. subst p. lia. }
  assert (0 < d)%Z as Hd by (subst d; lia).
  destruct (Z.log2_spec p Hp) as [Lp Up].
  destruct (Z.log2_spec d Hd) as [Ld Ud].
  pose proof (Z.log2_nonneg p) as Np. pose proof (Z.log2_nonneg d) as Nd.
  set (lp := Z.log2 p) in *. set (ld := Z.log2 d) in *.
  assert (a * inject_Z d == inject_Z p)%Q as Ea.
  { subst p d. destruct a as [n m]. unfold Qeq. simpl. lia. }
  assert (inject_Z (2 ^ lp) <= inject_Z p)%Q as Lp' by (by rewrite <- Zle_Qle).
  assert (inject_Z p < inject_Z (2 ^ Z.succ lp))%Q as Up'
    by (by rewrite <- Zlt_Qlt).
  assert (inject_Z (2 ^ ld) <= inject_Z d)%Q as Ld' by (by rewrite <- Zle_Qle).
  assert (inject_Z d < inject_Z (2 ^ Z.succ ld))%Q as Ud'
    by (by rewrite <- Zlt_Qlt).
  rewrite two_power_Z in Lp', Up', Ld', Ud' by lia.
  assert (2 ^ Z.succ lp == 2 * 2 ^ lp)%Q as S1.
  { unfold Z.succ. rewrite Qpower_plus by done. ring. }
  assert (2 ^ Z.succ ld == 2 * 2 ^ ld)%Q as S2.
  { unfold Z.succ. rewrite Qpower_plus by done. ring. }
  rewrite S1 in Up'. rewrite S2 in Ud'.
  assert (2 ^ lp == 2 ^ (lp - ld) * 2 ^ ld)%Q as Hsplit.
  { rewrite <- Qpower_plus by done.
    by replace (lp - ld + ld)%Z with lp by lia. }
  pose proof (two_power_pos lp) as Plp. pose proof (two_power_pos ld) as Pld.
  pose proof (two_power_pos (lp - ld)) as Pe.
  set (X := (2 ^ (lp - ld))%Q) in *. set (Y := (2 ^ ld)%Q) in *.
  set (D := inject_Z d) in *. set (P := inject_Z p) in *.
  rewrite Hsplit in *.
  assert (0 < D)%Q as HD by lra.
  assert (a < 2 * X)%Q as Hup.
  { apply (Qmult_lt_r _ _ Y); [done|].
    apply Qle_lt_trans with (a * D)%Q; [|lra].
    apply Qmult_le_l; [done|lra]. }
  assert (X < 2 * a)%Q as Hlow.
  { apply (Qmult_lt_r _ _ D); [done|].
    apply Qlt_le_trans with (X * (2 * Y))%Q.
    - apply Qmult_lt_l; [done|lra].
    - lra. }
  destruct (Qle_bool X a) eqn:E.
  - apply Qle_bool_iff in E. split; [done|].
    rewrite Qpower_plus by done. fold X. lra.
  - assert (¬ (X <= a)%Q) as E' by (rewrite <- Qle_bool_iff; congruence).
    replace (lp - ld - 1 + 1)%Z with (lp - ld)%Z by lia. fold X.
    split; [|lra].
    assert (X == 2 * 2 ^ (lp - ld - 1))%Q as HX.
    { subst X. replace (lp - ld)%Z with (1 + (lp - ld - 1))%Z at 1 by lia.
      by rewrite Qpower_plus. }
    lra.
Qed.

Lemma Qlog2_mono (a b : Q) : (0 < a)%Q → (a <= b)%Q → (Qlog2 a <= Qlog2 b)%Z.
Proof.
  intros Ha Hab.
  destruct (Qlog2_spec a Ha) as [La _].
  destruct (Qlog2_spec b) as [_ Ub]; [lra|].
  assert (2 ^ Qlog2 a < 2 ^ (Qlog2 b + 1))%Q as H by lra.
  apply Qpower_lt_compat_l_inv in H; [lia|lra].
Qed.

Lemma Qabs_positive (x : Q) : (0 < x)%Q → Qabs x = x.
Proof. destruct x as [[|p|p] d]; intros H; (done || by inversion H). Qed.

Lemma quantum_mono (x y : Q) :
  (0 < x)%Q → (x <= y)%Q → (quantum x <= quantum y)%Z.
Proof.
  intros Hx Hxy. unfold quantum.
  rewrite !Qabs_positive by lra.
  pose proof (Qlog2_mono x y Hx Hxy). lia.
Qed.

Lemma quantum_opp (x : Q) : quantum (- x) = quantum x.
Proof.
  unfold quantum. f_equal. f_equal.
  destruct x as [[|p|p] d]; reflexivity.
Qed.

Lemma quantum_comp (x y : Q) :
  (x == y)%Q → ¬ (x == 0)%Q → quantum x = quantum y.
Proof.
  assert (∀ a b, (0 < a)%Q → (a == b)%Q → quantum a = quantum b) as Hpos.
  { intros a b Ha E.
    pose proof (quantum_mono a b Ha ltac:(lra)).
    pose proof (quantum_mono b a ltac:(lra) ltac:(lra)). lia. }
  intros E N. destruct (Qlt_le_dec 0 x) as [Hx|Hx]; [by apply Hpos|].
  rewrite <- (quantum_opp x), <- (quantum_opp y). apply Hpos; lra.
Qed.

Lemma roundHalfEven_floor (m : Q) :
  (Qfloor m <= roundHalfEven m <= Qfloor m + 1)%Z.
Proof.
  unfold roundHalfEven.
  destruct (m - inject_Z (Qfloor m) ?= 1 # 2)%Q; [|lia..].
  destruct (Z.even (Qfloor m)); lia.
Qed.

Lemma roundHalfEven_ge (m : Q) (M : Z) :
  (inject_Z M <= m)%Q → (M <= roundHalfEven m)%Z.
Proof.
  intros H. pose proof (roundHalfEven_floor m).
  assert (M <= Qfloor m)%Z; [|lia].
  rewrite <- (Qfloor_Z M). by apply Qfloor_resp_le.
Qed.

Lemma roundHalfEven_le (m : Q) (M : Z) :
  (m <= inject_Z M)%Q → (roundHalfEven m <= M)%Z.
Proof.
  intros H. pose proof (roundHalfEven_floor m) as Hf.
  assert (Qfloor m <= M)%Z as Hle.
  { rewrite <- (Qfloor_Z M). by apply Qfloor_resp_le. }
  destruct (decide (Qfloor m = M)) as [E|]; [|lia].
  unfold roundHalfEven. pose proof (Qfloor_le m) as Hfl. rewrite E in *.
  destruct (m - inject_Z M ?= 1 # 2)%Q eqn:C; [| lia |].
  - apply Qeq_alt in C. lra.
  - apply Qgt_alt in C. lra.
Qed.

Lemma roundHalfEven_comp (m m' : Q) :
  (m == m')%Q → roundHalfEven m = roundHalfEven m'.
Proof.
  intros E. unfold roundHalfEven. rewrite (Qfloor_comp m m' E).
  assert ((m - inject_Z (Qfloor m') ?= 1 # 2)%Q
          = (m' - inject_Z (Qfloor m') ?= 1 # 2)%Q) as ->; [|done].
  apply Qcompare_comp; [by rewrite E|reflexivity].
Qed.

(** Rounding to the nearest whole number, ties to the even one, is odd. *)
Lemma roundHalfEven_opp (m : Q) : roundHalfEven (- m) = (- roundHalfEven m)%Z.
Proof.
  pose proof (Qfloor_le m) as L. pose proof (Qlt_floor m) as U.
  rewrite inject_Z_plus in U. change (inject_Z 1) with 1%Q in U.
  destruct (Qeq_dec m (inject_Z (Qfloor m))) as [E|N].
  - assert (Qfloor (- m) = - Qfloor m)%Z as F.
    { rewrite (Qfloor_comp (- m) (inject_Z (- Qfloor m))).
      - apply Qfloor_Z.
      - rewrite inject_Z_opp. by rewrite <- E. }
    unfold roundHalfEven. rewrite F.
    assert ((- m - inject_Z (- Qfloor m) ?= 1 # 2)%Q = Lt) as ->.
    { apply (proj1 (Qlt_alt _ _)). rewrite inject_Z_opp. lra. }
    assert ((m - inject_Z (Qfloor m) ?= 1 # 2)%Q = Lt) as ->.
    { apply (proj1 (Qlt_alt _ _)). lra. }
    done.
  - assert (Qfloor (- m) = - Qfloor m - 1)%Z as F.
    { assert (inject_Z (- Qfloor m - 1) <= - m)%Q as A.
      { unfold Z.sub. rewrite inject_Z_plus, !inject_Z_opp.
        change (inject_Z 1) with 1%Q. lra. }
      assert (- m < inject_Z (- Qfloor m - 1 + 1))%Q as B.
      { replace (- Qfloor m - 1 + 1)%Z with (- Qfloor m)%Z by lia.
        rewrite inject_Z_opp.
        destruct (Qlt_le_dec (inject_Z (Qfloor m)) m); [lra|].
        destruct N. lra. }
      pose proof (Qfloor_le (- m)). pose proof (Qlt_floor (- m)).
      assert (Qfloor (- m) < - Qfloor m - 1 + 1)%Z by (rewrite Zlt_Qlt; lra).
      assert (- Qfloor m - 1 < Qfloor (- m) + 1)%Z by (rewrite Zlt_Qlt; lra).
      lia. }
    unfold roundHalfEven. rewrite F.
    set (f := Qfloor m) in *.
    assert (- m - inject_Z (- f - 1) == 1 - (m - inject_Z f))%Q as R.
    { unfold Z.sub. rewrite inject_Z_plus, !inject_Z_opp.
      change (inject_Z 1) with 1%Q. ring. }
    destruct (m - inject_Z f ?= 1 # 2)%Q eqn:C.
    + apply Qeq_alt in C.
      assert ((- m - inject_Z (- f - 1) ?= 1 # 2)%Q = Eq) as ->.
      { apply (proj1 (Qeq_alt _ _)). rewrite R, C. reflexivity. }
      replace (- f - 1)%Z with (- (f + 1))%Z by lia.
      rewrite Z.even_opp, Z.even_add. simpl.
      destruct (Z.even f); simpl; lia.
    + apply Qlt_alt in C.
      assert ((- m - inject_Z (- f - 1) ?= 1 # 2)%Q = Gt) as ->.
      { apply (proj1 (Qgt_alt _ _)). rewrite R. lra. }
      lia.
    + apply Qgt_alt in C.
      assert ((- m - inject_Z (- f - 1) ?= 1 # 2)%Q = Lt) as ->.
      { apply (proj1 (Qlt_alt _ _)). rewrite R. lra. }
      lia.
Qed.

Lemma fl_value (x : Q) :
  ¬ (x == 0)%Q →
  (fl x == inject_Z (roundHalfEven (x / 2 ^ quantum x)) * 2 ^ quantum x)%Q.
Proof.
  intros Hx. unfold fl.
  destruct (Qeq_bool x 0) eqn:E; [by apply Qeq_bool_iff in E|].
  apply Qred_correct.
Qed.

Lemma fl_zero (x : Q) : (x == 0)%Q → fl x = 0%Q.
Proof. intros Hx. unfold fl. by rewrite (proj2 (Qeq_bool_iff x 0) Hx). Qed.

(** Equal numbers are rounded to the same double. *)
Lemma fl_comp (x y : Q) : (x == y)%Q → fl x = fl y.
Proof.
  intros E. destruct (Qeq_dec x 0) as [Z0|N].
  - rewrite (fl_zero x Z0), fl_zero; [done|]. by rewrite <- E.
  - unfold fl.
    destruct (Qeq_bool x 0) eqn:Ex; [by apply Qeq_bool_iff in Ex|].
    destruct (Qeq_bool y 0) eqn:Ey.
    { apply Qeq_bool_iff in Ey. destruct N. by rewrite E. }
    cbv zeta. rewrite <- (quantum_comp x y E N).
    apply Qred_complete.
    rewrite (roundHalfEven_comp (x / 2 ^ quantum x) (y / 2 ^ quantum x));
      [reflexivity|].
    unfold Qdiv. by apply Qmult_comp.
Qed.

Lemma fl_nonneg (x : Q) : (0 <= x)%Q → (0 <= fl x)%Q.
Proof.
  intros Hx. destruct (Qeq_dec x 0) as [E|N]; [by rewrite fl_zero|].
  rewrite fl_value by done.
  apply Qmult_le_0_compat; [|apply Qlt_le_weak, two_power_pos].
  rewrite <- (Zle_Qle 0). apply roundHalfEven_ge.
  apply Qle_shift_div_l; [apply two_power_pos|].
  change (inject_Z 0) with 0%Q. lra.
Qed.

Lemma fl_opp (x : Q) : (fl (- x) == - fl x)%Q.
Proof.
  destruct (Qeq_dec x 0) as [E|N].
  - rewrite (fl_zero x E), fl_zero; [reflexivity|]. by rewrite E.
  - rewrite !fl_value; [|done|intros H; apply N; lra].
    rewrite quantum_opp.
    rewrite (roundHalfEven_comp (- x / 2 ^ quantum x)
               (- (x / 2 ^ quantum x))).
    + rewrite roundHalfEven_opp, inject_Z_opp. ring.
    + field. apply Qnot_eq_sym, Qlt_not_eq, two_power_pos.
Qed.

Lemma representable_opp (d : Q) : representable d → representable (- d).
Proof. unfold representable. intros H. by rewrite fl_opp, H. Qed.

(** A double above a positive number is a multiple of the quantum of that
    number, so rounding does not pass it. *)
Lemma fl_le_pos (x d : Q) :
  (0 < x)%Q → (x <= d)%Q → representable d → (fl x <= d)%Q.
Proof.
  intros Hx Hxd Hd. unfold representable in Hd.
  assert (¬ (x == 0)%Q) as Nx by lra. assert (¬ (d == 0)%Q) as Nd by lra.
  rewrite fl_value in * by done.
  pose proof (quantum_mono x d Hx Hxd) as Hq.
  set (qx := quantum x) in *. set (qd := quantum d) in *.
  set (N := roundHalfEven (d / 2 ^ qd)) in *.
  pose proof (two_power_pos qx) as Px. pose proof (two_power_pos qd) as Pd.
  assert (2 ^ qd == inject_Z (2 ^ (qd - qx)) * 2 ^ qx)%Q as Hsplit.
  { rewrite two_power_Z by lia. rewrite <- Qpower_plus by done.
    by replace (qd - qx + qx)%Z with qd by lia. }
  assert (d == inject_Z (N * 2 ^ (qd - qx)) * 2 ^ qx)%Q as Ed.
  { rewrite inject_Z_mult, <- Qmult_assoc, <- Hsplit. by rewrite Hd. }
  assert (roundHalfEven (x / 2 ^ qx) <= N * 2 ^ (qd - qx))%Z as Hr.
  { apply roundHalfEven_le. apply Qle_shift_div_r; [done|]. by rewrite <- Ed. }
  rewrite Ed. apply Qmult_le_r; [done|]. by rewrite <- Zle_Qle.
Qed.

(** A positive double below a number: in the binade of the number it is a
    multiple of the quantum, below that binade it is below the power of two
    the binade starts with. *)
Lemma fl_ge_pos (x d : Q) :
  (0 < d)%Q → (d <= x)%Q → representable d → (d <= fl x)%Q.
Proof.
  intros Hd0 Hdx Hd. unfold representable in Hd.
  assert (¬ (x == 0)%Q) as Nx by lra. assert (¬ (d == 0)%Q) as Nd by lra.
  rewrite fl_value in * by done.
  pose proof (quantum_mono d x Hd0 Hdx) as Hq.
  set (qx := quantum x) in *. set (qd := quantum d) in *.
  set (N := roundHalfEven (d / 2 ^ qd)) in *.
  pose proof (two_power_pos qx) as Px.
  destruct (decide (qd = qx)) as [E|Hne].
  - rewrite E in Hd. rewrite <- Hd at 1.
    apply Qmult_le_r; [done|]. rewrite <- Zle_Qle.
    apply roundHalfEven_ge. apply Qle_shift_div_l; [done|]. by rewrite Hd.
  - assert (0 < x)%Q as Hx by lra.
    destruct (Qlog2_spec x Hx) as [Lx _].
    destruct (Qlog2_spec d Hd0) as [_ Ud].
    subst qx qd. unfold quantum in *.
    rewrite !Qabs_positive in * by lra.
    pose proof (Qlog2_mono d x Hd0 Hdx) as Hlog.
    set (ex := Qlog2 x) in *. set (ed := Qlog2 d) in *.
    assert (Z.max ex (-1022) = ex) as Emax by lia.
    rewrite Emax in *.
    assert (2 ^ ex == inject_Z (2 ^ 52) * 2 ^ (ex - 52))%Q as Hsplit.
    { rewrite two_power_Z by lia. rewrite <- Qpower_plus by done.
      by replace (52 + (ex - 52))%Z with ex by lia. }
    assert (2 ^ 52 <= roundHalfEven (x / 2 ^ (ex - 52)))%Z as Hr.
    { apply roundHalfEven_ge. apply Qle_shift_div_l; [done|].
      by rewrite <- Hsplit. }
    assert (2 ^ (ed + 1) <= 2 ^ ex)%Q as Hpow
      by (apply Qpower_le_compat_l; [lia|lra]).
    apply Qle_trans with (2 ^ ex)%Q; [lra|].
    rewrite Hsplit. apply Qmult_le_r; [done|]. by rewrite <- Zle_Qle.
Qed.

Lemma fl_nonpos (x : Q) : (x <= 0)%Q → (fl x <= 0)%Q.
Proof.
  intros Hx. pose proof (fl_nonneg (- x) ltac:(lra)) as H.
  rewrite fl_opp in H. lra.
Qed.

(** Rounding never passes a double. *)
Lemma fl_le (x d : Q) : (x <= d)%Q → representable d → (fl x <= d)%Q.
Proof.
  intros Hxd Hd. destruct (Qlt_le_dec 0 x) as [Hx|Hx].
  - by apply fl_le_pos.
  - pose proof (fl_nonpos x Hx) as H0.
    destruct (Qlt_le_dec d 0) as [Hneg|]; [|lra].
    pose proof (fl_ge_pos (- x) (- d) ltac:(lra) ltac:(lra)
                  (representable_opp d Hd)) as H.
    rewrite fl_opp in H. lra.
Qed.

Lemma fl_ge (x d : Q) : (d <= x)%Q → representable d → (d <= fl x)%Q.
Proof.
  intros Hdx Hd.
  pose proof (fl_le (- x) (- d) ltac:(lra) (representable_opp d Hd)) as H.
  rewrite fl_opp in H. lra.
Qed.

(** ** The sort and the draws *)

(** A property of the random source that the draws of a comparison keep is
    kept by the sort. *)
Section SortDraws.
Context {A : Type} (compareFn : A -> A -> Rand Q).
Context (draws : RandomSource -> Prop).
Hypothesis compare_draws : ∀ a b s, draws s → draws (compareFn a b s).2.

Lemma runOn_draws isDescending (rest : list A) :
  ∀ previousElement s,
    draws s → draws (runOn compareFn isDescending previousElement rest s).2.
Proof.
  induction rest as [|currentElement rest IH]; intros previousElement s Hs;
    simpl; [done|].
  unfold bind.
  pose proof (compare_draws currentElement previousElement s Hs) as H1.
  destruct (compareFn currentElement previousElement s) as [order s1].
  destruct (if isDescending then negb (negative order) else negative order);
    [done|].
  specialize (IH currentElement s1 H1).
  by destruct (runOn compareFn isDescending currentElement rest s1).
Qed.

Lemma CountAndMakeRun_draws (workArray : list A) (s : RandomSource) :
  draws s → draws (CountAndMakeRun compareFn workArray s).2.
Proof.
  intros Hs. unfold CountAndMakeRun.
  destruct workArray as [|elementHigh [|elementLow rest]]; [done..|].
  unfold bind.
  pose proof (compare_draws elementLow elementHigh s Hs) as H1.
  destruct (compareFn elementLow elementHigh s) as [order s1].
  pose proof (runOn_draws (negative order) rest elementLow s1 H1) as H2.
  by destruct (runOn compareFn (negative order) elementLow rest s1).
Qed.

Lemma findSlot_draws (rounds : nat) (pivot : A) (sorted : list A) :
  ∀ left right s,
    draws s →
    draws (findSlot compareFn rounds pivot sorted left right s).2.
Proof.
  induction rounds as [|rounds IH]; intros left right s Hs; simpl; [done|].
  destruct (left <? right)%nat; [|done].
  destruct (sorted !! _) as [element|]; [|done].
  unfold bind. pose proof (compare_draws pivot element s Hs) as H1.
  destruct (compareFn pivot element s) as [order s1].
  destruct (negative order); by apply IH.
Qed.

Lemma BinaryInsertionSort_draws (todo : list A) :
  ∀ sorted s,
    draws s → draws (BinaryInsertionSort compareFn sorted todo s).2.
Proof.
  induction todo as [|pivot todo IH]; intros sorted s Hs; simpl; [done|].
  unfold bind.
  pose proof (findSlot_draws (length sorted) pivot sorted 0 (length sorted)
                s Hs) as H1.
  destruct (findSlot compareFn (length sorted) pivot sorted 0
              (length sorted) s) as [left s1].
  by apply IH.
Qed.

Lemma Array_sort_draws (arr : list A) (s : RandomSource) :
  draws s → draws (Array_sort compareFn arr s).2.
Proof.
  intros Hs. unfold Array_sort. destruct (length arr <? 2)%nat; [done|].
  unfold bind. pose proof (CountAndMakeRun_draws arr s Hs) as H1.
  destruct (CountAndMakeRun compareFn arr s) as [[runLength run] s1].
  by apply BinaryInsertionSort_draws.
Qed.

End SortDraws.

(** ** The sort and the tiers *)

Section SortTiers.
Context {A : Type} (tier : A -> Q) (compareFn : A -> A -> Rand Q).
Context (draws : RandomSource -> Prop).

(** The comparison function decides pairs of different tiers the same way
    whatever it draws: the element of the higher tier sorts first. *)
Hypothesis compare_tiers : ∀ a b s,
  draws s →
  draws (compareFn a b s).2 ∧
  ((tier b < tier a)%Q → negative (compareFn a b s).1 = true) ∧
  ((tier a < tier b)%Q → negative (compareFn a b s).1 = false).

Lemma falling_reverse (l : list A) :
  StronglySorted (λ a b, (tier a <= tier b)%Q) l →
  StronglySorted (λ a b, (tier b <= tier a)%Q) (reverse l).
Proof.
  induction l as [|x l IH]; intros Hs; [constructor|].
  apply StronglySorted_inv in Hs as [Hl Hall]. rewrite reverse_cons.
  apply StronglySorted_app_2; [|by apply IH|repeat constructor].
  intros y x' Hy ->%list_elem_of_singleton.
  rewrite elem_of_reverse in Hy. rewrite Forall_forall in Hall. by apply Hall.
Qed.

(** A run that rises in the eyes of the comparison function falls in
    tiers, and one that falls rises. *)
Lemma runOn_tiers (isDescending : bool) (rest : list A) :
  ∀ previousElement s,
    draws s →
    (runOn compareFn isDescending previousElement rest s).1 ≤ length rest ∧
    StronglySorted
      (λ a b, if isDescending then (tier a <= tier b)%Q
              else (tier b <= tier a)%Q)
      (previousElement ::
         take (runOn compareFn isDescending previousElement rest s).1 rest).
Proof.
  induction rest as [|currentElement rest IH]; intros previousElement s Hs;
    simpl.
  { split; [done|]. repeat constructor. }
  unfold bind.
  destruct (compare_tiers currentElement previousElement s Hs)
    as (H1 & Hup & Hdown).
  destruct (compareFn currentElement previousElement s) as [order s1].
  cbn [fst snd] in *.
  destruct (if isDescending then negb (negative order) else negative order)
    eqn:Hbreak.
  { cbn [ret fst take]. split; [lia|]. repeat constructor. }
  destruct (IH currentElement s1 H1) as [Hlen Hrun].
  destruct (runOn compareFn isDescending currentElement rest s1) as [n s2].
  cbn [ret fst snd take] in *. split; [lia|].
  apply StronglySorted_inv in Hrun as [Hrest Hall].
  assert (if isDescending
          then (tier previousElement <= tier currentElement)%Q
          else (tier currentElement <= tier previousElement)%Q) as Hstep.
  { destruct isDescending.
    - apply negb_false_iff in Hbreak.
      destruct (Qlt_le_dec (tier currentElement) (tier previousElement))
        as [Hlt|]; [|done].
      specialize (Hdown Hlt). congruence.
    - destruct (Qlt_le_dec (tier previousElement) (tier currentElement))
        as [Hlt|]; [|done].
      specialize (Hup Hlt). congruence. }
  apply SSorted_cons; [by apply SSorted_cons|].
  constructor; [done|].
  eapply Forall_impl; [exact Hall|]. intros y Hy. cbv beta in *.
  destruct isDescending; lra.
Qed.

Lemma CountAndMakeRun_tiers (workArray : list A) (s : RandomSource) :
  draws s →
  StronglySorted (λ a b, (tier b <= tier a)%Q)
    (take (CountAndMakeRun compareFn workArray s).1.1
       (CountAndMakeRun compareFn workArray s).1.2).
Proof.
  intros Hs. unfold CountAndMakeRun.
  destruct workArray as [|elementHigh [|elementLow rest]];
    [constructor|repeat constructor|].
  unfold bind.
  destruct (compare_tiers elementLow elementHigh s Hs) as (H1 & Hup & Hdown).
  destruct (compareFn elementLow elementHigh s) as [order s1].
  cbn [fst snd] in *.
  destruct (runOn_tiers (negative order) rest elementLow s1 H1)
    as [Hlen Hrun].
  destruct (runOn compareFn (negative order) elementLow rest s1) as [n s2].
  cbn [ret fst snd] in *.
  apply StronglySorted_inv in Hrun as [Hrest Hall].
  destruct (negative order) eqn:Hneg.
  - assert (tier elementHigh <= tier elementLow)%Q as Hstep.
    { destruct (Qlt_le_dec (tier elementLow) (tier elementHigh)) as [Hlt|];
        [|done].
      specialize (Hdown Hlt). congruence. }
    rewrite take_app_length'
      by (rewrite length_reverse, length_take; simpl; lia).
    apply falling_reverse. cbn [take].
    apply SSorted_cons; [by apply SSorted_cons|]. constructor; [done|].
    eapply Forall_impl; [exact Hall|]. intros y Hy. cbv beta in *. lra.
  - assert (tier elementLow <= tier elementHigh)%Q as Hstep.
    { destruct (Qlt_le_dec (tier elementHigh) (tier elementLow)) as [Hlt|];
        [|done].
      specialize (Hup Hlt). congruence. }
    cbn [take].
    apply SSorted_cons; [by apply SSorted_cons|]. constructor; [done|].
    eapply Forall_impl; [exact Hall|]. intros y Hy. cbv beta in *. lra.
Qed.

(** The binary search ends between the elements of a tier above the pivot's
    and those of a tier below. *)
Lemma findSlot_tiers (pivot : A) (sorted : list A) :
  StronglySorted (λ a b, (tier b <= tier a)%Q) sorted →
  ∀ rounds left right s,
    draws s → left ≤ right ≤ length sorted → right - left ≤ rounds →
    Forall (λ e, (tier pivot <= tier e)%Q) (take left sorted) →
    Forall (λ e, (tier e <= tier pivot)%Q) (drop right sorted) →
    let slot := (findSlot compareFn rounds pivot sorted left right s).1 in
    Forall (λ e, (tier pivot <= tier e)%Q) (take slot sorted) ∧
    Forall (λ e, (tier e <= tier pivot)%Q) (drop slot sorted).
Proof.
  intros Hsorted.
  induction rounds as [|rounds IH]; intros left right s Hs Hrange Hrounds
    Hleft Hright; cbn [findSlot].
  { assert (left = right) as -> by lia. done. }
  destruct (left <? right)%nat eqn:Hlt.
  2:{ apply Nat.ltb_ge in Hlt. assert (left = right) as -> by lia. done. }
  apply Nat.ltb_lt in Hlt.
  set (mid := left + (right - left) / 2).
  assert (left ≤ mid < right) as Hmid.
  { subst mid.
    pose proof (Nat.div_lt (right - left) 2 ltac:(lia) ltac:(lia)). lia. }
  destruct (lookup_lt_is_Some_2 sorted mid) as [element He]; [lia|].
  rewrite He. unfold bind.
  destruct (compare_tiers pivot element s Hs) as (H1 & Hup & Hdown).
  destruct (compareFn pivot element s) as [order s1]. cbn [fst snd] in *.
  rewrite <- (take_drop_middle sorted mid element He) in Hsorted.
  apply StronglySorted_app in Hsorted as (Hcross & _ & Hafter).
  apply StronglySorted_inv in Hafter as [_ Hbelow].
  destruct (negative order) eqn:Hneg.
  - assert (tier element <= tier pivot)%Q as Hstep.
    { destruct (Qlt_le_dec (tier pivot) (tier element)) as [Hl|]; [|done].
      specialize (Hdown Hl). congruence. }
    apply IH; [done|lia|lia|done|].
    rewrite (drop_S sorted element mid He). constructor; [done|].
    eapply Forall_impl; [exact Hbelow|]. intros y Hy. cbv beta in *. lra.
  - assert (tier pivot <= tier element)%Q as Hstep.
    { destruct (Qlt_le_dec (tier element) (tier pivot)) as [Hl|]; [|done].
      specialize (Hup Hl). congruence. }
    apply IH; [done|lia|lia| |done].
    rewrite (take_S_r sorted mid element He). apply Forall_app.
    split; [|by repeat constructor].
    apply Forall_forall. intros y Hy.
    specialize (Hcross y element Hy ltac:(left)). cbv beta in *. lra.
Qed.

Lemma BinaryInsertionSort_tiers (todo : list A) :
  ∀ sorted s,
    draws s →
    StronglySorted (λ a b, (tier b <= tier a)%Q) sorted →
    StronglySorted (λ a b, (tier b <= tier a)%Q)
      (BinaryInsertionSort compareFn sorted todo s).1.
Proof.
  induction todo as [|pivot todo IH]; intros sorted s Hs Hsorted; simpl;
    [done|].
  unfold bind.
  destruct (findSlot_tiers pivot sorted Hsorted (length sorted) 0
              (length sorted) s Hs) as [Hleft Hright];
    [lia|lia|by rewrite take_0|by rewrite drop_all|].
  pose proof (findSlot_draws compareFn draws
                (λ a b s H, proj1 (compare_tiers a b s H))
                (length sorted) pivot sorted 0 (length sorted) s Hs) as H1.
  destruct (findSlot compareFn (length sorted) pivot sorted 0
              (length sorted) s) as [slot s1].
  cbn [fst snd] in *. apply IH; [done|].
  rewrite <- (take_drop slot sorted) in Hsorted.
  apply StronglySorted_app in Hsorted as (Hcross & Hbefore & Hafter).
  apply StronglySorted_app_2; [|done|by constructor].
  intros x y Hx [->|Hy]%elem_of_cons.
  - rewrite Forall_forall in Hleft. by apply Hleft.
  - by apply Hcross.
Qed.

Lemma Array_sort_tiers (arr : list A) (s : RandomSource) :
  draws s →
  StronglySorted (λ a b, (tier b <= tier a)%Q)
    (Array_sort compareFn arr s).1.
Proof.
  intros Hs. unfold Array_sort. destruct (length arr <? 2)%nat eqn:Hshort.
  { apply Nat.ltb_lt in Hshort.
    destruct arr as [|x [|y arr]]; [constructor|repeat constructor|].
    simpl in Hshort. lia. }
  unfold bind.
  pose proof (CountAndMakeRun_tiers arr s Hs) as Hrun.
  pose proof (CountAndMakeRun_draws compareFn draws
                (λ a b s H, proj1 (compare_tiers a b s H)) arr s Hs) as H1.
  destruct (CountAndMakeRun compareFn arr s) as [[runLength run] s1].
  cbn [fst snd] in *. by apply BinaryInsertionSort_tiers.
Qed.

End SortTiers.

(** ** The ranker: the bonus tiers *)

Ltac closed := vm_compute; (reflexivity || congruence).

(** What [scoreVideo] draws and returns: the bonus and the random part are
    added and rounded. *)
Lemma scoreVideo_draw (userInterests : list string) (v : Video)
    (s : RandomSource) :
  (scoreVideo userInterests v s).2 = (λ n, s (S n)) ∧
  (scoreVideo userInterests v s).1
  = fl (bonus userInterests v + fl (s 0%nat * 5)).
Proof.
  unfold scoreVideo, bonus, interestBonus, trendingBonus, bind, Math_random,
    ret. cbn [fst snd]. split; [done|]. apply fl_comp.
  destruct (includes userInterests (category v)), (is_trending v).
  - assert (fl (fl (0 + 20) + 5) == 20 + 5)%Q as -> by closed. reflexivity.
  - assert (fl (0 + 20) == 20 + 0)%Q as -> by closed. reflexivity.
  - assert (fl (0 + 5) == 0 + 5)%Q as -> by closed. reflexivity.
  - reflexivity.
Qed.


(** The random part of a score lies between 0 and 5, and the score between
    the bonus and the bonus plus 5: rounding passes neither. *)
Lemma scoreVideo_range (userInterests : list string) (v : Video)
    (s : RandomSource) :
  (0 <= s 0%nat)%Q → (s 0%nat < 1)%Q →
  (0 <= fl (s 0%nat * 5))%Q ∧ (fl (s 0%nat * 5) <= 5)%Q ∧
  (bonus userInterests v <= (scoreVideo userInterests v s).1)%Q ∧
  ((scoreVideo userInterests v s).1 <= bonus userInterests v + 5)%Q.
Proof.
  intros L U. destruct (scoreVideo_draw userInterests v s) as [_ ->].
  assert (0 <= fl (s 0%nat * 5))%Q as Lj by (apply fl_nonneg; lra).
  assert (fl (s 0%nat * 5) <= 5)%Q as Uj by (apply fl_le; [lra|closed]).
  split; [done|]. split; [done|].
  unfold bonus, interestBonus, trendingBonus.
  destruct (includes userInterests (category v)), (is_trending v);
    (split; [apply fl_ge; [lra|closed]|]).
  - apply fl_le; [lra|closed].
  - apply fl_le; [lra|closed].
  - apply fl_le; [lra|closed].
  - apply fl_le; [lra|closed].
Qed.




(** Whatever is drawn, a video whose category is an interest is compared
    as sorting before one whose category is none: their scores are 10
    apart or more. *)
Lemma byScore_interest (userInterests : list string) (a b : Video)
    (s : RandomSource) :
  unit_interval s →
  unit_interval (byScore userInterests a b s).2 ∧
  ((interestTier userInterests b < interestTier userInterests a)%Q →
     negative (byScore userInterests a b s).1 = true) ∧
  ((interestTier userInterests a < interestTier userInterests b)%Q →
     negative (byScore userInterests a b s).1 = false).
Proof.
  intros Hs. unfold byScore, bind.
  destruct (Hs 0%nat) as [L0 U0]. destruct (Hs 1%nat) as [L1 U1].
  destruct (scoreVideo_range userInterests b s L0 U0) as (_ & _ & Lb & Ub).
  destruct (scoreVideo_draw userInterests b s) as [E1 _].
  destruct (scoreVideo userInterests b s) as [sb s1].
  cbn [fst snd] in *. subst s1.
  destruct (scoreVideo_range userInterests a (λ n, s (S n)) L1 U1)
    as (_ & _ & La & Ua).
  destruct (scoreVideo_draw userInterests a (λ n, s (S n))) as [E2 _].
  destruct (scoreVideo userInterests a _) as [sa s2].
  cbn [fst snd] in *. subst s2. unfold ret. cbn [fst snd].
  assert (representable 10) as Rp by closed.
  assert (representable (- 10)) as Rn by closed.
  unfold interestTier, bonus, interestBonus, trendingBonus in *.
  split; [|split].
  - intros n. apply Hs.
  - intros Hlt. apply bool_decide_eq_true.
    apply Qle_lt_trans with (- 10)%Q; [|lra].
    apply fl_le; [|done].
    destruct (includes userInterests (category a)),
      (includes userInterests (category b)), (is_trending a),
      (is_trending b); lra.
  - intros Hlt. apply bool_decide_eq_false. apply Qle_not_lt.
    apply Qle_trans with 10%Q; [lra|].
    apply fl_ge; [|done].
    destruct (includes userInterests (category a)),
      (includes userInterests (category b)), (is_trending a),
      (is_trending b); lra.
Qed.

Lemma shuffleCompare_draws (draws : RandomSource → Prop) :
  (∀ s, draws s → draws (λ n, s (S n))) →
  ∀ (a b : Video) (s : RandomSource),
    draws s → draws (shuffleCompare a b s).2.
Proof. intros Htail a b s Hs. by apply Htail. Qed.

(** Where the comparison of scores decides the tiers of a grading the same
    way whatever is drawn, each block of the ranking is ordered by falling
    tier. *)
Lemma ranked_by_tiers (tier : Video → Q) (draws : RandomSource → Prop)
    (userInterests : list string) (videos : list Video)
    (ux : UserInteractions) (s : RandomSource) :
  (∀ s, draws s → draws (λ n, s (S n))) →
  (∀ a b s, draws s →
     draws (byScore userInterests a b s).2 ∧
     ((tier b < tier a)%Q → negative (byScore userInterests a b s).1 = true) ∧
     ((tier a < tier b)%Q →
        negative (byScore userInterests a b s).1 = false)) →
  draws s →
  ∃ us ss,
    (applySmartRecommendations userInterests videos ux s).1 = us ++ ss ∧
    Forall (λ v, id v ∉ seenIds ux) us ∧
    Forall (λ v, id v ∈ seenIds ux) ss ∧
    StronglySorted (λ a b, (tier b <= tier a)%Q) us ∧
    StronglySorted (λ a b, (tier b <= tier a)%Q) ss.
Proof.
  intros Htail Htiers Hs. unfold applySmartRecommendations.
  destruct videos as [|v0 vs].
  { exists [], []. repeat split; constructor. }
  generalize (v0 :: vs). clear v0 vs. intros videos. unfold bind.
  pose proof (Array_sort_perm shuffleCompare
    (filter (λ v, id v ∉ seenIds ux) videos) s) as P1.
  pose proof (Array_sort_draws shuffleCompare draws
    (shuffleCompare_draws draws Htail)
    (filter (λ v, id v ∉ seenIds ux) videos) s Hs) as I1.
  destruct (Array_sort shuffleCompare _ s) as [shuffled s1]. simpl in *.
  pose proof (Array_sort_perm (byScore userInterests) shuffled s1) as P2.
  pose proof (Array_sort_tiers tier (byScore userInterests) draws Htiers
    shuffled s1 I1) as T2.
  pose proof (Array_sort_draws (byScore userInterests) draws
    (λ a b s H, proj1 (Htiers a b s H)) shuffled s1 I1) as I2.
  destruct (Array_sort (byScore userInterests) shuffled s1) as [us s2].
  simpl in *.
  pose proof (Array_sort_perm (byScore userInterests)
    (filter (λ v, id v ∈ seenIds ux) videos) s2) as P3.
  pose proof (Array_sort_tiers tier (byScore userInterests) draws Htiers
    (filter (λ v, id v ∈ seenIds ux) videos) s2 I2) as T3.
  destruct (Array_sort (byScore userInterests) _ s2) as [ss s3].
  simpl in *. exists us, ss. split; [done|].
  split; [|split; [|done]].
  - rewrite P2, P1. apply Forall_forall. intros v Hv.
    by apply list_elem_of_filter in Hv as [? _].
  - rewrite P3. apply Forall_forall. intros v Hv.
    by apply list_elem_of_filter in Hv as [? _].
Qed.




(** Inside a block the order of the tiers depends on the hypothesis on the
    draws.  For a draw next to 1, 20 + r * 5 is rounded to 25, the score of a
    trending video of interest that drew 0: the comparison gives 0 and the
    video of the lower tier stays ahead. *)
Lemma rounding_ties_two_tiers :
  unit_interval largestThenZero ∧
  (scoreVideo ["night"] (short "a") largestThenZero).1 = 25%Q ∧
  (bonus ["night"] (short "a")
   < bonus ["night"] (trending (short "b")))%Q ∧
  (applySmartRecommendations ["night"]
     [short "a"; trending (short "b")] bothLiked largestThenZero).1
  = [short "a"; trending (short "b")].
Proof.
  split; [|split; [|split]]; [|by vm_compute..].
  intros [|n]; split; vm_compute; congruence.
Qed.

(** The older copy draws [Math.random() * 10], which can exceed the trending
    bonus: there a video without bonus can stay ahead of a trending one. *)
Lemma legacy_tie_breaker_crosses_tiers :
  unit_interval highThenLow ∧
  (Legacy.applySmartRecommendations []
     [short "a"; trending (short "b")] noInteractions highThenLow).1
  = [short "a"; trending (short "b")].
Proof.
  split; [|by vm_compute].
  intros [|n]; split; vm_compute; congruence.
Qed.

(** ** The ranker: the random draws *)


(** ** The allocator: what the recycling sort can do *)

Lemma recycleCompare_keeps (a b : Video) (s : RandomSource) :
  recycleCompare a b (drawFirst (1 # 2) s) = (fl (0.5 - (1 # 2)), s) ∧
  recycleCompare a b halves = (fl (0.5 - (1 # 2)), halves) ∧
  negative (fl (0.5 - (1 # 2))) = false.
Proof. split; [done|]. split; [done|]. by vm_compute. Qed.

Lemma recycleCompare_swaps (a b : Video) (s : RandomSource) :
  recycleCompare a b (drawFirst (3 # 4) s) = (fl (0.5 - (3 # 4)), s) ∧
  negative (fl (0.5 - (3 # 4))) = true.
Proof. split; [done|]. by vm_compute. Qed.

Lemma drawFirst_interval (r : Q) (s : RandomSource) :
  (0 <= r)%Q → (r < 1)%Q → unit_interval s → unit_interval (drawFirst r s).
Proof. intros H0 H1 Hs [|n]; [done|apply Hs]. Qed.

Lemma halves_interval : unit_interval halves.
Proof. intros n. split; by vm_compute. Qed.

(** With draws of one half every comparison gives 0: the array is one run,
    and every pivot stays behind the elements before it. *)
Lemma runOn_halves (rest : list Video) :
  ∀ previousElement,
    runOn recycleCompare false previousElement rest halves
    = (length rest, halves).
Proof.
  induction rest as [|currentElement rest IH]; intros previousElement;
    [done|].
  cbn [runOn]. unfold bind.
  destruct (recycleCompare_keeps currentElement previousElement halves)
    as (_ & -> & ->).
  by rewrite IH.
Qed.

Lemma findSlot_halves (pivot : Video) (sorted : list Video) :
  ∀ rounds left right,
    left ≤ right ≤ length sorted → right - left ≤ rounds →
    findSlot recycleCompare rounds pivot sorted left right halves
    = (right, halves).
Proof.
  induction rounds as [|rounds IH]; intros left right Hrange Hrounds;
    cbn [findSlot].
  { by assert (left = right) as -> by lia. }
  destruct (left <? right)%nat eqn:Hlt.
  2:{ apply Nat.ltb_ge in Hlt. by assert (left = right) as -> by lia. }
  apply Nat.ltb_lt in Hlt.
  pose proof (Nat.div_lt (right - left) 2 ltac:(lia) ltac:(lia)).
  destruct (lookup_lt_is_Some_2 sorted (left + (right - left) / 2))
    as [element ->]; [lia|].
  unfold bind.
  destruct (recycleCompare_keeps pivot element halves) as (_ & -> & ->).
  apply IH; lia.
Qed.

Lemma BinaryInsertionSort_halves (todo : list Video) :
  ∀ sorted,
    BinaryInsertionSort recycleCompare sorted todo halves
    = (sorted ++ todo, halves).
Proof.
  induction todo as [|pivot todo IH]; intros sorted; cbn [BinaryInsertionSort].
  { by rewrite app_nil_r. }
  unfold bind. rewrite findSlot_halves by lia.
  rewrite take_ge, drop_ge by lia. rewrite IH. by rewrite <- app_assoc.
Qed.

(** Draws that end the first run after [j] further elements. *)
Lemma runOn_stops (rest : list Video) :
  ∀ j previousElement s,
    j < length rest → unit_interval s →
    ∃ s0, unit_interval s0 ∧
          runOn recycleCompare false previousElement rest s0 = (j, s).
Proof.
  induction rest as [|currentElement rest IH]; intros j previousElement s Hj
    Hs; [simpl in Hj; lia|].
  destruct j as [|j].
  - exists (drawFirst (3 # 4) s). split; [by apply drawFirst_interval|].
    cbn [runOn]. unfold bind.
    by destruct (recycleCompare_swaps currentElement previousElement s)
      as [-> ->].
  - destruct (IH j currentElement s) as (s0 & H0 & E);
      [simpl in Hj; lia|done|].
    exists (drawFirst (1 # 2) s0). split; [by apply drawFirst_interval|].
    cbn [runOn]. unfold bind.
    destruct (recycleCompare_keeps currentElement previousElement s0)
      as (-> & _ & ->).
    by rewrite E.
Qed.

(** Draws that take a pivot to the front of the sorted elements. *)
Lemma findSlot_front (pivot : Video) (sorted : list Video) :
  ∀ rounds left right s,
    left ≤ right ≤ length sorted → unit_interval s →
    ∃ s0, unit_interval s0 ∧
          findSlot recycleCompare rounds pivot sorted left right s0
          = (left, s).
Proof.
  induction rounds as [|rounds IH]; intros left right s Hrange Hs.
  { by exists s. }
  cbn [findSlot]. destruct (left <? right)%nat eqn:Hlt; [|by exists s].
  apply Nat.ltb_lt in Hlt.
  pose proof (Nat.div_lt (right - left) 2 ltac:(lia) ltac:(lia)).
  destruct (lookup_lt_is_Some_2 sorted (left + (right - left) / 2))
    as [element ->]; [lia|].
  destruct (IH left (left + (right - left) / 2) s) as (s0 & H0 & E);
    [lia|done|].
  exists (drawFirst (3 # 4) s0). split; [by apply drawFirst_interval|].
  unfold bind.
  by destruct (recycleCompare_swaps pivot element s0) as [-> ->].
Qed.

(** The sort with [recycleCompare] can bring any element to the front:
    there are draws for it, whatever the place of the element. *)
Lemma any_can_come_first (arr : list Video) (k : nat) (v : Video) :
  arr !! k = Some v →
  ∃ s, unit_interval s ∧
       head (Array_sort recycleCompare arr s).1 = Some v.
Proof.
  intros Hk. unfold Array_sort.
  destruct arr as [|elementHigh [|elementLow rest]].
  - done.
  - destruct k as [|k]; [|done]. exists halves.
    split; [apply halves_interval|done].
  - cbn [length Nat.ltb Nat.leb]. unfold bind. cbn [CountAndMakeRun].
    unfold bind.
    destruct k as [|[|k]].
    + exists halves. split; [apply halves_interval|].
      destruct (recycleCompare_keeps elementLow elementHigh halves)
        as (_ & -> & ->).
      rewrite runOn_halves. cbn [ret fst snd].
      by rewrite BinaryInsertionSort_halves.
    + exists (drawFirst (3 # 4) halves).
      split; [by apply drawFirst_interval, halves_interval|].
      destruct (recycleCompare_swaps elementLow elementHigh halves)
        as [-> ->].
      assert (runOn recycleCompare true elementLow rest halves
              = (0, halves)) as ->.
      { destruct rest as [|currentElement rest]; [done|].
        cbn [runOn]. unfold bind.
        by destruct (recycleCompare_keeps currentElement elementLow halves)
          as (_ & -> & ->). }
      cbn [ret fst snd]. rewrite BinaryInsertionSort_halves.
      by injection Hk as ->.
    + cbn [lookup list_lookup] in Hk.
      destruct (findSlot_front v (take (S (S k)) (elementHigh :: elementLow
                  :: rest)) (length (take (S (S k)) (elementHigh :: elementLow
                  :: rest))) 0 (length (take (S (S k)) (elementHigh ::
                  elementLow :: rest))) halves)
        as (s2 & H2 & E2); [lia|apply halves_interval|].
      destruct (runOn_stops rest k elementLow s2) as (s1 & H1 & E1);
        [by eapply lookup_lt_Some|done|].
      exists (drawFirst (1 # 2) s1). split; [by apply drawFirst_interval|].
      destruct (recycleCompare_keeps elementLow elementHigh s1)
        as (-> & _ & ->).
      rewrite E1. cbn [ret fst snd].
      rewrite (drop_S _ v (S (S k))) by done.
      cbn [BinaryInsertionSort]. unfold bind. rewrite E2.
      rewrite BinaryInsertionSort_halves. done.
Qed.

(** ** The allocator: one call of [pickVideos] *)

Lemma pickVideos_spec (used : gset string) (pool : list Video) (count : nat)
    (s : RandomSource) :
  let available := filter (λ v, id v ∉ used) pool in
  let selected := take count available in
  ∃ backfill,
    (pickVideos used pool count s).1
      = (selected ++ backfill, used ∪ list_to_set (id <$> selected)) ∧
    backfill ⊆+ filter (λ v, v ∉ selected) pool ∧
    length backfill
      = min (count - length selected)
            (length (filter (λ v, v ∉ selected) pool)).
Proof.
  intros available selected. unfold pickVideos.
  destruct pool as [|v0 vs].
  { exists []. subst selected available. rewrite filter_nil, !take_nil.
    simpl. rewrite union_empty_r_L. split; [done|]. split; [done|]. lia. }
  fold available. fold selected.
  destruct (length selected <? count)%nat eqn:Hlt.
  - unfold bind.
    pose proof (Array_sort_perm recycleCompare
                  (filter (λ v, v ∉ selected) (v0 :: vs)) s) as Hp.
    destruct (Array_sort recycleCompare _ s) as [recycled s1].
    cbn [fst snd] in *.
    exists (take (count - length selected) recycled).
    split; [done|]. split.
    + rewrite <- Hp. apply submseteq_take.
    + by rewrite length_take, Hp.
  - exists []. apply Nat.ltb_ge in Hlt.
    unfold ret. cbn [fst]. rewrite app_nil_r.
    split; [done|]. split; [apply submseteq_nil_l|]. simpl. lia.
Qed.

(** When the first pass falls short it has taken every unused entry, and
    what is left for the backfill are the entries whose id is used. *)
Lemma recycled_are_used (used : gset string) (pool : list Video)
    (count : nat) :
  let available := filter (λ v, id v ∉ used) pool in
  length available < count →
  take count available = available ∧
  filter (λ v, v ∉ take count available) pool
    = filter (λ v, id v ∈ used) pool.
Proof.
  intros available Hlt.
  assert (take count available = available) as -> by (apply take_ge; lia).
  split; [done|]. apply filter_ext_elem. intros v Hv. subst available.
  rewrite list_elem_of_filter. split.
  - intros Hn. destruct (decide (id v ∈ used)); [done|]. by destruct Hn.
  - intros Hin [Hn _]. by apply Hn.
Qed.

(** The first-pass picks are pool entries whose id is not yet used. *)
Lemma picks_are_unused (used : gset string) (pool : list Video)
    (count : nat) v :
  v ∈ take count (filter (λ v, id v ∉ used) pool) →
  (id v ∉ used) ∧ v ∈ pool.
Proof.
  intros Hv. apply (list_elem_of_filter (λ v, id v ∉ used)).
  eapply elem_of_submseteq; [exact Hv|apply submseteq_take].
Qed.

(** A batch never uses a pool entry more often than the pool holds it. *)
Lemma pickVideos_submseteq (used : gset string) (pool : list Video)
    (count : nat) (s : RandomSource) :
  (pickVideos used pool count s).1.1 ⊆+ pool.
Proof.
  destruct (pickVideos_spec used pool count s) as (backfill & E & Hsub & _).
  rewrite E. cbn [fst].
  set (selected := take count (filter (λ v, id v ∉ used) pool)) in *.
  rewrite <- (filter_app_complement (λ v, v ∈ selected) pool).
  apply submseteq_app; [|done].
  rewrite <- (filter_all (λ v, v ∈ selected) selected) at 1
    by (by apply Forall_forall).
  apply sublist_submseteq, sublist_filter_mono.
  etrans; [apply sublist_take|apply sublist_filter].
Qed.

(** What [pickVideos] returns when the first pass falls short: every unused
    entry, then the first entries of the used ones as [recycleCompare]
    sorts them. *)
Lemma pickVideos_recycles (used : gset string) (pool : list Video)
    (count : nat) (s : RandomSource) :
  let available := filter (λ v, id v ∉ used) pool in
  length available < count →
  (pickVideos used pool count s).1
  = (available ++
       take (count - length available)
         (Array_sort recycleCompare (filter (λ v, id v ∈ used) pool) s).1,
     used ∪ list_to_set (id <$> available)).
Proof.
  intros available Hlt. unfold pickVideos.
  destruct pool as [|v0 vs].
  { subst available. rewrite !filter_nil. unfold Array_sort.
    cbn [length Nat.ltb Nat.leb ret fst].
    by rewrite take_nil, fmap_nil, list_to_set_nil, union_empty_r_L. }
  cbv zeta. fold available.
  destruct (recycled_are_used used (v0 :: vs) count Hlt) as [Ef Er].
  fold available in Ef, Er. rewrite Er, Ef.
  rewrite (proj2 (Nat.ltb_lt _ _) Hlt). unfold bind.
  by destruct (Array_sort recycleCompare _ s) as [recycled s1].
Qed.

(** C3 (as amended). Whatever the state of the pass, for a section of a
    saved layout whose pool (the videos of the type it requires) holds at
    least [count] entries, the batch stored under the section's key has
    exactly [count] entries.  It is the first [count] unused entries of the
    pool followed by a backfill that makes up the shortfall.  The backfill
    is made of pool entries whose id is already used: the first of them in
    the order in which the sort with [recycleCompare] leaves them, which the
    draws decide - any of them can be the first one recycled (shown for
    fewer than 64 used entries, which the engine sorts without merging).
    The pass's used set grows by the ids of the first-pass picks only.  The
    batches of the default home page are another matter: [getUniqueBatch]
    hands out the unused entries, [count] of them or as many as are
    left. *)
Theorem section_batch_is_filled (videos : list Video) (st : Allocation)
    (index : nat) (section : LayoutSection) (kind : PoolKind) (count : nat)
    (s : RandomSource) :
  demand section = Some (kind, count) →
  count ≤ length (poolOf videos kind) →
  let st' := (allocateSection videos st index section s).1 in
  let firstPass :=
    take count (filter (λ v, id v ∉ usedIds st) (poolOf videos kind)) in
  let usedPool := filter (λ v, id v ∈ usedIds st) (poolOf videos kind) in
  (∃ batch backfill,
     distribution st' !! sectionKey section index = Some batch ∧
     length batch = count ∧
     batch = firstPass ++ backfill ∧
     length backfill = count - length firstPass ∧
     Forall (λ v, v ∈ poolOf videos kind ∧ id v ∈ usedIds st) backfill ∧
     (length firstPass < count →
        backfill = take (count - length firstPass)
                     (Array_sort recycleCompare usedPool s).1) ∧
     usedIds st' = usedIds st ∪ list_to_set (id <$> firstPass)) ∧
  (length firstPass < count → length usedPool < 64 →
     ∀ u, u ∈ usedPool →
       ∃ s' batch',
         unit_interval s' ∧
         distribution (allocateSection videos st index section s').1
           !! sectionKey section index = Some batch' ∧
         batch' !! length firstPass = Some u) ∧
  length (getUniqueBatch (usedIds st) (poolOf videos kind) count).1
  = min count (length (filter (λ v, id v ∉ usedIds st)
                         (poolOf videos kind))).
Proof.
  intros Hd Hcount st' firstPass usedPool. subst st'.
  set (pool := poolOf videos kind) in *.
  set (available := filter (λ v, id v ∉ usedIds st) pool) in *.
  assert (length available ≤ length pool) as Hav by apply length_filter.
  assert (length usedPool = length pool - length available) as Hused.
  { pose proof (filter_complement_length (λ v, id v ∉ usedIds st) pool)
      as Hc. fold available in Hc. subst usedPool.
    rewrite (filter_ext_elem (λ v, id v ∈ usedIds st)
               (λ v, ¬ (id v ∉ usedIds st)) pool); [lia|].
    intros v _. split; [intros Hin Hn; by apply Hn|].
    intros Hn. destruct (decide (id v ∈ usedIds st)); [done|].
    by destruct Hn. }
  assert (∀ s0,
    (allocateSection videos st index section s0).1
    = {| usedIds := (pickVideos (usedIds st) pool count s0).1.2;
         distribution :=
           <[sectionKey section index :=
               (pickVideos (usedIds st) pool count s0).1.1]>
             (distribution st) |}) as Halloc.
  { intros s0. unfold allocateSection. rewrite Hd. unfold bind. fold pool.
    by destruct (pickVideos (usedIds st) pool count s0) as [picked s1]. }
  split; [|split].
  - rewrite Halloc. cbn [usedIds distribution]. rewrite lookup_insert_eq.
    destruct (decide (count ≤ length available)) as [Hle|Hgt].
    + destruct (pickVideos_spec (usedIds st) pool count s)
        as (backfill & E & Hsub & Hlen).
      fold available in E, Hsub, Hlen. fold firstPass in E, Hsub, Hlen.
      assert (length firstPass = count) as HlenF.
      { subst firstPass. rewrite length_take. lia. }
      assert (backfill = []) as ->.
      { apply length_zero_iff_nil. lia. }
      rewrite E. cbn [fst snd]. exists (firstPass ++ []), [].
      rewrite app_nil_r. repeat split; try done.
      * simpl. lia.
      * lia.
    + assert (firstPass = available) as Ef
        by (subst firstPass; apply take_ge; lia).
      rewrite (pickVideos_recycles (usedIds st) pool count s)
        by (fold available; lia).
      fold available. fold usedPool. cbn [fst snd]. rewrite Ef.
      pose proof (Array_sort_perm recycleCompare usedPool s) as Hp.
      set (recycled := (Array_sort recycleCompare usedPool s).1) in *.
      exists (available ++ take (count - length available) recycled),
        (take (count - length available) recycled).
      assert (length (take (count - length available) recycled)
              = count - length available) as Hb.
      { rewrite length_take, Hp. lia. }
      repeat split; try done.
      * rewrite length_app. lia.
      * apply Forall_forall. intros v Hv.
        assert (v ∈ usedPool) as Hin.
        { rewrite <- Hp. eapply elem_of_submseteq; [exact Hv|].
          apply submseteq_take. }
        by apply list_elem_of_filter in Hin as [? ?].
  - intros Hshort _ u Hu.
    assert (length available < count) as Hfew.
    { subst firstPass. rewrite length_take in Hshort. lia. }
    assert (firstPass = available) as Ef
      by (subst firstPass; apply take_ge; lia).
    rewrite Ef in *.
    apply list_elem_of_lookup in Hu as [k Hk].
    destruct (any_can_come_first usedPool k u Hk) as (s' & Hs' & Hhead).
    exists s'.
    exists (available ++ take (count - length available)
                          (Array_sort recycleCompare usedPool s').1).
    split; [done|]. split.
    + rewrite Halloc. cbn [distribution]. rewrite lookup_insert_eq.
      by rewrite (pickVideos_recycles (usedIds st) pool count s')
        by (fold available; lia).
    + rewrite lookup_app_r by lia. rewrite Nat.sub_diag.
      destruct (Array_sort recycleCompare usedPool s').1 as [|v l];
        [done|].
      destruct (count - length available) as [|n] eqn:En; [lia|].
      by injection Hhead as ->.
  - unfold getUniqueBatch. cbn [fst]. fold available.
    by rewrite length_take.
Qed.

Lemma section_batch_is_filled_witness :
  ∃ batch backfill,
    distribution (allocateSection sixShorts afterFirstGrid 1 (grid "g2")
                    halves).1 !! sectionKey (grid "g2") 1 = Some batch ∧
    length batch = 4 ∧
    batch = take 4 (filter (λ v, id v ∉ usedIds afterFirstGrid)
                      (poolOf sixShorts ShortsPool)) ++ backfill ∧
    length backfill
      = 4 - length (take 4 (filter (λ v, id v ∉ usedIds afterFirstGrid)
                              (poolOf sixShorts ShortsPool))) ∧
    Forall (λ v, v ∈ poolOf sixShorts ShortsPool ∧
                 id v ∈ usedIds afterFirstGrid) backfill.
Proof.
  destruct (section_batch_is_filled sixShorts afterFirstGrid 1 (grid "g2")
              ShortsPool 4 halves)
    as [(batch & backfill & H1 & H2 & H3 & H4 & H5 & _) _].
  - reflexivity.
  - vm_compute. lia.
  - by exists batch, backfill.
Defined.

(** The second grid of the example: two fresh videos, then two recycled.
    Which two depends on the draws: with one half throughout the used
    videos keep their order, with a first draw of three quarters the second
    of them comes first. *)
Lemma second_grid_recycles :
  (pickVideos (usedIds afterFirstGrid) sixShorts 4 halves).1.1
  = [short "e"; short "f"; short "a"; short "b"] ∧
  (pickVideos (usedIds afterFirstGrid) sixShorts 4
     (drawFirst (3 # 4) halves)).1.1
  = [short "e"; short "f"; short "b"; short "a"].
Proof. split; by vm_compute. Qed.

(** C3 as stated fails for the helper of the default home page, which does
    not recycle.  Of twelve Shorts the first strip takes ten; the grid that
    asks for four gets the two that are left, and the grid after it, which
    asks for two, gets none, although the pool holds twelve. *)
Lemma default_page_batches_fall_short :
  length (poolOf twelveShorts ShortsPool) = 12 ∧
  length (marqueeShorts1 (homeLayout twelveShorts)) = 10 ∧
  interestGrid (homeLayout twelveShorts) = [short "k"; short "l"] ∧
  gridShorts1 (homeLayout twelveShorts) = [] ∧
  (getUniqueBatch (list_to_set (id <$> take 10 twelveShorts))
     (poolOf twelveShorts ShortsPool) 4).1
  = [short "k"; short "l"].
Proof. repeat split; by vm_compute. Qed.

(** C10. When the ids of a pool are pairwise distinct, so are the ids of the
    batch [pickVideos] returns for it, with or without backfill: the batch is
    made of pool entries, none taken more often than the pool holds it,
    because the backfill is drawn from the entries outside [selected]. *)
Theorem batch_has_no_repeats (used : gset string) (pool : list Video)
    (count : nat) (s : RandomSource) :
  NoDup (id <$> pool) →
  NoDup (id <$> (pickVideos used pool count s).1.1) ∧
  (pickVideos used pool count s).1.1 ⊆+ pool.
Proof.
  intros Hnd. pose proof (pickVideos_submseteq used pool count s) as Hsub.
  split; [|done].
  eapply submseteq_NoDup; [|exact Hnd]. by apply fmap_submseteq.
Qed.

Lemma batch_has_no_repeats_witness :
  NoDup (id <$> (pickVideos (usedIds afterFirstGrid) sixShorts 4 halves).1.1)
  ∧ (pickVideos (usedIds afterFirstGrid) sixShorts 4 halves).1.1 ⊆+ sixShorts.
Proof.
  apply (batch_has_no_repeats (usedIds afterFirstGrid) sixShorts 4 halves).
  apply (bool_decide_unpack _). vm_compute. exact I.
Defined.

(** ** The allocator: uniqueness across the sections of a pass *)

(** C2 as stated fails.  The pool holds one Long video, ranked first, and
    ten Shorts; a slider asks for 10 videos of any type and a feature block
    for 1 Long video.  Each pool holds as many distinct videos as the
    sections drawing from it ask for, also when the slider is counted as
    asking for Shorts, and the pool holds as many videos as the two sections
    together ask for.  The slider takes the first ten videos, the Long one
    among them; the feature block is then filled by recycling, and the Long
    video lies in both batches. *)
Lemma slider_and_feature_share_a_video :
  (∀ kind, totalDemand [slider "s"; feature "f"] kind
           ≤ distinctIds (poolOf oneLongTenShorts kind)) ∧
  totalDemand [slider "s"; feature "f"] ShortsPool
    + totalDemand [slider "s"; feature "f"] MixedPool
    ≤ distinctIds (poolOf oneLongTenShorts ShortsPool) ∧
  NoDup (id <$> oneLongTenShorts) ∧
  ∃ b1 b2,
    (distributedContent [slider "s"; feature "f"] oneLongTenShorts halves).1
      !! "s" = Some b1 ∧
    (distributedContent [slider "s"; feature "f"] oneLongTenShorts halves).1
      !! "f" = Some b2 ∧
    long "p" ∈ b1 ∧ long "p" ∈ b2 ∧
    ¬ batchesDisjoint
        (distributedContent [slider "s"; feature "f"] oneLongTenShorts
           halves).1.
Proof.
  split; [intros []; vm_compute; lia|].
  split; [vm_compute; lia|].
  split; [apply (bool_decide_unpack _); by vm_compute|].
  exists (take 10 oneLongTenShorts), [long "p"].
  assert ((distributedContent [slider "s"; feature "f"] oneLongTenShorts
             halves).1 !! "s" = Some (take 10 oneLongTenShorts)) as E1
    by (by vm_compute).
  assert ((distributedContent [slider "s"; feature "f"] oneLongTenShorts
             halves).1 !! "f" = Some [long "p"]) as E2
    by (by vm_compute).
  split; [done|]. split; [done|].
  assert (long "p" ∈ take 10 oneLongTenShorts) as I1 by (by left).
  assert (long "p" ∈ [long "p"]) as I2 by (by left).
  split; [done|]. split; [done|].
  intros Hd. by eapply (Hd "s" "f" _ _ (long "p") (long "p")).
Qed.

Lemma ids_of_available (used : gset string) (pool : list Video) :
  (list_to_set (id <$> filter (λ v, id v ∉ used) pool) : gset string)
  = list_to_set (id <$> pool) ∖ used.
Proof.
  apply set_eq. intros x.
  rewrite elem_of_difference, !elem_of_list_to_set, !list_elem_of_fmap.
  split.
  - intros (v & -> & Hv). apply list_elem_of_filter in Hv as [Hn Hin].
    split; [by exists v|done].
  - intros [(v & -> & Hin) Hn]. exists v. split; [done|].
    by apply list_elem_of_filter.
Qed.

(** There are at least as many unused entries as unused ids. *)
Lemma available_length (used : gset string) (pool : list Video) :
  size ((list_to_set (id <$> pool) : gset string) ∖ used)
  ≤ length (filter (λ v, id v ∉ used) pool).
Proof.
  rewrite <- ids_of_available.
  etrans; [apply size_list_to_set_le|]. by rewrite length_fmap.
Qed.

(** Marking [count] or fewer picks as used removes at most [count] ids. *)
Lemma unused_after_picks (ids used : gset string) (picks : list Video)
    (count : nat) :
  length picks ≤ count →
  size (ids ∖ used) - count
  ≤ size (ids ∖ (used ∪ list_to_set (id <$> picks))).
Proof.
  intros Hlen.
  set (X := list_to_set (id <$> picks) : gset string).
  assert (size X ≤ count) as HX.
  { etrans; [apply size_list_to_set_le|]. by rewrite length_fmap. }
  assert (ids ∖ used ⊆ (ids ∖ (used ∪ X)) ∪ X) as Hsub.
  { intros x Hx. destruct (decide (x ∈ X)); set_solver. }
  apply subseteq_size in Hsub.
  pose proof (size_union_alt (ids ∖ (used ∪ X)) X) as Hu.
  assert (size (X ∖ (ids ∖ (used ∪ X))) ≤ size X) as Hd
    by (apply subseteq_size; set_solver).
  lia.
Qed.

(** Picks whose ids lie outside [ids] leave the unused part of [ids]. *)
Lemma unused_after_foreign_picks (ids used : gset string)
    (picks : list Video) :
  (∀ v, v ∈ picks → id v ∉ ids) →
  ids ∖ (used ∪ list_to_set (id <$> picks)) = ids ∖ used.
Proof.
  intros Hf. apply set_eq. intros x.
  rewrite !elem_of_difference, elem_of_union, elem_of_list_to_set,
    list_elem_of_fmap.
  split; [intros [? Hn]; split; [done|]; intros ?; apply Hn; by left|].
  intros [Hin Hn]. split; [done|].
  intros [?|(v & -> & Hv)]; [done|]. by apply (Hf v).
Qed.

Lemma totalDemand_cons (section : LayoutSection)
    (sections : list LayoutSection) (kind : PoolKind) :
  totalDemand (section :: sections) kind
  = asks kind section + totalDemand sections kind.
Proof. done. Qed.

(** A section that finds [count] unused entries takes them and nothing
    else: no recycling. *)
Lemma allocateSection_fresh (videos : list Video) (st : Allocation)
    (index : nat) (section : LayoutSection) (kind : PoolKind) (count : nat)
    (s : RandomSource) :
  demand section = Some (kind, count) →
  count ≤ length (filter (λ v, id v ∉ usedIds st) (poolOf videos kind)) →
  (allocateSection videos st index section s).1
  = {| usedIds := usedIds st ∪ list_to_set
         (id <$> take count
            (filter (λ v, id v ∉ usedIds st) (poolOf videos kind)));
       distribution :=
         <[sectionKey section index :=
             take count
               (filter (λ v, id v ∉ usedIds st) (poolOf videos kind))]>
           (distribution st) |}.
Proof.
  intros Hd Hcount. unfold allocateSection. rewrite Hd. unfold bind.
  destruct (pickVideos_spec (usedIds st) (poolOf videos kind) count s)
    as (backfill & E & _ & Hlen).
  destruct (pickVideos (usedIds st) (poolOf videos kind) count s)
    as [picked s1].
  cbn [fst snd] in *. subst picked. unfold ret. cbn [fst snd].
  rewrite length_take in Hlen.
  assert (backfill = []) as -> by (apply length_zero_iff_nil; lia).
  by rewrite app_nil_r.
Qed.

Section PassUniqueness.
Variable videos : list Video.
Hypothesis ids_unique : NoDup (id <$> videos).

Lemma pool_in_videos kind v : v ∈ poolOf videos kind → v ∈ videos.
Proof.
  destruct kind; simpl; [| |done];
    by intros [_ ?]%list_elem_of_filter.
Qed.

Lemma short_is_not_long v :
  v ∈ poolOf videos ShortsPool → id v ∉ idsOf (poolOf videos LongsPool).
Proof.
  intros Hv. unfold idsOf.
  rewrite elem_of_list_to_set, list_elem_of_fmap.
  intros (w & Hid & Hw).
  assert (v = w) as ->.
  { eapply NoDup_fmap_inj; eauto using pool_in_videos. }
  simpl in Hv, Hw. apply list_elem_of_filter in Hv as [Hs _].
  apply list_elem_of_filter in Hw as [Hl _]. congruence.
Qed.

Lemma long_is_not_short v :
  v ∈ poolOf videos LongsPool → id v ∉ idsOf (poolOf videos ShortsPool).
Proof.
  intros Hv. unfold idsOf.
  rewrite elem_of_list_to_set, list_elem_of_fmap.
  intros (w & Hid & Hw).
  assert (v = w) as ->.
  { eapply NoDup_fmap_inj; eauto using pool_in_videos. }
  simpl in Hv, Hw. apply list_elem_of_filter in Hv as [Hl _].
  apply list_elem_of_filter in Hw as [Hs _]. congruence.
Qed.

(** Storing a batch of unused entries keeps the stored batches apart. *)
Lemma fresh_batch_keeps_apart (st : Allocation) (key : string)
    (picks : list Video) :
  (∀ v, v ∈ picks → id v ∉ usedIds st) →
  storedAreUsed st → batchesDisjoint (distribution st) →
  storedAreUsed {| usedIds := usedIds st ∪ list_to_set (id <$> picks);
                 distribution := <[key := picks]> (distribution st) |} ∧
  batchesDisjoint (<[key := picks]> (distribution st)).
Proof.
  intros Hfresh Hused Hdisj. split.
  - intros k b v Hk Hv. cbn [usedIds distribution] in *.
    apply elem_of_union.
    destruct (decide (key = k)) as [->|Hne].
    + rewrite lookup_insert_eq in Hk. injection Hk as <-.
      right. apply elem_of_list_to_set. by apply list_elem_of_fmap_2.
    + rewrite lookup_insert_ne in Hk by done. left. by eapply Hused.
  - intros k1 k2 b1 b2 v1 v2 Hne H1 H2 Hv1 Hv2 Hid.
    destruct (decide (key = k1)) as [->|Hn1].
    + rewrite lookup_insert_eq in H1. injection H1 as <-.
      rewrite lookup_insert_ne in H2 by done.
      apply (Hfresh v1 Hv1). rewrite Hid. by eapply Hused.
    + rewrite lookup_insert_ne in H1 by done.
      destruct (decide (key = k2)) as [->|Hn2].
      * rewrite lookup_insert_eq in H2. injection H2 as <-.
        apply (Hfresh v2 Hv2). rewrite <- Hid. by eapply Hused.
      * rewrite lookup_insert_ne in H2 by done.
        by eapply (Hdisj k1 k2 b1 b2 v1 v2).
Qed.

Lemma forEachSection_apart (sections : list LayoutSection) :
  ∀ (index : nat) (st : Allocation) (s : RandomSource),
    totalDemand sections ShortsPool + totalDemand sections MixedPool
      ≤ size (idsOf (poolOf videos ShortsPool) ∖ usedIds st) →
    totalDemand sections LongsPool + totalDemand sections MixedPool
      ≤ size (idsOf (poolOf videos LongsPool) ∖ usedIds st) →
    storedAreUsed st → batchesDisjoint (distribution st) →
    storedAreUsed (forEachSection videos sections index st s).1 ∧
    batchesDisjoint
      (distribution (forEachSection videos sections index st s).1).
Proof.
  induction sections as [|section rest IH];
    intros index st s HS HL Hused Hdisj; [done|].
  rewrite !totalDemand_cons in HS, HL.
  cbn [forEachSection]. unfold bind.
  destruct (demand section) as [[kind count]|] eqn:Hd.
  2:{ unfold allocateSection. rewrite Hd. unfold ret.
      unfold asks in HS, HL. rewrite Hd in HS, HL.
      apply IH; done. }
  set (available :=
         filter (λ v, id v ∉ usedIds st) (poolOf videos kind)) in *.
  assert (asks kind section = count) as Hk.
  { unfold asks. rewrite Hd. by rewrite bool_decide_eq_true_2. }
  assert (∀ k, k ≠ kind → asks k section = 0) as Hother.
  { intros k Hne. unfold asks. rewrite Hd.
    by rewrite bool_decide_eq_false_2. }
  assert (count ≤ length available) as Hcount.
  { subst available. destruct kind.
    - etrans; [|apply available_length].
      fold (idsOf (poolOf videos ShortsPool)). lia.
    - etrans; [|apply available_length].
      fold (idsOf (poolOf videos LongsPool)). lia.
    - etrans; [|apply available_length].
      etrans;
        [|apply (subseteq_size
                   (idsOf (poolOf videos ShortsPool) ∖ usedIds st))]; [lia|].
      apply difference_mono_r. unfold idsOf.
      intros x. rewrite !elem_of_list_to_set, !list_elem_of_fmap.
      intros (v & -> & Hv). exists v. split; [done|].
      by apply (pool_in_videos ShortsPool). }
  pose proof (allocateSection_fresh videos st index section kind count s
                Hd Hcount) as Est.
  destruct (allocateSection videos st index section s) as [st' s1].
  cbn [fst] in Est. subst st'. fold available.
  set (picks := take count available).
  assert (length picks ≤ count) as Hlen.
  { subst picks. rewrite length_take. lia. }
  assert (∀ v, v ∈ picks → (id v ∉ usedIds st) ∧ v ∈ poolOf videos kind)
    as Hpicks by (intros v; apply picks_are_unused).
  destruct (fresh_batch_keeps_apart st (sectionKey section index) picks)
    as [Hused' Hdisj']; [by intros v [? _]%Hpicks|done|done|].
  apply IH; cbn [usedIds distribution]; [| |done|done].
  - destruct kind.
    + rewrite (Hother MixedPool) in HS by done.
      pose proof (unused_after_picks (idsOf (poolOf videos ShortsPool))
                    (usedIds st) picks count Hlen). lia.
    + rewrite (Hother ShortsPool), (Hother MixedPool) in HS by done.
      rewrite unused_after_foreign_picks; [lia|].
      intros v [_ Hv]%Hpicks. by apply long_is_not_short.
    + rewrite (Hother ShortsPool) in HS by done.
      pose proof (unused_after_picks (idsOf (poolOf videos ShortsPool))
                    (usedIds st) picks count Hlen). lia.
  - destruct kind.
    + rewrite (Hother LongsPool), (Hother MixedPool) in HL by done.
      rewrite unused_after_foreign_picks; [lia|].
      intros v [_ Hv]%Hpicks. by apply short_is_not_long.
    + rewrite (Hother MixedPool) in HL by done.
      pose proof (unused_after_picks (idsOf (poolOf videos LongsPool))
                    (usedIds st) picks count Hlen). lia.
    + rewrite (Hother LongsPool) in HL by done.
      pose proof (unused_after_picks (idsOf (poolOf videos LongsPool))
                    (usedIds st) picks count Hlen). lia.
Qed.

End PassUniqueness.

(** C2 (as amended). Take a pool whose ids are pairwise distinct and a
    section list such that, for each of the two video types, the pool holds
    at least as many distinct videos of that type as are asked for in total
    by the sections drawing from that type: the sections requiring the type
    and the sliders, which draw from the whole pool.  Then no video id lies
    in the batches stored under two different section keys. *)
Theorem sections_get_disjoint_batches (videos : list Video)
    (sections : list LayoutSection) (s : RandomSource) :
  NoDup (id <$> videos) →
  totalDemand sections ShortsPool + totalDemand sections MixedPool
    ≤ distinctIds (poolOf videos ShortsPool) →
  totalDemand sections LongsPool + totalDemand sections MixedPool
    ≤ distinctIds (poolOf videos LongsPool) →
  batchesDisjoint (distributedContent sections videos s).1.
Proof.
  intros Hnd HS HL. unfold distributedContent, bind.
  destruct (forEachSection_apart videos Hnd sections 0
              {| usedIds := ∅; distribution := ∅ |} s) as [_ Hd].
  - cbn [usedIds]. by rewrite difference_empty_L.
  - cbn [usedIds]. by rewrite difference_empty_L.
  - intros k b v Hk. cbn [distribution] in Hk. by rewrite lookup_empty in Hk.
  - intros k1 k2 b1 b2 v1 v2 _ Hk. cbn [distribution] in Hk.
    by rewrite lookup_empty in Hk.
  - by destruct (forEachSection videos sections 0 _ s).
Qed.

Lemma sections_get_disjoint_batches_witness :
  batchesDisjoint
    (distributedContent [grid "g"; feature "f"] fourShortsSixLongs halves).1.
Proof.
  apply (sections_get_disjoint_batches fourShortsSixLongs
           [grid "g"; feature "f"] halves).
  - apply (bool_decide_unpack _). vm_compute. exact I.
  - vm_compute. lia.
  - vm_compute. lia.
Defined.

(** ** The default home layout *)

(** A batch of [getUniqueBatch] is made of unused ids, which it marks as
    used: no id comes back in a later batch. *)
Lemma getUniqueBatch_is_fresh (used : gset string) (source : list Video)
    (count : nat) (v : Video) :
  v ∈ (getUniqueBatch used source count).1 →
  (id v ∉ used) ∧ id v ∈ (getUniqueBatch used source count).2.
Proof.
  unfold getUniqueBatch. cbn [fst snd]. intros Hv. split.
  - by apply picks_are_unused in Hv as [? _].
  - apply elem_of_union. right. apply elem_of_list_to_set.
    by apply list_elem_of_fmap_2.
Qed.

(** It hands out what is left and no more: after a first batch of four out
    of [sixShorts], a second batch of four holds two videos. *)
Lemma getUniqueBatch_falls_short :
  (getUniqueBatch (usedIds afterFirstGrid) sixShorts 4).1
  = [short "e"; short "f"].
Proof. by vm_compute. Qed.

(** X1. As long as enough unused entries are left, [pickVideos] is
    [getUniqueBatch]. *)
Lemma pickVideos_without_recycling (used : gset string) (pool : list Video)
    (count : nat) (s : RandomSource) :
  count ≤ length (filter (λ v, id v ∉ used) pool) →
  (pickVideos used pool count s).1 = getUniqueBatch used pool count.
Proof.
  intros Hc. destruct (pickVideos_spec used pool count s)
    as (backfill & -> & _ & Hlen).
  rewrite length_take in Hlen.
  assert (backfill = []) as -> by (apply length_zero_iff_nil; lia).
  by rewrite app_nil_r.
Qed.

Lemma pickVideos_without_recycling_witness :
  (pickVideos ∅ sixShorts 4 halves).1 = getUniqueBatch ∅ sixShorts 4.
Proof.
  apply (pickVideos_without_recycling ∅ sixShorts 4 halves).
  vm_compute. lia.
Defined.

(** ** The carousel *)

(** C6. The display list of the carousel is the source list concatenated
    three times when the source has five or more items and five times when
    it has fewer (an empty source gives an empty display list either way);
    a source of three items gives a display list of fifteen. *)
Theorem display_list_replicates (videos : list Video) :
  displayVideos videos
  = concat (replicate (if decide (5 ≤ length videos) then 3 else 5) videos) ∧
  ∀ a b c, length (displayVideos [a; b; c]) = 15.
Proof.
  split; [|done].
  unfold displayVideos. destruct videos as [|v vs]; [done|].
  destruct (length (v :: vs) <? 5)%nat eqn:Hlt.
  - apply Nat.ltb_lt in Hlt. destruct (decide (5 ≤ length (v :: vs))); [lia|].
    cbn [replicate concat]. by rewrite app_nil_r.
  - apply Nat.ltb_ge in Hlt. destruct (decide (5 ≤ length (v :: vs))); [|lia].
    cbn [replicate concat]. by rewrite app_nil_r.
Qed.

(** The older copy of the carousel gives twelve items for three. *)
Lemma legacy_display_list_of_three a b c :
  length (LegacyMarquee.displayVideos [a; b; c]) = 12.
Proof. done. Qed.

Lemma displayVideos_length (videos : list Video) :
  length (displayVideos videos)
  = (if decide (5 ≤ length videos) then 3 else 5) * length videos.
Proof.
  unfold displayVideos. destruct videos as [|v vs]; [by case_decide|].
  destruct (length (v :: vs) <? 5)%nat eqn:Hlt.
  - apply Nat.ltb_lt in Hlt. destruct (decide (5 ≤ length (v :: vs))); [lia|].
    rewrite !length_app. lia.
  - apply Nat.ltb_ge in Hlt. destruct (decide (5 ≤ length (v :: vs))); [|lia].
    rewrite !length_app. lia.
Qed.

(** With three copies a third of the content is one source list and a
    third of what the padding of both ends exceeds one gap by. *)
Lemma tripled_third (strip : Strip) (videos : list Video) :
  5 ≤ length videos →
  (contentWidth strip (length (displayVideos videos)) / 3
   == inject_Z (Z.of_nat (length videos)) * stride strip
      + (2 * padding strip - gap strip) / 3)%Q.
Proof.
  intros Hlen. rewrite displayVideos_length.
  destruct (decide (5 ≤ length videos)); [|lia].
  unfold contentWidth, stride.
  destruct (3 * length videos) as [|m] eqn:E; [lia|].
  assert (Z.of_nat m = 3 * Z.of_nat (length videos) - 1)%Z as -> by lia.
  rewrite <- E, Nat2Z.inj_mul.
  unfold Z.sub. rewrite inject_Z_plus, !inject_Z_mult.
  change (inject_Z (Z.of_nat 3)) with 3%Q.
  change (inject_Z 3) with 3%Q. change (inject_Z (- (1))) with (- 1)%Q.
  field.
Qed.

(** With five copies a third of the content is one source list and two
    thirds of another: never a whole number of source lists. *)
Lemma short_list_third_is_no_period (videos : list Video) (width : Q)
    (k : Z) :
  0 < length videos < 5 → (0 < width)%Q →
  ¬ (contentWidth (plainStrip width) (length (displayVideos videos)) / 3
     == inject_Z k * (inject_Z (Z.of_nat (length videos)) * width))%Q.
Proof.
  intros Hlen Hw. rewrite displayVideos_length.
  destruct (decide (5 ≤ length videos)); [lia|].
  unfold contentWidth, plainStrip. cbn [padding itemWidth gap].
  destruct (5 * length videos) as [|m] eqn:E; [lia|].
  rewrite <- E, Nat2Z.inj_mul, inject_Z_mult.
  change (inject_Z (Z.of_nat 5)) with 5%Q.
  set (items := inject_Z (Z.of_nat (length videos))).
  assert (0 < items)%Q as Hn.
  { subst items. rewrite <- (Zlt_Qlt 0). lia. }
  intros Heq.
  assert (0 < items * width)%Q as Hp by (apply Qmult_lt_0_compat; done).
  assert (inject_Z k == 5 # 3)%Q as Hk.
  { apply (Qmult_inj_r _ _ (items * width)); [lra|].
    rewrite <- Heq. field. }
  unfold Qeq in Hk. simpl in Hk. lia.
Qed.

(** C7 at a source of three items.  The frame advances the offset to 1104.3
    and resets it by one third of the content width (552 pixels) to 552.3;
    one source list is 324 pixels wide.  Twenty pixels from the left edge the
    strip showed [b] before the reset and shows [c] after it. *)
Lemma short_list_wrap_jumps :
  (scrollLeft (advanced 0.8 beforeWrap)
   - scrollLeft (animate false 0.8 beforeWrap)
   == scrollWidth beforeWrap / 3)%Q ∧
  rendered shortsStrip (cards threeShorts)
    (advanced 0.8 beforeWrap) 20 = (Some (short "b"), 20.3%Q) ∧
  rendered shortsStrip (cards threeShorts)
    (animate false 0.8 beforeWrap) 20 = (Some (short "c"), 8.3%Q).
Proof. split; [|split]; by vm_compute. Qed.

(** The same without gap and padding: one third of the content is five
    items, one source list is three. *)
Lemma short_list_wrap_jumps_plain :
  (scrollLeft (advanced 0.8 plainBeforeWrap)
   - scrollLeft (animate false 0.8 plainBeforeWrap)
   == scrollWidth plainBeforeWrap / 3)%Q ∧
  rendered (plainStrip 100) (cards threeShorts)
    (advanced 0.8 plainBeforeWrap) 0 = (Some (short "b"), 0.3%Q) ∧
  rendered (plainStrip 100) (cards threeShorts)
    (animate false 0.8 plainBeforeWrap) 0 = (Some (short "c"), 0.3%Q).
Proof. split; [|split]; by vm_compute. Qed.

(** The floor of a rational is the integer it lies above by less than one,
    and moves with the rational by whole numbers. *)
Lemma Qfloor_unique (q : Q) (k : Z) :
  (inject_Z k <= q)%Q → (q < inject_Z (k + 1))%Q → Qfloor q = k.
Proof.
  intros Hle Hlt.
  pose proof (Qfloor_le q) as Hf. pose proof (Qlt_floor q) as Hc.
  assert (Qfloor q < k + 1)%Z by (rewrite Zlt_Qlt; lra).
  assert (k < Qfloor q + 1)%Z by (rewrite Zlt_Qlt; lra).
  lia.
Qed.

Lemma Qfloor_shift (q : Q) (n : Z) :
  Qfloor (q + inject_Z n) = (Qfloor q + n)%Z.
Proof.
  pose proof (Qfloor_le q) as Hf. pose proof (Qlt_floor q) as Hc.
  apply Qfloor_unique.
  - rewrite inject_Z_plus. lra.
  - replace (Qfloor q + n + 1)%Z with ((Qfloor q + 1) + n)%Z by lia.
    rewrite inject_Z_plus. lra.
Qed.

(** In a tripled list the entry one source list further on is the same. *)
Lemma lookup_tripled {A} (src : list A) (k : nat) :
  k < 2 * length src →
  (src ++ src ++ src) !! (k + length src) = (src ++ src ++ src) !! k.
Proof.
  intros Hk. rewrite lookup_app_r by lia.
  replace (k + length src - length src) with k by lia.
  destruct (decide (k < length src)) as [Hlt|Hge].
  - by rewrite !lookup_app_l by done.
  - rewrite (lookup_app_r src (src ++ src)) by lia.
    rewrite lookup_app_r by lia. by rewrite lookup_app_l by lia.
Qed.

(** What a strip shows depends on the value of the coordinate only. *)
Lemma shownAt_comp (strip : Strip) (items : list Video) (x y : Q) :
  (x == y)%Q → shownAt strip items x = shownAt strip items y.
Proof.
  intros E. unfold shownAt.
  assert (Qfloor ((x - padding strip) / stride strip)
          = Qfloor ((y - padding strip) / stride strip)) as ->
    by (apply Qfloor_comp; by rewrite E).
  f_equal. apply Qred_complete. by rewrite E.
Qed.

(** A tripled list looks the same one source list further on, from the
    first slot to the end of the second copy. *)
Lemma shownAt_one_source_on (strip : Strip) (src : list Video) (x : Q) :
  (0 < stride strip)%Q → (padding strip <= x)%Q →
  (x < padding strip
       + 2 * (inject_Z (Z.of_nat (length src)) * stride strip))%Q →
  shownAt strip (src ++ src ++ src)
    (x + inject_Z (Z.of_nat (length src)) * stride strip)
  = shownAt strip (src ++ src ++ src) x.
Proof.
  intros Hw Hx Hlt. unfold shownAt.
  set (n := Z.of_nat (length src)) in *.
  set (slot := Qfloor ((x - padding strip) / stride strip)).
  assert (Qfloor ((x + inject_Z n * stride strip - padding strip)
                  / stride strip)
          = (slot + n)%Z) as ->.
  { subst slot. rewrite <- Qfloor_shift. apply Qfloor_comp. field. lra. }
  assert (0 <= slot)%Z as Hslot.
  { subst slot.
    apply (Qfloor_resp_le 0 ((x - padding strip) / stride strip)).
    apply Qle_shift_div_l; lra. }
  assert (slot < 2 * n)%Z as Hslot2.
  { rewrite Zlt_Qlt. eapply Qle_lt_trans; [apply Qfloor_le|].
    rewrite inject_Z_mult. change (inject_Z 2) with 2%Q.
    apply Qlt_shift_div_r; lra. }
  f_equal.
  - destruct (0 <=? slot)%Z eqn:E1; [|lia].
    destruct (0 <=? slot + n)%Z eqn:E2; [|lia].
    replace (Z.to_nat (slot + n)) with (Z.to_nat slot + length src) by lia.
    apply lookup_tripled. lia.
  - apply Qred_complete. rewrite inject_Z_plus. ring.
Qed.

(** When every video has a URL, every item of the display list is a card. *)
Lemma cards_all_playable (videos : list Video) :
  Forall (λ item, video_url item ≠ "") videos →
  cards videos = displayVideos videos.
Proof.
  intros Hurl. unfold cards. apply filter_all. unfold displayVideos.
  destruct videos as [|v vs]; [done|].
  destruct (length (v :: vs) <? 5)%nat; by rewrite !Forall_app.
Qed.

(** A forward reset of [animate] takes exactly one third of the content
    width off the offset the frame has advanced to. *)
Lemma animate_forward_reset (container : Container) (speed : Q) :
  (0 < speed)%Q → (0 < scrollWidth container)%Q →
  (scrollWidth container / 3 * 2
   <= scrollLeft (advanced speed container))%Q →
  (scrollLeft (animate false speed container)
   == scrollLeft (advanced speed container) - scrollWidth container / 3)%Q.
Proof.
  intros Hspeed Hsw Hwrap. unfold animate. fold (advanced speed container).
  set (before := advanced speed container) in *.
  assert (scrollWidth before = scrollWidth container) as Hsb by done.
  assert (clientWidth before = clientWidth container) as Hcb by done.
  rewrite Hsb.
  set (third := (scrollWidth container / 3)%Q) in *.
  assert (third * 3 == scrollWidth container)%Q as Hthird
    by (subst third; field).
  assert (scrollLeft before
          == Qmax 0 (Qmin (scrollLeft container + speed)
                       (scrollWidth container - clientWidth container)))%Q
    as Hbefore by done.
  clearbody third before.
  destruct (decide (0 < scrollWidth container)%Q) as [_|Hn]; [|done].
  destruct (decide ((0 < speed)%Q ∧ (third * 2 <= scrollLeft before)%Q))
    as [_|Hn]; [|by destruct Hn].
  unfold setScrollLeft. cbn [scrollLeft]. rewrite Hsb, Hcb.
  assert (0 <= scrollWidth container - clientWidth container)%Q as Hroom.
  { destruct (Qlt_le_dec (scrollWidth container - clientWidth container) 0)
      as [Hneg|]; [|done].
    rewrite Q.max_l in Hbefore; [lra|].
    eapply Qle_trans; [apply Q.le_min_r|lra]. }
  assert (scrollLeft before
          <= scrollWidth container - clientWidth container)%Q as Hmax.
  { rewrite Hbefore. apply Q.max_lub; [lra|apply Q.le_min_r]. }
  rewrite Q.max_r, Q.min_l; [reflexivity|lra|].
  apply Q.min_glb; lra.
Qed.

(** X2. With five items or more a forward reset of [animate] moves the
    picture: a third of the content is one source list and a third of what
    the padding of both ends exceeds one gap by, so after the reset the
    strip shows at a place what it showed that much further left before.
    With the classes of the strip ([gap-3 px-6]) the picture jumps by 12
    pixels; it stays where it is only on a strip whose gap is twice its
    padding. *)
Theorem tripled_wrap_shifts_the_strip (strip : Strip) (videos : list Video)
    (viewport offset speed t : Q) :
  5 ≤ length videos → Forall (λ item, video_url item ≠ "") videos →
  (0 < itemWidth strip)%Q → (0 <= gap strip)%Q → (0 <= padding strip)%Q →
  (0 < speed)%Q →
  (scrollWidth (mounted strip videos viewport offset) / 3 * 2
   <= scrollLeft (advanced speed (mounted strip videos viewport offset)))%Q →
  (padding strip
   <= scrollLeft (animate false speed
                    (mounted strip videos viewport offset)) + t)%Q →
  (scrollLeft (animate false speed (mounted strip videos viewport offset))
   + t
   < padding strip
     + 2 * (inject_Z (Z.of_nat (length videos)) * stride strip))%Q →
  (scrollLeft (advanced speed (mounted strip videos viewport offset))
   - scrollLeft (animate false speed (mounted strip videos viewport offset))
   == inject_Z (Z.of_nat (length videos)) * stride strip
      + (2 * padding strip - gap strip) / 3)%Q ∧
  rendered strip (cards videos)
    (animate false speed (mounted strip videos viewport offset)) t
  = rendered strip (cards videos)
      (advanced speed (mounted strip videos viewport offset))
      (t - (2 * padding strip - gap strip) / 3).
Proof.
  intros Hlen Hurl Hw Hg Hp Hspeed.
  pose proof (cards_all_playable videos Hurl) as Hall.
  assert (cards videos = videos ++ videos ++ videos) as Hcards.
  { rewrite Hall. unfold displayVideos.
    destruct videos as [|v vs]; [simpl in Hlen; lia|].
    destruct (length (v :: vs) <? 5)%nat eqn:E;
      [apply Nat.ltb_lt in E; lia|done]. }
  set (container := mounted strip videos viewport offset).
  set (period := (inject_Z (Z.of_nat (length videos)) * stride strip)%Q).
  set (shift := ((2 * padding strip - gap strip) / 3)%Q).
  assert (scrollWidth container / 3 == period + shift)%Q as Hsw.
  { subst container period shift. unfold mounted. cbn [scrollWidth].
    rewrite Hall. by apply tripled_third. }
  assert (0 < stride strip)%Q as Hstride by (unfold stride; lra).
  assert (5 <= inject_Z (Z.of_nat (length videos)))%Q as Hfive.
  { rewrite <- (Zle_Qle 5). lia. }
  assert (5 * stride strip <= period)%Q as Hperiod.
  { subst period. apply Qmult_le_compat_r; lra. }
  assert (shift * 3 == 2 * padding strip - gap strip)%Q as Hshift
    by (subst shift; field).
  assert (0 < scrollWidth container)%Q as Hpos.
  { assert (scrollWidth container == scrollWidth container / 3 * 3)%Q as ->
      by field. rewrite Hsw. unfold stride in *. lra. }
  intros Hwrap Hlow Hhigh. fold period in Hhigh.
  pose proof (animate_forward_reset container speed Hspeed Hpos Hwrap)
    as Hafter.
  rewrite Hsw in Hafter.
  unfold rendered. rewrite Hcards.
  set (before := scrollLeft (advanced speed container)) in *.
  set (after := scrollLeft (animate false speed container)) in *.
  clearbody shift before after.
  split; [lra|].
  rewrite <- (shownAt_one_source_on strip videos (after + t)%Q)
    by (fold period; lra).
  apply shownAt_comp. fold period. lra.
Qed.

Lemma tripled_wrap_shifts_the_strip_witness :
  rendered shortsStrip (cards fiveShorts) (animate false 0.8 fiveBeforeWrap)
    20
  = rendered shortsStrip (cards fiveShorts) (advanced 0.8 fiveBeforeWrap)
      (20 - (2 * padding shortsStrip - gap shortsStrip) / 3).
Proof.
  apply (tripled_wrap_shifts_the_strip shortsStrip fiveShorts 390
           (11035 # 10) 0.8 20).
  all: try by vm_compute.
  apply (bool_decide_unpack _). by vm_compute.
Defined.

(** On the strip with gap and padding a third of the content is one source
    list and 12 pixels (the padding of both ends less one gap, divided by
    three): after the reset the strip shows 12 pixels further to the right
    what it showed before. *)
Lemma tripled_list_wrap_is_off_by_the_padding :
  (scrollLeft (advanced 0.8 fiveBeforeWrap)
   - scrollLeft (animate false 0.8 fiveBeforeWrap)
   == scrollWidth fiveBeforeWrap / 3)%Q ∧
  rendered shortsStrip (cards fiveShorts)
    (advanced 0.8 fiveBeforeWrap) 0 = (Some (short "a"), 0.3%Q) ∧
  rendered shortsStrip (cards fiveShorts)
    (animate false 0.8 fiveBeforeWrap) 0 = (Some (short "e"), 96.3%Q) ∧
  rendered shortsStrip (cards fiveShorts)
    (animate false 0.8 fiveBeforeWrap) 12 = (Some (short "a"), 0.3%Q).
Proof. split; [|split; [|split]]; by vm_compute. Qed.

(** ** The preview cache: eviction *)

Lemma keys_filter_other (url : string) (cache : Cache) :
  url ∉ keys cache → filter (λ e, e.1 ≠ url) cache = cache.
Proof.
  intros Hn. apply filter_all, Forall_forall. intros e He <-.
  apply Hn. unfold keys. by apply list_elem_of_fmap_2.
Qed.

Lemma cache_delete_eq (url : string) (cache : Cache) :
  cache_delete url cache
  = (Fulfilled (bool_decide (url ∈ keys cache)),
     filter (λ e, e.1 ≠ url) cache).
Proof. done. Qed.

Lemma deleteEach_oldest (n : nat) :
  ∀ cache : Cache,
    NoDup (keys cache) →
    deleteEach (take n (keys cache)) cache = (Fulfilled tt, drop n cache).
Proof.
  induction n as [|n IH]; intros cache Hnd; [done|].
  destruct cache as [|e cache]; [done|].
  unfold keys in *. rewrite fmap_cons in *. cbn [take drop deleteEach].
  apply NoDup_cons in Hnd as [He Hnd].
  unfold andThen. rewrite cache_delete_eq.
  rewrite filter_cons_False by (intros Hne; by apply Hne).
  rewrite keys_filter_other by done. by apply IH.
Qed.

(** C9. On a store whose entries have pairwise distinct URLs the maintenance
    pass returns normally; it leaves a store of 50 or fewer entries as it
    is, and cuts a store of more than 50 down to its 20 youngest entries,
    deleting from the oldest on.  After the pass the store holds at most 50
    entries.  Looking an entry up does not change its place in the store. *)
Theorem cleanUp_keeps_the_youngest (cache : Cache) :
  NoDup (keys cache) →
  ∃ cache',
    cleanUpOldCache cache = (Fulfilled tt, cache') ∧
    (length cache ≤ 50 → cache' = cache) ∧
    (50 < length cache →
       cache' = drop (length cache - 20) cache ∧ length cache' = 20) ∧
    length cache' ≤ 50 ∧
    ∀ url, (cache_match url cache).2 = cache.
Proof.
  intros Hnd. unfold cleanUpOldCache, tryCatch, andThen, cache_keys.
  cbn [fst snd].
  assert (length (keys cache) = length cache) as Hk
    by (unfold keys; apply length_fmap).
  rewrite Hk.
  destruct (50 <? length cache)%nat eqn:Hlt.
  - apply Nat.ltb_lt in Hlt.
    rewrite deleteEach_oldest by done.
    exists (drop (length cache - 20) cache).
    assert (length (drop (length cache - 20) cache) = 20) as Hl
      by (rewrite length_drop; lia).
    split; [done|]. split; [lia|]. split; [done|]. split; [lia|done].
  - apply Nat.ltb_ge in Hlt. exists cache. unfold resolve.
    split; [done|]. split; [done|]. split; [lia|]. split; [lia|done].
Qed.

Lemma cleanUp_keeps_the_youngest_witness :
  ∃ cache',
    cleanUpOldCache fullStore = (Fulfilled tt, cache') ∧
    (length fullStore ≤ 50 → cache' = fullStore) ∧
    (50 < length fullStore →
       cache' = drop (length fullStore - 20) fullStore ∧
       length cache' = 20) ∧
    length cache' ≤ 50 ∧
    ∀ url, (cache_match url fullStore).2 = fullStore.
Proof.
  apply (cleanUp_keeps_the_youngest fullStore).
  apply (bool_decide_unpack _). vm_compute. exact I.
Defined.

(** The pass on the store of 51 entries: the 31 oldest go. *)
Lemma cleanUp_full_store :
  keys (cleanUpOldCache fullStore).2 = drop 31 (keys fullStore).
Proof. by vm_compute. Qed.

(** ** The preview cache: one request after the other *)

Lemma cache_match_found (url : string) (cache : Cache) :
  (url ∈ keys cache →
     ∃ response, cache_match url cache = (Fulfilled (Some response), cache)) ∧
  (url ∉ keys cache → cache_match url cache = (Fulfilled None, cache)).
Proof.
  unfold cache_match.
  destruct (list_find (λ e, e.1 = url) cache) as [[i e]|] eqn:Hf.
  - split; [intros _; by eexists|].
    intros Hn. apply list_find_Some in Hf as (Hi & <- & _).
    destruct Hn. unfold keys. apply list_elem_of_fmap_2.
    by eapply list_elem_of_lookup_2.
  - split; [|done]. intros Hin. apply list_find_None in Hf.
    unfold keys in Hin. apply list_elem_of_fmap in Hin as (e & -> & He).
    rewrite Forall_forall in Hf. by destruct (Hf e He).
Qed.

Lemma keys_after_put (url u : string) (response : Response) (cache : Cache) :
  u ∈ keys (filter (λ e, e.1 ≠ url) cache ++ [(url, response)])
  ↔ u ∈ keys cache ∨ u = url.
Proof.
  unfold keys. rewrite fmap_app, elem_of_app, !list_elem_of_fmap.
  setoid_rewrite list_elem_of_filter. setoid_rewrite list_elem_of_singleton.
  split.
  - intros [(e & -> & _ & He)|(e & -> & ->)]; [left; by exists e|by right].
  - intros [(e & -> & He)| ->].
    + destruct (decide (e.1 = url)) as [<-|Hne].
      * right. by exists (e.1, response).
      * left. by exists e.
    + right. by exists (url, response).
Qed.

(** One request: it never throws, and it adds its URL to the store exactly
    when it succeeds. *)
Lemma preloadVideoChunk_settles (world : World) (url : string)
    (cache : Cache) :
  ∃ result cache',
    preloadVideoChunk world url cache = (Fulfilled result, cache') ∧
    ∀ u, u ∈ keys cache' ↔ u ∈ keys cache ∨ (u = url ∧ succeeds world url).
Proof.
  unfold preloadVideoChunk, succeeds.
  destruct (notHttp url) eqn:Hh.
  { exists false, cache. split; [done|]. intros u.
    split; [by left|]. by intros [?|[_ [? _]]]. }
  unfold tryCatch, andThen.
  destruct (cache_match_found url cache) as [Hhit Hmiss].
  destruct (decide (url ∈ keys cache)) as [Hin|Hout].
  { destruct (Hhit Hin) as [r ->]. exists true, cache.
    split; [done|]. intros u. split; [by left|].
    by intros [?|[-> _]]. }
  rewrite (Hmiss Hout). unfold fetch.
  destruct (network world url) as [response|] eqn:Hn.
  2:{ exists false, cache. split; [done|]. intros u.
      split; [by left|]. intros [?|[_ [_ (r & ? & _)]]]; [done|congruence]. }
  unfold resolve at 1.
  destruct (ok response || (status response =? 206)%Z) eqn:Hok.
  2:{ exists false, cache. split; [done|]. intros u.
      split; [by left|].
      intros [?|[_ [_ (r & Hr & Hk & _)]]]; [done|]. congruence. }
  unfold cache_put. destruct (status response =? 206)%Z eqn:Hpart.
  { apply Z.eqb_eq in Hpart. exists false, cache. split; [done|]. intros u.
    split; [by left|].
    intros [?|[_ [_ (r & Hr & _ & ? & _)]]]; [done|]. congruence. }
  apply Z.eqb_neq in Hpart.
  destruct (storeAccepts world url) eqn:Ha.
  2:{ exists false, cache. split; [done|]. intros u.
      split; [by left|].
      intros [?|[_ [_ (r & _ & _ & _ & ?)]]]; [done|]. congruence. }
  exists true, (filter (λ e, e.1 ≠ url) cache ++ [(url, response)]).
  split; [done|]. intros u. rewrite keys_after_put.
  split; [|intros [?|[? _]]; [by left|by right]].
  intros [?| ->]; [by left|]. right. split; [done|]. split; [done|].
  exists response. by rewrite (proj2 (Z.eqb_neq _ _) Hpart).
Qed.

(** The requests of a batch: every one settles, and the store gains the URLs
    of those that succeed. *)
Lemma allSettled_preloads (world : World) (queue : list Video) :
  ∀ cache : Cache,
    ∃ outcomes cache',
      allSettled
        ((λ video,
            if bool_decide (video_url video ≠ "")
            then preloadVideoChunk world (video_url video)
            else resolve false) <$> queue) cache
      = (Fulfilled outcomes, cache') ∧
      ∀ u, u ∈ keys cache' ↔
           u ∈ keys cache ∨
           ∃ v, v ∈ queue ∧ video_url v = u ∧ succeeds world u.
Proof.
  induction queue as [|video queue IH]; intros cache.
  { exists [], cache. split; [done|]. intros u. split; [by left|].
    intros [?|(v & Hv & _)]; [done|]. by inversion Hv. }
  rewrite fmap_cons. cbn [allSettled].
  assert (∃ result cache1,
    (if bool_decide (video_url video ≠ "")
     then preloadVideoChunk world (video_url video)
     else resolve false) cache = (Fulfilled result, cache1) ∧
    ∀ u, u ∈ keys cache1 ↔
         u ∈ keys cache ∨ (u = video_url video ∧ succeeds world u))
    as (result & cache1 & -> & H1).
  { destruct (bool_decide (video_url video ≠ "")) eqn:He.
    - destruct (preloadVideoChunk_settles world (video_url video) cache)
        as (result & cache1 & E & H1).
      exists result, cache1. split; [done|]. intros u. rewrite H1.
      split; (intros [?|[-> ?]]; [by left|by right]).
    - exists false, cache. split; [done|]. intros u. split; [by left|].
      intros [?|[-> [Hh _]]]; [done|].
      apply bool_decide_eq_false in He.
      unfold notHttp in Hh. apply orb_false_iff in Hh as [Hh _].
      apply bool_decide_eq_false in Hh. by destruct He. }
  destruct (IH cache1) as (outcomes & cache' & E & H2).
  unfold andThen. rewrite E. unfold resolve.
  exists (Fulfilled result :: outcomes), cache'. split; [done|].
  intros u. rewrite H2, H1. split.
  - intros [[?|[-> Hs]]|(v & Hv & <- & Hs)]; [by left|..].
    + right. exists video. split; [left|done].
    + right. exists v. split; [by right|done].
  - intros [?|(v & Hv & <- & Hs)]; [by left; left|].
    apply elem_of_cons in Hv as [->|Hv].
    + left. by right.
    + right. by exists v.
Qed.

(** X3. A request for a URL the store already holds returns [true] and
    leaves the store as it is, whatever the network would answer and whether
    or not the store would accept a write. *)
Lemma warm_hit_is_idle (world : World) (url : string) (cache : Cache) :
  notHttp url = false → url ∈ keys cache →
  preloadVideoChunk world url cache = (Fulfilled true, cache).
Proof.
  intros Hh Hin. unfold preloadVideoChunk, tryCatch, andThen. rewrite Hh.
  destruct (cache_match_found url cache) as [Hhit _].
  by destruct (Hhit Hin) as [r ->].
Qed.

Lemma warm_hit_is_idle_witness :
  preloadVideoChunk thirdFails (video_url (short "v3"))
    [(video_url (short "v3"), whole)]
  = (Fulfilled true, [(video_url (short "v3"), whole)]).
Proof.
  apply (warm_hit_is_idle thirdFails (video_url (short "v3"))
           [(video_url (short "v3"), whole)]).
  - by vm_compute.
  - apply (bool_decide_unpack _). by vm_compute.
Defined.

(** ** The preview cache: one entry per URL *)

(** The store holds one entry per URL, and the cache code keeps it so: the
    assumption under which the eviction is stated holds of every store the
    program builds from an empty one. *)
Lemma cache_put_keeps_distinct (world : World) (url : string)
    (response : Response) (cache : Cache) :
  NoDup (keys cache) → NoDup (keys (cache_put world url response cache).2).
Proof.
  intros Hnd. unfold cache_put.
  destruct (status response =? 206)%Z; [done|].
  destruct (storeAccepts world url); [|done]. cbn [snd].
  unfold keys in *. rewrite fmap_app. apply NoDup_app. split; [|split].
  - eapply submseteq_NoDup; [|exact Hnd].
    apply fmap_submseteq, sublist_submseteq, sublist_filter.
  - intros u Hu Hin. change (u ∈ [url]) in Hin.
    apply list_elem_of_singleton in Hin as ->.
    apply list_elem_of_fmap in Hu as (e & Heq & He).
    apply list_elem_of_filter in He as [Hne _]. by destruct Hne.
  - change (NoDup [url]). apply NoDup_singleton.
Qed.

Lemma preloadVideoChunk_keeps_distinct (world : World) (url : string)
    (cache : Cache) :
  NoDup (keys cache) → NoDup (keys (preloadVideoChunk world url cache).2).
Proof.
  intros Hnd. unfold preloadVideoChunk.
  destruct (notHttp url); [done|]. unfold tryCatch, andThen.
  destruct (cache_match_found url cache) as [Hhit Hmiss].
  destruct (decide (url ∈ keys cache)) as [Hin|Hout].
  { by destruct (Hhit Hin) as [r ->]. }
  rewrite (Hmiss Hout). unfold fetch.
  destruct (network world url) as [response|]; unfold resolve, throw;
    [|done].
  destruct (ok response || (status response =? 206)%Z); [|done].
  pose proof (cache_put_keeps_distinct world url response cache Hnd) as Hp.
  by destruct (cache_put world url response cache) as [[[]|] cache'].
Qed.

Lemma allSettled_keeps_distinct (world : World) (queue : list Video) :
  ∀ cache : Cache,
    NoDup (keys cache) →
    NoDup (keys
      (allSettled
         ((λ video,
             if bool_decide (video_url video ≠ "")
             then preloadVideoChunk world (video_url video)
             else resolve false) <$> queue) cache).2).
Proof.
  induction queue as [|video queue IH]; intros cache Hnd; [done|].
  rewrite fmap_cons. cbn [allSettled].
  assert (NoDup (keys
    ((if bool_decide (video_url video ≠ "")
      then preloadVideoChunk world (video_url video)
      else resolve false) cache).2)) as Hnd1.
  { destruct (bool_decide (video_url video ≠ "")); [|done].
    by apply preloadVideoChunk_keeps_distinct. }
  destruct ((if bool_decide (video_url video ≠ "")
             then preloadVideoChunk world (video_url video)
             else resolve false) cache) as [outcome cache1].
  cbn [snd] in Hnd1. specialize (IH cache1 Hnd1). unfold andThen.
  by destruct (allSettled _ cache1) as [[outcomes|] cache2].
Qed.

Lemma initSmartBuffering_keeps_distinct (world : World)
    (videos : list Video) (cache : Cache) :
  NoDup (keys cache) → NoDup (keys (initSmartBuffering world videos cache).2).
Proof.
  intros Hnd. unfold initSmartBuffering.
  destruct (negb (onLine world) || bool_decide (videos = [])); [done|].
  pose proof (allSettled_keeps_distinct world (take 5 videos) cache Hnd)
    as Hall.
  unfold andThen. by destruct (allSettled _ cache) as [[outcomes|] cache'].
Qed.

Lemma cleanUpOldCache_keeps_distinct (cache : Cache) :
  NoDup (keys cache) → NoDup (keys (cleanUpOldCache cache).2).
Proof.
  intros Hnd. unfold cleanUpOldCache, tryCatch, andThen, cache_keys.
  destruct (50 <? length (keys cache))%nat; [|done].
  rewrite deleteEach_oldest by done. cbn [snd].
  eapply submseteq_NoDup; [|exact Hnd].
  apply fmap_submseteq, sublist_submseteq, sublist_drop.
Qed.

(** ** The preview cache: the requests in any order of their steps *)



Section Interleaving.
Variables (world : World) (queue : list Video) (cache0 : Cache).


End Interleaving.




(** A request that takes its four steps undisturbed is one call of
    [preloadVideoChunk]. *)
Lemma request_alone_is_preloadVideoChunk (world : World) (url : string)
    (cache : Cache) :
  notHttp url = false →
  ∃ result cache',
    interleave world [0; 0; 0; 0] [AtOpen url] cache
      = ([Returned result], cache') ∧
    preloadVideoChunk world url cache = (Fulfilled result, cache').
Proof.
  intros Hh. unfold preloadVideoChunk, tryCatch, andThen. rewrite Hh.
  cbn [interleave lookup list_lookup stepRequest insert list_insert].
  destruct (cache_match_found url cache) as [Hhit Hmiss].
  destruct (decide (url ∈ keys cache)) as [Hin|Hout].
  { destruct (Hhit Hin) as [r ->]. by exists true, cache. }
  rewrite (Hmiss Hout).
  cbn [insert list_insert lookup list_lookup stepRequest].
  unfold fetch.
  destruct (network world url) as [response|]; unfold resolve, throw;
    [|by exists false, cache].
  destruct (ok response || (status response =? 206)%Z);
    cbn [insert list_insert lookup list_lookup stepRequest];
    [|by exists false, cache].
  unfold cache_put. destruct (status response =? 206)%Z;
    [by exists false, cache|].
  destruct (storeAccepts world url).
  - by exists true, (filter (λ e, e.1 ≠ url) cache ++ [(url, response)]).
  - by exists false, cache.
Qed.

(** Every step brings a request closer to its return, so a schedule that
    gives each request four turns lets all of them return. *)
Lemma stepRequest_advances (world : World) (request : Request)
    (cache : Cache) :
  awaitsLeft (stepRequest world request cache).1 ≤ awaitsLeft request - 1.
Proof.
  destruct request as [url|url|url|url response|result]; unfold stepRequest.
  - simpl; lia.
  - destruct (cache_match url cache) as [[[r|]|] c]; simpl; lia.
  - destruct (fetch world url cache) as [[response|] c]; [|simpl; lia].
    destruct (ok response || (status response =? 206)%Z); simpl; lia.
  - destruct (cache_put world url response cache) as [[u|] c]; simpl; lia.
  - simpl; lia.
Qed.

Lemma interleave_advances (world : World) (schedule : list nat) :
  ∀ (requests : list Request) (cache : Cache) (i : nat) (request' : Request),
    (interleave world schedule requests cache).1 !! i = Some request' →
    ∃ request,
      requests !! i = Some request ∧
      awaitsLeft request'
      ≤ awaitsLeft request - length (filter (λ j, j = i) schedule).
Proof.
  induction schedule as [|j schedule IH]; intros requests cache i request' Hi.
  { exists request'. split; [done|]. simpl. lia. }
  cbn [interleave] in Hi. rewrite filter_cons.
  destruct (requests !! j) as [rj|] eqn:Hj.
  - pose proof (stepRequest_advances world rj cache) as Hadv.
    destruct (stepRequest world rj cache) as [rj' cache'].
    cbn [fst] in Hadv.
    destruct (IH _ _ _ _ Hi) as (r1 & Hr1 & Hle).
    destruct (decide (j = i)) as [->|Hne].
    + rewrite list_lookup_insert_eq in Hr1
        by (by eapply lookup_lt_Some).
      injection Hr1 as <-. exists rj. split; [done|]. simpl. lia.
    + rewrite list_lookup_insert_ne in Hr1 by done.
      exists r1. split; [done|lia].
  - destruct (IH _ _ _ _ Hi) as (r1 & Hr1 & Hle).
    exists r1. split; [done|].
    destruct (decide (j = i)) as [->|Hne]; [congruence|lia].
Qed.

Lemma four_rounds_settle (world : World) (requests : list Request)
    (cache : Cache) :
  Forall hasReturned
    (interleave world (fourRounds (length requests)) requests cache).1.
Proof.
  apply Forall_lookup. intros i request' Hi.
  destruct (interleave_advances world _ _ _ _ _ Hi) as (request & Hr & Hle).
  assert (i < length requests) as Hlt by (by eapply lookup_lt_Some).
  assert (length (filter (λ j, j = i) (seq 0 (length requests))) = 1)
    as Hone.
  { generalize (length requests) Hlt. clear. intros n.
    induction n as [|n IH]; intros Hlt; [lia|].
    rewrite seq_S, filter_app, length_app. simpl.
    rewrite filter_cons, filter_nil.
    destruct (decide (n = i)) as [->|Hne]; simpl.
    - assert (filter (λ j, j = i) (seq 0 i) = []) as ->; [|done].
      apply length_zero_iff_nil. clear.
      assert (∀ a, i ≤ a → filter (λ j, j = a) (seq 0 i) = []) as H.
      { induction i as [|i IH]; intros a Ha; [done|].
        rewrite seq_S, filter_app, IH by lia. simpl.
        rewrite filter_cons_False by lia. done. }
      by rewrite H.
    - rewrite IH by lia. done. }
  unfold fourRounds in Hle. rewrite !filter_app, !length_app, Hone in Hle.
  assert (awaitsLeft request ≤ 4) by (destruct request; simpl; lia).
  destruct request'; simpl in Hle; (done || lia).
Qed.

(** A schedule under which the requests for [fiveVideos] overlap: all of
    them return, and the store holds the first, second, fourth and fifth
    URL, the first one stored last. *)
Lemma overlapping_requests_settle :
  Forall hasReturned
    (interleave thirdFails backwards (started thirdFails fiveVideos) []).1 ∧
  keys (interleave thirdFails backwards (started thirdFails fiveVideos) []).2
  = [video_url (short "v5"); video_url (short "v4");
     video_url (short "v2"); video_url (short "v1")].
Proof. split; [|by vm_compute]. vm_compute. repeat constructor. Qed.

(** ** The preview cache: warming *)



(** The run itself: the third request fails, the others are stored in
    order. *)
Lemma warm_third_fails :
  (initSmartBuffering thirdFails fiveVideos []).1 = Fulfilled tt ∧
  keys (initSmartBuffering thirdFails fiveVideos []).2
  = [video_url (short "v1"); video_url (short "v2");
     video_url (short "v4"); video_url (short "v5")].
Proof. split; by vm_compute. Qed.

(* ===================================================================== *)
(** * Part III: the code around the engine                                *)
(* ===================================================================== *)

(** ** The user's interactions *)

Lemma Set_add_spec (set : list string) (x : string) :
  NoDup set →
  NoDup (Set_add set x) ∧ ∀ y, y ∈ Set_add set x ↔ y ∈ set ∨ y = x.
Proof.
  intros Hnd. unfold Set_add, includes.
  destruct (bool_decide_reflect (x ∈ set)) as [Hin|Hout].
  - split; [done|]. intros y. split; [by left|]. by intros [?| ->].
  - split.
    + apply NoDup_app. split; [done|]. split; [|apply NoDup_singleton].
      intros y Hy ->%list_elem_of_singleton. done.
    + intros y. rewrite elem_of_app, list_elem_of_singleton. done.
Qed.

Lemma foldl_Set_add (arr set : list string) :
  NoDup set →
  NoDup (foldl Set_add set arr) ∧
  (∀ y, y ∈ foldl Set_add set arr ↔ y ∈ set ∨ y ∈ arr) ∧
  (NoDup (set ++ arr) → foldl Set_add set arr = set ++ arr).
Proof.
  revert set. induction arr as [|x arr IH]; intros set Hnd; simpl.
  - split; [done|]. split.
    + intros y. rewrite elem_of_nil. naive_solver.
    + by rewrite app_nil_r.
  - destruct (Set_add_spec set x Hnd) as [Hnd' Hin'].
    destruct (IH _ Hnd') as (H1 & H2 & H3).
    split; [done|]. split.
    + intros y. rewrite H2, Hin', elem_of_cons. naive_solver.
    + intros Hall.
      assert (Set_add set x = set ++ [x]) as E.
      { unfold Set_add, includes.
        destruct (bool_decide_reflect (x ∈ set)) as [Hin|]; [|done].
        apply NoDup_app in Hall as (_ & Hd & _).
        destruct (Hd x Hin). by left. }
      rewrite E in *. rewrite H3; [by rewrite <- app_assoc|].
      by rewrite <- app_assoc.
Qed.

(** [new Set] lists each element once, and leaves a list without repeats as
    it is. *)
Lemma new_Set_spec (arr : list string) :
  NoDup (new_Set arr) ∧ (∀ y, y ∈ new_Set arr ↔ y ∈ arr) ∧
  (NoDup arr → new_Set arr = arr).
Proof.
  destruct (foldl_Set_add arr [] (NoDup_nil_2)) as (H1 & H2 & H3).
  split; [done|]. split; [|done].
  intros y. unfold new_Set. rewrite H2, elem_of_nil. naive_solver.
Qed.

Lemma filter_absent (x : string) (l : list string) :
  x ∉ l → filter (λ y, y ≠ x) l = l.
Proof.
  intros Hx. apply filter_all, Forall_forall. by intros y Hy ->.
Qed.

Lemma history_without (videoId : string) (history : list WatchEntry) :
  NoDup (watched <$> history) →
  NoDup (watched <$> filter (λ h, watched h ≠ videoId) history) ∧
  videoId ∉ watched <$> filter (λ h, watched h ≠ videoId) history.
Proof.
  intros Hnd. split.
  - eapply sublist_NoDup; [exact Hnd|].
    apply fmap_sublist, sublist_filter.
  - intros (h & -> & Hh%list_elem_of_filter)%list_elem_of_fmap.
    by destruct Hh.
Qed.

Lemma interact_consistent (p : UserInteractions) (action : Interaction) :
  consistent p → consistent (interact p action).
Proof.
  intros (Hl & Hd & Hld & Hh).
  destruct action as [x|x|x|x q]; unfold consistent; simpl.
  - unfold handleLikeToggle, includes.
    destruct (bool_decide_reflect (x ∈ likedIds p)) as [Hin|Hout]; simpl.
    + split; [by apply NoDup_filter|]. split; [done|]. split; [|done].
      intros y Hy%list_elem_of_filter. apply Hld, Hy.
    + split.
      { apply NoDup_app. split; [done|]. split; [|apply NoDup_singleton].
        by intros y Hy ->%list_elem_of_singleton. }
      split; [by apply NoDup_filter|]. split; [|done].
      intros y [Hy| ->%list_elem_of_singleton]%elem_of_app
        Hy'%list_elem_of_filter.
      * by apply (Hld y), Hy'.
      * by destruct Hy'.
  - destruct (new_Set_spec (dislikedIds p ++ [x])) as (H1 & H2 & _).
    split; [by apply NoDup_filter|]. split; [done|]. split; [|done].
    intros y [Hne Hy]%list_elem_of_filter.
    rewrite H2, elem_of_app, list_elem_of_singleton.
    intros [Hy'|?]; [|done]. by apply (Hld y).
  - split; [done|]. split; [by apply NoDup_filter|]. split; [|done].
    intros y Hy Hy'%list_elem_of_filter. by apply (Hld y), Hy'.
  - split; [done|]. split; [done|]. split; [done|].
    destruct (history_without x (watchHistory p) Hh) as [H1 H2].
    rewrite fmap_app. simpl. apply NoDup_app. split; [done|].
    split; [|apply NoDup_singleton].
    by intros y Hy ->%list_elem_of_singleton.
Qed.

(** X4. Whatever the user does, in whatever order - like or unlike,
    dislike, restore, report progress - an interaction state in which no id
    is listed twice, no id is both liked and disliked and the watch history
    has one entry for an id stays such a state. *)
Theorem interactions_stay_consistent (p : UserInteractions)
    (actions : list Interaction) :
  consistent p → consistent (foldl interact p actions).
Proof.
  revert p. induction actions as [|action actions IH]; intros p Hp; simpl;
    [done|].
  by apply IH, interact_consistent.
Qed.

Lemma interactions_stay_consistent_witness :
  consistent
    (foldl interact noInteractions
       [Like "a"; Progress "a" 0.5; Dislike "a"; Progress "a" 0.9;
        Restore "a"; Like "b"; Like "b"]).
Proof.
  apply (interactions_stay_consistent noInteractions).
  repeat split; simpl; try apply NoDup_nil_2. intros x Hx.
  by apply elem_of_nil in Hx.
Defined.

(** X5. Liking a video that is not liked and unliking it again gives the
    state a restore of that video gives: the liked list and the watch
    history are as before and the video is not disliked.  If it was not
    disliked, the state is the one before. *)
Theorem like_then_unlike (videoId : string) (p : UserInteractions) :
  videoId ∉ likedIds p →
  handleLikeToggle videoId (handleLikeToggle videoId p)
  = onRestore videoId p ∧
  (videoId ∉ dislikedIds p →
   handleLikeToggle videoId (handleLikeToggle videoId p) = p).
Proof.
  intros Hout.
  assert (handleLikeToggle videoId (handleLikeToggle videoId p)
          = onRestore videoId p) as E.
  { unfold handleLikeToggle at 2. unfold includes.
    rewrite bool_decide_eq_false_2 by done.
    unfold handleLikeToggle, includes. cbn [likedIds dislikedIds watchHistory].
    rewrite bool_decide_eq_true_2
      by (apply elem_of_app; right; by apply list_elem_of_singleton).
    unfold onRestore. f_equal.
    rewrite filter_app, filter_absent by done.
    rewrite filter_cons_False by (by intros H; apply H).
    by rewrite filter_nil, app_nil_r. }
  split; [done|].
  intros Hd. rewrite E. unfold onRestore. rewrite filter_absent by done.
  by destruct p.
Qed.

Lemma like_then_unlike_witness :
  handleLikeToggle "a"
    (handleLikeToggle "a"
       {| likedIds := ["b"]; dislikedIds := ["a"; "c"];
          watchHistory := [] |})
  = {| likedIds := ["b"]; dislikedIds := ["c"]; watchHistory := [] |}.
Proof.
  refine (proj1 (like_then_unlike "a"
    {| likedIds := ["b"]; dislikedIds := ["a"; "c"]; watchHistory := [] |}
    _)).
  apply (bool_decide_unpack _). by vm_compute.
Defined.

Lemma seenIds_elem (x : string) (p : UserInteractions) :
  x ∈ seenIds p ↔
  x ∈ likedIds p ∨ x ∈ dislikedIds p ∨
  ∃ h, h ∈ watchHistory p ∧ watched h = x ∧ (0.1 < progress h)%Q.
Proof.
  unfold seenIds. rewrite elem_of_list_to_set, !elem_of_app, list_elem_of_fmap.
  split.
  - intros [?|[?|(h & -> & Hh%list_elem_of_filter)]]; [by left|by right; left|].
    right; right. exists h. naive_solver.
  - intros [?|[?|(h & Hh & <- & Hp)]]; [by left|by right; left|].
    right; right. exists h. split; [done|]. by apply list_elem_of_filter.
Qed.

(** X6. For the ranker the latest report of progress decides: after
    [onProgress(id, progress)] the video counts as seen exactly if the
    reported progress exceeds 0.1 or the video is liked or disliked,
    whatever was reported for it before; for every other video nothing
    changes. *)
Theorem latest_progress_decides (videoId : string) (fraction : Q)
    (p : UserInteractions) :
  (videoId ∈ seenIds (onProgress videoId fraction p) ↔
     (0.1 < fraction)%Q ∨ videoId ∈ likedIds p ∨ videoId ∈ dislikedIds p) ∧
  (∀ other, other ≠ videoId →
     other ∈ seenIds (onProgress videoId fraction p) ↔ other ∈ seenIds p).
Proof.
  split.
  - rewrite seenIds_elem. unfold onProgress.
    cbn [likedIds dislikedIds watchHistory]. split.
    + intros [?|[?|(h & Hh & Hw & Hp)]]; [by right; left|by right; right|].
      apply elem_of_app in Hh as [Hh%list_elem_of_filter|Hh].
      * by destruct Hh.
      * apply list_elem_of_singleton in Hh as ->. by left.
    + intros [Hp|[?|?]]; [|by left|by right; left].
      right; right. exists {| watched := videoId; progress := fraction |}.
      split; [|done]. apply elem_of_app. right.
      by apply list_elem_of_singleton.
  - intros other Hne. rewrite !seenIds_elem. unfold onProgress.
    cbn [likedIds dislikedIds watchHistory]. split.
    + intros [?|[?|(h & Hh & Hw & Hp)]]; [by left|by right; left|].
      right; right. exists h.
      apply elem_of_app in Hh as [Hh%list_elem_of_filter|Hh].
      * naive_solver.
      * apply list_elem_of_singleton in Hh as ->. done.
    + intros [?|[?|(h & Hh & Hw & Hp)]]; [by left|by right; left|].
      right; right. exists h. split; [|done].
      apply elem_of_app. left. apply list_elem_of_filter. split; [|done].
      by rewrite Hw.
Qed.

(** ** The interests *)

(** X7. Saving an interest keeps the interests saved before, in their
    order, and adds the new one behind them unless it is empty or already
    there; a list without repeats stays one, and saving the same interest
    again changes nothing. *)
Theorem saved_interests_grow (interest : string)
    (localInterests : list string) :
  localInterests `prefix_of` saveInterest interest localInterests ∧
  (interest ≠ "" → interest ∈ saveInterest interest localInterests) ∧
  (∀ other, other ∈ saveInterest interest localInterests →
            other ∈ localInterests ∨ (other = interest ∧ interest ≠ "")) ∧
  (NoDup localInterests → NoDup (saveInterest interest localInterests)) ∧
  saveInterest interest (saveInterest interest localInterests)
  = saveInterest interest localInterests.
Proof.
  unfold saveInterest, includes.
  destruct (bool_decide_reflect (interest = "")) as [->|Hne].
  { repeat split; try done. intros other ?. by left. }
  destruct (bool_decide_reflect (interest ∈ localInterests)) as [Hin|Hout].
  { repeat split; try done.
    - intros other ?. by left.
    - by rewrite bool_decide_eq_true_2. }
  split; [by apply prefix_app_r|]. split; [|split; [|split]].
  - intros _. apply elem_of_app. right. by apply list_elem_of_singleton.
  - intros other [?| ->%list_elem_of_singleton]%elem_of_app;
      [by left|by right].
  - intros Hnd. apply NoDup_app. split; [done|].
    split; [|apply NoDup_singleton].
    by intros y Hy ->%list_elem_of_singleton.
  - rewrite bool_decide_eq_true_2; [done|].
    apply elem_of_app. right. by apply list_elem_of_singleton.
Qed.

Lemma saved_interests_member (interest : string)
    (localInterests : list string) :
  interest ≠ "" → interest ∈ saveInterest interest localInterests.
Proof.
  intros Hne. unfold saveInterest, includes.
  rewrite bool_decide_eq_false_2 by done.
  destruct (bool_decide_reflect (interest ∈ localInterests)); [done|].
  apply elem_of_app. right. by apply list_elem_of_singleton.
Qed.

(** ** The profile *)

Lemma foldl_Set_add_prefix (arr set : list string) :
  set `prefix_of` foldl Set_add set arr.
Proof.
  revert set. induction arr as [|x arr IH]; intros set; simpl; [done|].
  etrans; [|apply IH]. unfold Set_add.
  destruct (includes set x); [done|]. by apply prefix_app_r.
Qed.

(** X8. Loading the profile never loses a local interest.  Whatever the
    state of the network and of the user's document, the local interests
    are afterwards the ones before, in their order, followed by those of the
    profile that were not among them; a local list without repeats stays
    one.  The profile returned has the interests of the document, not the
    merged ones. *)
Theorem profile_merge_keeps_local_interests (onLine : bool)
    (remote : ProfileDoc) (localInterests : list string) :
  NoDup localInterests →
  let after := (getUserProfile onLine remote localInterests).2 in
  localInterests `prefix_of` after ∧ NoDup after ∧
  (∀ interests, onLine = true → remote = Profile (Some interests) →
     (∀ x, x ∈ after ↔ x ∈ localInterests ∨ x ∈ interests) ∧
     (getUserProfile onLine remote localInterests).1 = Some interests) ∧
  ((onLine = false ∨ remote = Unreachable ∨ remote = Missing ∨
    remote = Profile None) → after = localInterests).
Proof.
  intros Hnd after. subst after. unfold getUserProfile.
  destruct onLine; cbn [negb].
  2:{ split; [done|]. split; [done|]. split; [by intros ? [=]|done]. }
  destruct remote as [| |[interests|]]; cbn [snd fst].
  1,2,4: split; [done|]; split; [done|]; split; [by intros ? _ [=]|done].
  unfold new_Set.
  destruct (foldl_Set_add (localInterests ++ interests) [] NoDup_nil_2)
    as (H1 & H2 & _).
  split; [|split; [done|split]].
  - rewrite foldl_app.
    etrans; [|apply foldl_Set_add_prefix].
    destruct (foldl_Set_add localInterests [] NoDup_nil_2) as (_ & _ & ->);
      [done|by rewrite app_nil_l].
  - intros ? _ [= <-]. split; [|done]. intros x.
    rewrite H2, elem_of_app, elem_of_nil. naive_solver.
  - intros [[=]|[[=]|[[=]|[=]]]].
Qed.

Lemma profile_merge_keeps_local_interests_witness :
  ["night"; "day"] `prefix_of`
    (getUserProfile true (Profile (Some ["day"; "dusk"])) ["night"; "day"]).2.
Proof.
  refine (proj1 (profile_merge_keeps_local_interests true
                   (Profile (Some ["day"; "dusk"])) ["night"; "day"] _)).
  apply (bool_decide_unpack _). by vm_compute.
Defined.

(** ** The ranker after a video was played *)

Lemma sorted_positions {A} (R : relation A) (l : list A) (i j : nat)
    (a b : A) :
  StronglySorted R l → l !! i = Some a → l !! j = Some b → i < j → R a b.
Proof.
  intros Hl. revert i j. induction Hl as [|x l Hl IH Hx]; intros i j Hi Hj Hlt.
  - by rewrite lookup_nil in Hi.
  - destruct j as [|j]; [lia|]. destruct i as [|i].
    + injection Hi as ->. rewrite Forall_forall in Hx. apply Hx.
      by eapply list_elem_of_lookup_2.
    + eapply IH; eauto. lia.
Qed.

(** X9. Playing a video promotes its category.  [playShortVideo] saves the
    category of the video as an interest; in every later ranking, whatever
    is drawn, a video of that category stands before every video whose
    category is no interest, unless the first is seen and the second
    unseen. *)
Theorem played_category_is_promoted (localInterests : list string)
    (played : Video) (playlist feed videos : list Video)
    (ux : UserInteractions) (s : RandomSource) :
  unit_interval s → category played ≠ "" →
  let userInterests := (playShortVideo played playlist feed localInterests).1 in
  let out := (applySmartRecommendations userInterests videos ux s).1 in
  ∀ i j w x,
    out !! i = Some w → out !! j = Some x →
    category w = category played →
    category x ∉ userInterests →
    (id w ∈ seenIds ux → id x ∈ seenIds ux) →
    i < j.
Proof.
  intros Hs Hcat userInterests out i j w x Hi Hj Hw Hx Hseen.
  assert (interestTier userInterests w = 1%Q) as Bw.
  { unfold interestTier, includes. rewrite bool_decide_eq_true_2; [done|].
    rewrite Hw. subst userInterests. cbn [playShortVideo fst].
    by apply saved_interests_member. }
  assert (interestTier userInterests x = 0%Q) as Bx.
  { unfold interestTier, includes. by rewrite bool_decide_eq_false_2. }
  destruct (ranked_by_tiers (interestTier userInterests) unit_interval
              userInterests videos ux s)
    as (us & ss & E & Fu & Fs & Su & Ss);
    [intros s' Hs' n; apply Hs'|apply byScore_interest|done|].
  subst out. rewrite E in Hi, Hj.
  assert (∀ l i j, StronglySorted
            (λ a b, (interestTier userInterests b
                     <= interestTier userInterests a)%Q) l →
            l !! i = Some w → l !! j = Some x → i < j) as Hblock.
  { intros l i' j' Hl Hi' Hj'.
    destruct (decide (i' < j')) as [|Hge]; [done|]. exfalso.
    destruct (decide (i' = j')) as [->|Hne].
    - rewrite Hi' in Hj'. injection Hj' as ->. rewrite Bw in Bx. done.
    - pose proof (sorted_positions _ l j' i' x w Hl Hj' Hi' ltac:(lia)) as H.
      cbv beta in H. rewrite Bw, Bx in H. by apply H. }
  rewrite Forall_lookup in Fu. rewrite Forall_lookup in Fs.
  destruct (decide (i < length us)) as [Hiu|His];
    destruct (decide (j < length us)) as [Hju|Hjs].
  - rewrite lookup_app_l in Hi, Hj by done. exact (Hblock us i j Su Hi Hj).
  - lia.
  - rewrite lookup_app_r in Hi by lia. rewrite lookup_app_l in Hj by done.
    destruct (Fu _ _ Hj). apply Hseen. by eapply Fs.
  - rewrite lookup_app_r in Hi, Hj by lia.
    pose proof (Hblock ss _ _ Ss Hi Hj). lia.
Qed.

Lemma played_category_is_promoted_witness :
  ∃ i j,
    (applySmartRecommendations
       (playShortVideo (short "p") [] [] []).1
       [dayShort "x"; short "w"] noInteractions halves).1 !! i
    = Some (short "w") ∧
    (applySmartRecommendations
       (playShortVideo (short "p") [] [] []).1
       [dayShort "x"; short "w"] noInteractions halves).1 !! j
    = Some (dayShort "x") ∧
    i < j.
Proof.
  exists 0, 1. split; [by vm_compute|]. split; [by vm_compute|].
  assert (unit_interval halves) as Hs
    by (intros n; split; vm_compute; congruence).
  assert (category (short "p") ≠ "") as Hcat by done.
  refine (played_category_is_promoted [] (short "p") [] []
            [dayShort "x"; short "w"] noInteractions halves Hs Hcat
            0 1 (short "w") (dayShort "x") _ _ _ _ _).
  - by vm_compute.
  - by vm_compute.
  - done.
  - apply (bool_decide_unpack _). by vm_compute.
  - intros H. exfalso. revert H. apply (bool_decide_unpack _).
    by vm_compute.
Defined.

(** ** The allocator: where a batch comes from *)

Lemma pickVideos_length (used : gset string) (pool : list Video)
    (count : nat) (s : RandomSource) :
  length (pickVideos used pool count s).1.1 = min count (length pool).
Proof.
  destruct (pickVideos_spec used pool count s) as (backfill & -> & _ & Hlen).
  cbn [fst]. rewrite length_app, Hlen.
  pose proof (filter_complement_length (λ v, id v ∉ used) pool) as Hsum.
  destruct (decide (length (filter (λ v, id v ∉ used) pool) < count))
    as [Hshort|Hfull].
  - destruct (recycled_are_used used pool count Hshort) as [-> ->].
    rewrite (filter_ext_elem (λ v, id v ∈ used) (λ v, ¬ (id v ∉ used)))
      by (intros v _; split; [by intros ? ?|apply dec_stable]).
    lia.
  - pose proof (length_filter (λ v, id v ∉ used) pool) as Hle.
    rewrite !length_take. lia.
Qed.

(** X10. Whatever the state of the pass, the batch stored for a section is
    made of videos of the pool the section draws from, none taken more often
    than the pool holds it, and has [count] entries or, if the pool is
    smaller, as many as the pool: then the batch is the whole pool, each of
    its videos once. *)
Theorem batch_comes_from_its_pool (videos : list Video) (st : Allocation)
    (index : nat) (section : LayoutSection) (kind : PoolKind) (count : nat)
    (s : RandomSource) :
  demand section = Some (kind, count) →
  ∃ batch,
    distribution (allocateSection videos st index section s).1
      !! sectionKey section index = Some batch ∧
    batch ⊆+ poolOf videos kind ∧
    length batch = min count (length (poolOf videos kind)) ∧
    (length (poolOf videos kind) ≤ count → batch ≡ₚ poolOf videos kind).
Proof.
  intros Hd. unfold allocateSection. rewrite Hd. unfold bind.
  pose proof (pickVideos_submseteq (usedIds st) (poolOf videos kind) count s)
    as Hsub.
  pose proof (pickVideos_length (usedIds st) (poolOf videos kind) count s)
    as Hlen.
  destruct (pickVideos (usedIds st) (poolOf videos kind) count s)
    as [[batch used'] s'].
  unfold ret. cbn [fst snd distribution] in *.
  exists batch. rewrite lookup_insert_eq.
  split; [done|]. split; [done|]. split; [done|].
  intros Hsmall. apply submseteq_length_Permutation; [done|lia].
Qed.

Lemma batch_comes_from_its_pool_witness :
  ∃ batch,
    distribution
      (allocateSection threeShorts
         {| usedIds := ∅; distribution := ∅ |} 0 (slider "s") halves).1
      !! "s" = Some batch ∧
    batch ≡ₚ threeShorts.
Proof.
  destruct (batch_comes_from_its_pool threeShorts
              {| usedIds := ∅; distribution := ∅ |} 0 (slider "s")
              MixedPool 10 halves eq_refl)
    as (batch & E & _ & _ & Hall).
  exists batch. split; [exact E|]. apply Hall. vm_compute. lia.
Defined.

(** Every batch a pass stores is made of videos of the feed. *)
Lemma forEachSection_from_feed (videos : list Video)
    (sections : list LayoutSection) :
  ∀ (index : nat) (st : Allocation) (s : RandomSource),
    (∀ k b v, distribution st !! k = Some b → v ∈ b → v ∈ videos) →
    ∀ k b v,
      distribution (forEachSection videos sections index st s).1 !! k
        = Some b →
      v ∈ b → v ∈ videos.
Proof.
  induction sections as [|section rest IH]; intros index st s Hst; simpl;
    [done|].
  unfold bind.
  assert (∀ k b v,
            distribution (allocateSection videos st index section s).1 !! k
              = Some b → v ∈ b → v ∈ videos) as Hnext.
  { unfold allocateSection.
    destruct (demand section) as [[kind count]|]; [|done].
    unfold bind.
    pose proof (pickVideos_submseteq (usedIds st) (poolOf videos kind)
                  count s) as Hsub.
    destruct (pickVideos (usedIds st) (poolOf videos kind) count s)
      as [[batch used'] s'].
    unfold ret. cbn [fst snd distribution] in *.
    intros k b v Hk Hv.
    apply lookup_insert_Some in Hk as [[_ <-]|[_ Hk]]; [|by eapply Hst].
    eapply pool_in_videos, elem_of_submseteq; eauto. }
  destruct (allocateSection videos st index section s) as [st' s'].
  by apply IH.
Qed.

Lemma distributedContent_from_feed (sections : list LayoutSection)
    (videos : list Video) (s : RandomSource) (k : string)
    (b : list Video) (v : Video) :
  (distributedContent sections videos s).1 !! k = Some b → v ∈ b →
  v ∈ videos.
Proof.
  unfold distributedContent, bind.
  pose proof (forEachSection_from_feed videos sections 0
                {| usedIds := ∅; distribution := ∅ |} s) as H.
  destruct (forEachSection videos sections 0 _ s) as [st s'].
  unfold ret. cbn [fst snd] in *. apply H.
  intros k' b' v'. cbn [distribution]. by rewrite lookup_empty.
Qed.

(** ** The allocator: the keys of a pass *)

Lemma sectionKey_unnamed (section : LayoutSection) (index : nat) :
  unnamed section → sectionKey section index = "section-" +:+ pretty index.
Proof. unfold sectionKey. by intros [->| ->]. Qed.

(** A pass leaves the entries under the keys of none of its sections as
    they were. *)
Lemma forEachSection_other_keys (videos : list Video)
    (sections : list LayoutSection) (key : string) :
  ∀ (index : nat) (st : Allocation) (s : RandomSource),
    (∀ k section, sections !! k = Some section →
                  sectionKey section (index + k) ≠ key) →
    distribution (forEachSection videos sections index st s).1 !! key
    = distribution st !! key.
Proof.
  induction sections as [|section rest IH]; intros index st s Hkeys; simpl;
    [done|].
  unfold bind.
  assert (distribution (allocateSection videos st index section s).1 !! key
          = distribution st !! key) as Hfirst.
  { unfold allocateSection.
    destruct (demand section) as [[kind count]|]; [|done].
    unfold bind.
    destruct (pickVideos (usedIds st) (poolOf videos kind) count s)
      as [[batch used'] s'].
    unfold ret. cbn [fst snd distribution].
    apply lookup_insert_ne. specialize (Hkeys 0 section eq_refl).
    by rewrite Nat.add_0_r in Hkeys. }
  destruct (allocateSection videos st index section s) as [st' s'].
  cbn [fst] in Hfirst. rewrite <- Hfirst. apply IH.
  intros k section' Hk. specialize (Hkeys (S k) section' Hk).
  by replace (S index + k) with (index + S k) by lia.
Qed.

Lemma forEachSection_own_batch (videos : list Video)
    (sections : list LayoutSection) :
  ∀ (start : nat) (st : Allocation) (s : RandomSource),
    Forall unnamed sections →
    ∀ k section kind count,
      sections !! k = Some section → demand section = Some (kind, count) →
      ∃ batch,
        distribution (forEachSection videos sections start st s).1
          !! ("section-" +:+ pretty (start + k)) = Some batch ∧
        batch ⊆+ poolOf videos kind ∧
        length batch = min count (length (poolOf videos kind)).
Proof.
  induction sections as [|first rest IH]; intros start st s Hall k section
    kind count Hk Hd; [done|].
  apply Forall_cons in Hall as [Hfirst Hrest].
  simpl. unfold bind.
  destruct k as [|k].
  - injection Hk as ->. rewrite Nat.add_0_r.
    pose proof (pickVideos_submseteq (usedIds st) (poolOf videos kind)
                  count s) as Hsub.
    pose proof (pickVideos_length (usedIds st) (poolOf videos kind) count s)
      as Hlen.
    assert (∃ batch,
              distribution (allocateSection videos st start section s).1
                !! ("section-" +:+ pretty start) = Some batch ∧
              batch ⊆+ poolOf videos kind ∧
              length batch = min count (length (poolOf videos kind)))
      as (batch & Hb & H1 & H2).
    { unfold allocateSection. rewrite Hd. unfold bind.
      destruct (pickVideos (usedIds st) (poolOf videos kind) count s)
        as [[batch used'] s'].
      unfold ret. cbn [fst snd distribution] in *.
      exists batch. rewrite (sectionKey_unnamed _ _ Hfirst).
      by rewrite lookup_insert_eq. }
    destruct (allocateSection videos st start section s) as [st' s'].
    cbn [fst] in Hb. exists batch. split; [|done].
    rewrite <- Hb. apply forEachSection_other_keys.
    intros j section' Hj.
    rewrite sectionKey_unnamed
      by (rewrite Forall_lookup in Hrest; by eapply Hrest).
    intros E%(inj (String.append "section-"))%(inj pretty). lia.
  - destruct (allocateSection videos st start first s) as [st' s'].
    replace (start + S k) with (S start + k) by lia.
    by eapply IH.
Qed.

(** X11. In a layout whose sections have no ids of their own, no section
    overwrites the batch of another: after the pass every section of a known
    type finds under its key, made from its index, a batch drawn from its
    own pool, of [count] videos or of as many as the pool has. *)
Theorem unnamed_sections_get_their_own_batch
    (sections : list LayoutSection) (videos : list Video)
    (s : RandomSource) (index : nat) (section : LayoutSection)
    (kind : PoolKind) (count : nat) :
  Forall unnamed sections →
  sections !! index = Some section → demand section = Some (kind, count) →
  ∃ batch,
    (distributedContent sections videos s).1 !! sectionKey section index
      = Some batch ∧
    batch ⊆+ poolOf videos kind ∧
    length batch = min count (length (poolOf videos kind)).
Proof.
  intros Hall Hi Hd. unfold distributedContent, bind.
  destruct (forEachSection_own_batch videos sections 0
              {| usedIds := ∅; distribution := ∅ |} s Hall index section
              kind count Hi Hd) as (batch & Hb & H1 & H2).
  destruct (forEachSection videos sections 0 _ s) as [st s'].
  unfold ret. cbn [fst] in *. exists batch. split; [|done].
  rewrite sectionKey_unnamed; [done|].
  rewrite Forall_lookup in Hall. by eapply Hall.
Qed.

Lemma unnamed_sections_get_their_own_batch_witness :
  ∃ batch,
    (distributedContent [unnamedGrid; unnamedGrid] sixShorts halves).1
      !! sectionKey unnamedGrid 1 = Some batch ∧
    batch ⊆+ poolOf sixShorts ShortsPool ∧
    length batch = min 4 (length (poolOf sixShorts ShortsPool)).
Proof.
  apply (unnamed_sections_get_their_own_batch [unnamedGrid; unnamedGrid]
           sixShorts halves 1 unnamedGrid ShortsPool 4).
  - repeat constructor.
  - reflexivity.
  - reflexivity.
Defined.

(** ** The older layout *)

(** X12. The older layout draws for every section by itself: a batch of
    [getVideosForSection] is made of videos of the requested type, takes no
    video more often than the feed holds it, and has [count] entries or as
    many as the feed has of that type. *)
Theorem legacy_batch_is_a_sample (videos : list Video) (count : nat)
    (type : string) (s : RandomSource) :
  let batch := (LegacyLayout.getVideosForSection videos count type s).1 in
  let filtered :=
    if bool_decide (type ≠ "Mixed")
    then filter (λ v, video_type v = type) videos
    else videos in
  batch ⊆+ filtered ∧
  batch ⊆+ videos ∧
  length batch = min count (length filtered) ∧
  (type ≠ "Mixed" → Forall (λ v, video_type v = type) batch).
Proof.
  intros batch filtered. subst batch.
  unfold LegacyLayout.getVideosForSection. fold filtered. unfold bind.
  pose proof (Array_sort_perm recycleCompare filtered s) as Hperm.
  destruct (Array_sort recycleCompare filtered s) as [shuffled s'].
  unfold ret. cbn [fst] in *.
  assert (take count shuffled ⊆+ filtered) as Hsub.
  { rewrite <- Hperm. apply sublist_submseteq, sublist_take. }
  split; [done|]. split; [|split].
  - etrans; [exact Hsub|]. subst filtered.
    destruct (bool_decide (type ≠ "Mixed")); [|done].
    apply sublist_submseteq, sublist_filter.
  - by rewrite length_take, Hperm.
  - intros Htype. apply Forall_forall. intros v Hv.
    eapply elem_of_submseteq in Hv; [|exact Hsub]. subst filtered.
    rewrite bool_decide_eq_true_2 in Hv by done.
    by apply list_elem_of_filter in Hv as [? _].
Qed.

(** In the older layout two grids of one page can show the same videos
    although the feed has enough for both: here the second grid, drawn after
    the first, repeats it. *)
Lemma legacy_grids_share_videos :
  (let* first := LegacyLayout.getVideosForSection
                   (sixShorts ++ [short "g"; short "h"]) 4 "Shorts" in
   let* second := LegacyLayout.getVideosForSection
                    (sixShorts ++ [short "g"; short "h"]) 4 "Shorts" in
   ret (first, second)) halves
  = ([short "a"; short "b"; short "c"; short "d"],
     [short "a"; short "b"; short "c"; short "d"], halves).
Proof. by vm_compute. Qed.

(** ** The default home page *)

Lemma filter_from_index {A} (P : A → Prop) `{∀ x, Decision (P x)}
    (l : list A) :
  ∀ n, (∀ i v, l !! i = Some v → (P v ↔ n ≤ i)) → filter P l = drop n l.
Proof.
  induction l as [|x l IH]; intros n Hn; [by rewrite drop_nil|].
  destruct n as [|n].
  - rewrite drop_0. apply filter_all, Forall_forall.
    intros v [i Hi]%list_elem_of_lookup. apply (Hn i v Hi). lia.
  - rewrite filter_cons_False.
    + simpl. apply IH. intros i v Hi.
      rewrite (Hn (S i) v) by done. lia.
    + rewrite (Hn 0 x) by done. lia.
Qed.

(** When the used ids of a pool are those of its first [n] entries,
    [getUniqueBatch] hands out the entries that follow, and the pool is
    used up to there; a pool of other ids is used as before. *)
Lemma getUniqueBatch_step (used : gset string) (pool other : list Video)
    (n m count : nat) :
  NoDup (id <$> pool) →
  (∀ v w, v ∈ pool → w ∈ other → id v ≠ id w) →
  consumed used pool n → consumed used other m →
  ∃ used',
    getUniqueBatch used pool count = (slice n (n + count) pool, used') ∧
    consumed used' pool (n + count) ∧ consumed used' other m.
Proof.
  intros Hnd Hapart Hpool Hother.
  unfold getUniqueBatch, slice.
  replace (n + count - n) with count by lia.
  assert (filter (λ v, id v ∉ used) pool = drop n pool) as ->.
  { apply filter_from_index. intros i v Hi.
    rewrite (Hpool i v Hi). lia. }
  eexists. split; [reflexivity|]. split.
  - intros i v Hi.
    rewrite elem_of_union, (Hpool i v Hi), elem_of_list_to_set,
      list_elem_of_fmap.
    split.
    + intros [?|(w & Hid & [j Hj]%list_elem_of_lookup)]; [lia|].
      apply lookup_take_Some in Hj as [Hj Hlt].
      rewrite lookup_drop in Hj.
      assert (i = n + j) as ->; [|lia].
      eapply NoDup_lookup; [exact Hnd| |].
      * by rewrite list_lookup_fmap, Hi.
      * by rewrite list_lookup_fmap, Hj, Hid.
    + intros Hlt. destruct (decide (i < n)) as [?|Hge]; [by left|].
      right. exists v. split; [done|].
      apply list_elem_of_lookup. exists (i - n).
      rewrite lookup_take_lt by lia. rewrite lookup_drop.
      by replace (n + (i - n)) with i by lia.
  - intros i w Hi.
    rewrite elem_of_union, (Hother i w Hi), elem_of_list_to_set,
      list_elem_of_fmap.
    split; [|by left].
    intros [?|(v & Hid & Hv)]; [done|].
    destruct (Hapart v w); [|by eapply list_elem_of_lookup_2|done].
    apply elem_of_take in Hv as (j & Hj & _).
    rewrite lookup_drop in Hj. by eapply list_elem_of_lookup_2.
Qed.

Lemma consumed_nothing (pool : list Video) : consumed ∅ pool 0.
Proof. intros i v _. rewrite elem_of_empty. lia. Qed.

Lemma typed_pools_unique (videos : list Video) :
  NoDup (id <$> videos) →
  NoDup (id <$> poolOf videos ShortsPool) ∧
  NoDup (id <$> poolOf videos LongsPool) ∧
  (∀ v w, v ∈ poolOf videos ShortsPool → w ∈ poolOf videos LongsPool →
          id v ≠ id w).
Proof.
  intros Hnd. split; [|split].
  - eapply sublist_NoDup; [exact Hnd|]. apply fmap_sublist, sublist_filter.
  - eapply sublist_NoDup; [exact Hnd|]. apply fmap_sublist, sublist_filter.
  - intros v w Hv Hw Hid.
    apply (short_is_not_long videos Hnd v Hv). unfold idsOf.
    apply elem_of_list_to_set, list_elem_of_fmap. by exists w.
Qed.

Ltac next_batch pool other Hnd Hapart :=
  match goal with
  | Cp : consumed ?u pool ?n, Co : consumed ?u other ?m
    |- context [getUniqueBatch ?u pool ?c] =>
      destruct (getUniqueBatch_step u pool other n m c Hnd Hapart Cp Co)
        as (? & -> & ? & ?); clear Cp Co; cbv beta iota
  end.

(** X13. When the ids of the feed are pairwise distinct, the default home
    page hands the feed out in its order: the batches of Shorts are the
    successive slices of the feed's Shorts (10, 4, 2, 2, 10, 2, 2 and 10
    videos, the first 42), those of Long videos the successive slices of its
    Long videos (10, 4, 10, 4 and 10, the first 38).  A section further down
    the page gets what the sections above it have left, and nothing when
    they have left nothing. *)
Theorem home_page_is_the_feed_in_slices (safeVideos : list Video) :
  NoDup (id <$> safeVideos) →
  let shortsOnly := poolOf safeVideos ShortsPool in
  let longsOnly := poolOf safeVideos LongsPool in
  let page := homeLayout safeVideos in
  marqueeShorts1 page = slice 0 10 shortsOnly ∧
  interestGrid page = slice 10 14 shortsOnly ∧
  gridShorts1 page = slice 14 16 shortsOnly ∧
  gridShorts2 page = slice 16 18 shortsOnly ∧
  marqueeShorts2 page = slice 18 28 shortsOnly ∧
  gridShorts3 page = slice 28 30 shortsOnly ∧
  gridShorts4 page = slice 30 32 shortsOnly ∧
  marqueeShorts3 page = slice 32 42 shortsOnly ∧
  marqueeLongs1 page = slice 0 10 longsOnly ∧
  stackLongs1 page = slice 10 14 longsOnly ∧
  marqueeLongs2 page = slice 14 24 longsOnly ∧
  stackLongs2 page = slice 24 28 longsOnly ∧
  marqueeLongs3 page = slice 28 38 longsOnly.
Proof.
  intros Hnd. cbv zeta.
  destruct (typed_pools_unique safeVideos Hnd) as (HS & HL & Hapart).
  unfold homeLayout. cbv zeta.
  set (shortsOnly := poolOf safeVideos ShortsPool) in *.
  set (longsOnly := poolOf safeVideos LongsPool) in *.
  clearbody shortsOnly longsOnly.
  assert (∀ v w, v ∈ longsOnly → w ∈ shortsOnly → id v ≠ id w) as Hapart'
    by (intros v w Hv Hw E; by apply (Hapart w v)).
  pose proof (consumed_nothing shortsOnly) as Cs.
  pose proof (consumed_nothing longsOnly) as Cl.
  do 13 (first [next_batch shortsOnly longsOnly HS Hapart
               |next_batch longsOnly shortsOnly HL Hapart']).
  cbn [marqueeShorts1 marqueeLongs1 interestGrid gridShorts1 gridShorts2
       stackLongs1 marqueeShorts2 marqueeLongs2 gridShorts3 gridShorts4
       stackLongs2 marqueeShorts3 marqueeLongs3].
  repeat split.
Qed.

Lemma home_page_is_the_feed_in_slices_witness :
  marqueeShorts1 (homeLayout oneLongTenShorts)
  = slice 0 10 (poolOf oneLongTenShorts ShortsPool) ∧
  interestGrid (homeLayout oneLongTenShorts)
  = slice 10 14 (poolOf oneLongTenShorts ShortsPool) ∧
  marqueeLongs1 (homeLayout oneLongTenShorts)
  = slice 0 10 (poolOf oneLongTenShorts LongsPool).
Proof.
  assert (NoDup (id <$> oneLongTenShorts)) as Hnd
    by (apply (bool_decide_unpack _); by vm_compute).
  pose proof (home_page_is_the_feed_in_slices oneLongTenShorts Hnd) as T.
  cbv zeta in T. destruct T as (H1 & H2 & _ & _ & _ & _ & _ & _ & H3 & _).
  exact (conj H1 (conj H2 H3)).
Defined.

Lemma getUniqueBatch_sublist (used : gset string) (source : list Video)
    (count : nat) :
  (getUniqueBatch used source count).1 `sublist_of` source.
Proof.
  unfold getUniqueBatch. cbn [fst].
  etrans; [apply sublist_take|apply sublist_filter].
Qed.

(** Every batch of the default home page is made of videos of the feed. *)
Lemma homeLayout_from_feed (safeVideos : list Video) (batch : list Video)
    (v : Video) :
  batch ∈ homeSections (homeLayout safeVideos) → v ∈ batch →
  v ∈ safeVideos.
Proof.
  unfold homeLayout. cbv zeta.
  repeat
    match goal with
    | |- context [getUniqueBatch ?u ?pool ?c] =>
        pose proof (getUniqueBatch_sublist u pool c);
        destruct (getUniqueBatch u pool c) as [? ?]
    end.
  unfold homeSections.
  cbn [marqueeShorts1 marqueeLongs1 interestGrid gridShorts1 gridShorts2
       stackLongs1 marqueeShorts2 marqueeLongs2 gridShorts3 gridShorts4
       stackLongs2 marqueeShorts3 marqueeLongs3 fst] in *.
  intros Hb Hv.
  assert (∃ kind, batch `sublist_of` poolOf safeVideos kind) as [kind Hs].
  { repeat (apply elem_of_cons in Hb as [->|Hb];
              [first [by exists ShortsPool|by exists LongsPool]|]).
    by apply elem_of_nil in Hb. }
  eapply pool_in_videos, elem_of_sublist; eauto.
Qed.

(** ** The videos to resume *)

Lemma Array_find_Some {A} (P : A → Prop) `{∀ x, Decision (P x)}
    (arr : list A) (x : A) :
  Array_find P arr = Some x → x ∈ arr ∧ P x.
Proof.
  unfold Array_find. destruct (list_find P arr) as [[i y]|] eqn:E; [|done].
  simpl. intros [= ->]. apply list_find_Some in E as (Hi & HP & _).
  split; [|done]. by eapply list_elem_of_lookup_2.
Qed.

Lemma unfinishedVideos_elem (safeVideos : list Video)
    (p : UserInteractions) (v : Video) :
  v ∈ unfinishedVideos safeVideos p ↔
  video_url v ≠ "" ∧
  ∃ h, h ∈ watchHistory p ∧ (0.05 < progress h)%Q ∧ (progress h < 0.95)%Q ∧
       Array_find (λ vid, id vid = watched h) safeVideos = Some v.
Proof.
  unfold unfinishedVideos.
  rewrite elem_of_reverse, list_elem_of_filter, list_elem_of_omap.
  split.
  - intros (Hurl & h & Hh%list_elem_of_filter & Hf). naive_solver.
  - intros (Hurl & h & Hh & H1 & H2 & Hf). split; [done|].
    exists h. split; [|done]. by apply list_elem_of_filter.
Qed.

(** X14. The list of videos to resume follows the latest report of progress.
    After [onProgress(id, progress)] with a progress outside the open range
    from 0.05 to 0.95 no video of that id is offered; with a progress inside
    it the first video of that id, if it has a URL, heads the list.  Every
    video offered is one of the feed and has a URL. *)
Theorem resume_list_follows_progress (safeVideos : list Video)
    (videoId : string) (fraction : Q) (p : UserInteractions) :
  (¬ ((0.05 < fraction)%Q ∧ (fraction < 0.95)%Q) →
   ∀ v, v ∈ unfinishedVideos safeVideos (onProgress videoId fraction p) →
        id v ≠ videoId) ∧
  (∀ v, (0.05 < fraction)%Q → (fraction < 0.95)%Q →
        Array_find (λ vid, id vid = videoId) safeVideos = Some v →
        video_url v ≠ "" →
        head (unfinishedVideos safeVideos (onProgress videoId fraction p))
        = Some v) ∧
  (∀ q v, v ∈ unfinishedVideos safeVideos q →
          v ∈ safeVideos ∧ video_url v ≠ "").
Proof.
  split; [|split].
  - intros Hout v (Hurl & h & Hh & H1 & H2 & Hf)%unfinishedVideos_elem Hid.
    apply Array_find_Some in Hf as [_ Hw].
    unfold onProgress in Hh. cbn [watchHistory] in Hh.
    apply elem_of_app in Hh as [Hh%list_elem_of_filter|Hh].
    + destruct Hh as [Hne _]. apply Hne. by rewrite <- Hw.
    + apply list_elem_of_singleton in Hh as ->. by apply Hout.
  - intros v H1 H2 Hf Hurl. unfold unfinishedVideos, onProgress.
    cbn [watchHistory].
    rewrite filter_app, filter_cons_True by done.
    rewrite filter_nil, omap_app.
    assert (omap (λ h, Array_find (λ vid, id vid = watched h) safeVideos)
              [{| watched := videoId; progress := fraction |}] = [v]) as ->.
    { change (omap ?f [?h]) with
        (match f h with Some y => [y] | None => [] end).
      cbn [watched]. by rewrite Hf. }
    rewrite filter_app, filter_cons_True by done.
    by rewrite filter_nil, reverse_app.
  - intros q v (Hurl & h & _ & _ & _ & Hf)%unfinishedVideos_elem.
    by apply Array_find_Some in Hf as [? _].
Qed.

(** ** Hiding a video *)

(** X15. Once a video is disliked it has left the home view: it is not among
    the videos handed to the home page, so it is in no batch of the section
    allocator, whatever the layout and the random source, and in no batch of
    the default page; it is not on the trend page; it is no longer liked,
    and the ranker counts it as seen. *)
Theorem disliked_video_is_hidden (videoId : string) (p : UserInteractions)
    (feed : list Video) :
  (∀ v, v ∈ activeVideos feed (handleDislike videoId p) →
        v ∈ feed ∧ id v ≠ videoId) ∧
  (∀ sections s key batch v,
     (distributedContent sections
        (activeVideos feed (handleDislike videoId p)) s).1 !! key
       = Some batch →
     v ∈ batch → id v ≠ videoId) ∧
  (∀ batch v,
     batch ∈ homeSections
               (homeLayout (activeVideos feed (handleDislike videoId p))) →
     v ∈ batch → id v ≠ videoId) ∧
  (∀ rawVideos v,
     v ∈ trendVideos rawVideos (dislikedIds (handleDislike videoId p)) →
     id v ≠ videoId) ∧
  (videoId ∉ likedIds (handleDislike videoId p)) ∧
  videoId ∈ seenIds (handleDislike videoId p).
Proof.
  assert (videoId ∈ dislikedIds (handleDislike videoId p)) as Hd.
  { unfold handleDislike. cbn [dislikedIds].
    destruct (new_Set_spec (dislikedIds p ++ [videoId])) as (_ & -> & _).
    apply elem_of_app. right. by apply list_elem_of_singleton. }
  assert (∀ v, v ∈ activeVideos feed (handleDislike videoId p) →
               v ∈ feed ∧ id v ≠ videoId) as Hactive.
  { intros v [Hv ?]%list_elem_of_filter. split; [done|].
    intros E. apply Hv. by rewrite E. }
  split; [done|]. split; [|split; [|split; [|split]]].
  - intros sections s key batch v Hk Hv.
    by eapply Hactive, distributedContent_from_feed.
  - intros batch v Hb Hv. by eapply Hactive, homeLayout_from_feed.
  - intros rawVideos v. unfold trendVideos.
    rewrite elem_of_app, !list_elem_of_filter.
    intros [(_ & Hv & _)|(_ & Hv & _)] E; apply Hv; by rewrite E.
  - unfold handleDislike. cbn [likedIds].
    intros [Hne _]%list_elem_of_filter. by apply Hne.
  - apply seenIds_elem. by right; left.
Qed.

(** X16. Restoring a disliked video undoes the dislike but not what the
    dislike did to a like: for a state whose disliked list has no repeats
    and does not hold the video, dislike and restore leave the disliked list
    and the watch history as they were, and the video is not liked. *)
Theorem dislike_then_restore (videoId : string) (p : UserInteractions) :
  NoDup (dislikedIds p) → videoId ∉ dislikedIds p →
  onRestore videoId (handleDislike videoId p)
  = {| likedIds := filter (λ x, x ≠ videoId) (likedIds p);
       dislikedIds := dislikedIds p;
       watchHistory := watchHistory p |}.
Proof.
  intros Hnd Hout. unfold onRestore, handleDislike.
  cbn [likedIds dislikedIds watchHistory]. f_equal.
  destruct (new_Set_spec (dislikedIds p ++ [videoId])) as (_ & _ & ->).
  - rewrite filter_app, filter_absent by done.
    rewrite filter_cons_False by (by intros H; apply H).
    by rewrite filter_nil, app_nil_r.
  - apply NoDup_app. split; [done|]. split; [|apply NoDup_singleton].
    by intros y Hy ->%list_elem_of_singleton.
Qed.

Lemma dislike_then_restore_witness :
  onRestore "a"
    (handleDislike "a"
       {| likedIds := ["a"; "b"]; dislikedIds := ["c"];
          watchHistory := [] |})
  = {| likedIds := ["b"]; dislikedIds := ["c"]; watchHistory := [] |}.
Proof.
  refine (dislike_then_restore "a"
    {| likedIds := ["a"; "b"]; dislikedIds := ["c"]; watchHistory := [] |}
    _ _).
  - apply (bool_decide_unpack _). by vm_compute.
  - apply (bool_decide_unpack _). by vm_compute.
Defined.

(** ** The figures and colours of a card *)

Lemma toInt32_range (x : Z) :
  (- 2 ^ 31 <= toInt32 x < 2 ^ 31)%Z.
Proof.
  unfold toInt32. pose proof (Z.mod_pos_bound (x + 2 ^ 31) (2 ^ 32)). lia.
Qed.

Lemma toInt32_wraps (x : Z) : ∃ k, toInt32 x = (x + 2 ^ 32 * k)%Z.
Proof.
  exists (- ((x + 2 ^ 31) / 2 ^ 32))%Z. unfold toInt32.
  rewrite (Z.mod_eq (x + 2 ^ 31) (2 ^ 32)) by lia. lia.
Qed.

Lemma toInt32_plus_wrap (x k : Z) : toInt32 (x + 2 ^ 32 * k) = toInt32 x.
Proof.
  unfold toInt32. f_equal.
  replace (x + 2 ^ 32 * k + 2 ^ 31)%Z with (x + 2 ^ 31 + k * 2 ^ 32)%Z by lia.
  apply Z_mod_plus_full.
Qed.

(** One round of the loop multiplies by 31 and adds the code unit, modulo
    2^32. *)
Lemma seedHash_round (hash exact code : Z) :
  hash = toInt32 exact →
  toInt32 ((shiftLeft hash 5 - hash) + code) = toInt32 (31 * exact + code).
Proof.
  intros ->. unfold shiftLeft. rewrite Z.shiftl_mul_pow2 by lia.
  destruct (toInt32_wraps exact) as [k1 E1].
  destruct (toInt32_wraps (toInt32 exact)) as [k2 E2].
  destruct (toInt32_wraps (toInt32 (toInt32 exact) * 2 ^ 5)) as [k3 E3].
  rewrite E3, E2, E1.
  replace ((exact + 2 ^ 32 * k1 + 2 ^ 32 * k2) * 2 ^ 5 + 2 ^ 32 * k3
           - (exact + 2 ^ 32 * k1) + code)%Z
    with (31 * exact + code + 2 ^ 32 * (32 * (k1 + k2) + k3 - k1))%Z by lia.
  apply toInt32_plus_wrap.
Qed.

Lemma seedHash_from (codes : list Z) :
  ∀ hash exact,
    hash = toInt32 exact →
    foldl (λ hash code, toInt32 ((shiftLeft hash 5 - hash) + code)%Z)
      hash codes
    = toInt32 (foldl (λ h code, 31 * h + code)%Z exact codes).
Proof.
  induction codes as [|code codes IH]; intros hash exact Hh; simpl; [done|].
  apply IH. by apply seedHash_round.
Qed.

(** Every code unit is a number of 16 bits. *)
Lemma utf16_range (n : nat) :
  ∀ bytes, length bytes ≤ n →
    Forall (λ code, (0 <= code < 65536)%Z) (utf16 bytes).
Proof.
  induction n as [|n IH]; intros bytes Hlen.
  { destruct bytes; [constructor|simpl in Hlen; lia]. }
  destruct bytes as [|b1 rest1]; [constructor|]. simpl in Hlen.
  cbn [utf16].
  destruct ((0 <=? b1)%Z && (b1 <? 128)%Z) eqn:E1.
  { constructor; [lia|]. apply IH. lia. }
  destruct rest1 as [|b2 rest2]; [repeat constructor; lia|].
  simpl in Hlen.
  destruct (twoBytes b1 b2) eqn:E2.
  { constructor; [|apply IH; lia].
    unfold twoBytes, continues, point2 in *. lia. }
  destruct rest2 as [|b3 rest3].
  { constructor; [lia|]. apply IH. simpl. lia. }
  simpl in Hlen.
  destruct (threeBytes b1 b2 b3) eqn:E3.
  { constructor; [|apply IH; lia].
    unfold threeBytes, continues in *.
    set (point := point3 b1 b2 b3) in *.
    assert (point < 65536)%Z by (subst point; unfold point3; lia). lia. }
  destruct rest3 as [|b4 rest4].
  { constructor; [lia|]. apply IH. simpl. lia. }
  simpl in Hlen.
  destruct (fourBytes b1 b2 b3 b4) eqn:E4.
  - unfold surrogates. cbn [app].
    unfold fourBytes in E4.
    set (point := point4 b1 b2 b3 b4) in *.
    assert (65536 <= point < 1114112)%Z as Hp by lia.
    pose proof (Z.mod_pos_bound (point - 65536) 1024 ltac:(lia)).
    assert (0 <= (point - 65536) / 1024 < 1024)%Z.
    { split; [apply Z.div_pos; lia|].
      apply Z.div_lt_upper_bound; lia. }
    constructor; [lia|]. constructor; [lia|]. apply IH. lia.
  - constructor; [lia|]. apply IH. simpl. lia.
Qed.

(** X17. The hash of [getDeterministicStats] is the polynomial hash of the
    seed's UTF-16 code units to the base 31, wrapped to 32 bits: the shift
    and the subtraction of each round multiply by 31, and [|= 0] wraps.  A
    character outside ASCII counts with its code unit or its two
    surrogates, not with its bytes. *)
Theorem seed_hash_is_polynomial (seed : string) :
  seedHash seed
  = toInt32 (foldl (λ h code, 31 * h + code)%Z 0%Z (charCodes seed)) ∧
  (- 2 ^ 31 <= seedHash seed < 2 ^ 31)%Z ∧
  Forall (λ code, (0 <= code < 65536)%Z) (charCodes seed) ∧
  charCodes "é" = [233%Z] ∧
  charCodes "😀" = [55357%Z; 56832%Z].
Proof.
  assert (seedHash seed
          = toInt32 (foldl (λ h code, 31 * h + code)%Z 0%Z (charCodes seed)))
    as E by (by apply seedHash_from).
  split; [done|]. split; [rewrite E; apply toInt32_range|].
  split; [by eapply utf16_range|]. split; by vm_compute.
Qed.

(** X18. Every video with a seed (its URL) is shown with between 1,000,000
    and 8,399,994 views, whatever the seed; without a seed with none. *)
Theorem views_are_in_the_millions (seed : string) :
  (seed = "" → statsViews seed = 0%Z) ∧
  (seed ≠ "" → (1000000 <= statsViews seed <= 8399994)%Z).
Proof.
  unfold statsViews. split.
  - intros ->. done.
  - intros Hs. rewrite bool_decide_eq_false_2 by done. cbv zeta.
    pose proof (Z.rem_bound_abs (seedHash seed) 900000) as H1.
    pose proof (Z.rem_bound_abs (seedHash seed) 5) as H2.
    assert (Z.abs (Z.rem (seedHash seed) 900000) < 900000)%Z as B1.
    { pose proof (Z.rem_bound_pos (Z.abs (seedHash seed)) 900000).
      rewrite <- Z.rem_abs by lia. change (Z.abs 900000) with 900000%Z.
      lia. }
    assert (Z.abs (Z.rem (seedHash seed) 5) < 5)%Z as B2.
    { pose proof (Z.rem_bound_pos (Z.abs (seedHash seed)) 5).
      rewrite <- Z.rem_abs by lia. change (Z.abs 5) with 5%Z. lia. }
    nia.
Qed.

(** X19. [getNeonColor] always finds a colour: for every id and offset the
    index it computes lies inside the palette. *)
Theorem neon_colour_is_defined (id : string) (indexOffset : nat) :
  ∃ border,
    getNeonColor id indexOffset = Some border ∧ border ∈ COLOR_PALETTE.
Proof.
  unfold getNeonColor. cbv zeta.
  set (hash := neonHash (id +:+ pretty indexOffset)).
  assert (0 <= Z.rem (Z.abs hash) (Z.of_nat (length COLOR_PALETTE))
          < Z.of_nat (length COLOR_PALETTE))%Z as Hi.
  { apply Z.rem_bound_pos; [lia|]. simpl. lia. }
  destruct (lookup_lt_is_Some_2 COLOR_PALETTE
              (Z.to_nat (Z.rem (Z.abs hash)
                 (Z.of_nat (length COLOR_PALETTE))))) as [border Hb]; [lia|].
  exists border. split; [done|]. by eapply list_elem_of_lookup_2.
Qed.

(** ** Pulling the home page down *)

Lemma onTouch_invariant (st : Pull) (touch : Touch) (touches : list Touch) :
  (pullOffset st = 0%Q ∨
   ∃ scroll y0 y,
     TouchStart scroll y0 ∈ touches ∧ (scroll == 0)%Q ∧
     TouchMove y ∈ touches ∧ pullOffset st = (y - y0)%Q ∧
     (0 < y - y0)%Q ∧ (y - y0 < 150)%Q) →
  ((startY st == 0)%Q ∨
   ∃ scroll, TouchStart scroll (startY st) ∈ touches ∧ (scroll == 0)%Q) →
  (pullOffset (onTouch st touch).1 = 0%Q ∨
   ∃ scroll y0 y,
     TouchStart scroll y0 ∈ touches ++ [touch] ∧ (scroll == 0)%Q ∧
     TouchMove y ∈ touches ++ [touch] ∧
     pullOffset (onTouch st touch).1 = (y - y0)%Q ∧
     (0 < y - y0)%Q ∧ (y - y0 < 150)%Q) ∧
  ((startY (onTouch st touch).1 == 0)%Q ∨
   ∃ scroll,
     TouchStart scroll (startY (onTouch st touch).1) ∈ touches ++ [touch] ∧
     (scroll == 0)%Q).
Proof.
  intros Hoff Hstart.
  assert (pullOffset st = 0%Q ∨
          ∃ scroll y0 y,
            TouchStart scroll y0 ∈ touches ++ [touch] ∧ (scroll == 0)%Q ∧
            TouchMove y ∈ touches ++ [touch] ∧ pullOffset st = (y - y0)%Q ∧
            (0 < y - y0)%Q ∧ (y - y0 < 150)%Q) as Hoff'.
  { destruct Hoff as [?|(scroll & y0 & y & ? & ? & ? & ?)]; [by left|].
    right. exists scroll, y0, y. rewrite !elem_of_app. naive_solver. }
  assert ((startY st == 0)%Q ∨
          ∃ scroll, TouchStart scroll (startY st) ∈ touches ++ [touch] ∧
                    (scroll == 0)%Q) as Hstart'.
  { destruct Hstart as [?|(scroll & ? & ?)]; [by left|].
    right. exists scroll. rewrite elem_of_app. naive_solver. }
  destruct touch as [scrollY pageY|pageY|]; simpl.
  - destruct (decide (scrollY == 0)%Q) as [Htop|]; simpl; [|done].
    split; [done|]. right. exists scrollY. split; [|done].
    apply elem_of_app. right. by apply list_elem_of_singleton.
  - destruct (decide (startY st == 0)%Q) as [|Hset]; simpl; [done|].
    destruct (decide ((0 < pageY - startY st)%Q ∧
                      (pageY - startY st < 150)%Q)) as [[H1 H2]|]; simpl;
      [|done].
    split; [|done]. right.
    destruct Hstart' as [?|(scroll & Hs & Htop)]; [done|].
    exists scroll, (startY st), pageY. split; [done|]. split; [done|].
    split; [|done]. apply elem_of_app. right.
    by apply list_elem_of_singleton.
  - split; by left.
Qed.

(** X20. The home page asks for a refresh only when it was pulled: whatever
    touch events arrive, starting from rest, the pull offset is 0 or the
    distance, more than 0 and less than 150 pixels, between a touch that
    started with the page scrolled to its top and a later position of the
    finger; and the end of a touch resets the offset and calls
    [onHardRefresh] exactly if the offset was above 80. *)
Theorem refresh_needs_a_pull (touches : list Touch) :
  let st := afterTouches {| pullOffset := 0; startY := 0 |} touches in
  (pullOffset st = 0%Q ∨
   ∃ scroll y0 y,
     TouchStart scroll y0 ∈ touches ∧ (scroll == 0)%Q ∧
     TouchMove y ∈ touches ∧ pullOffset st = (y - y0)%Q ∧
     (0 < y - y0)%Q ∧ (y - y0 < 150)%Q) ∧
  (0 <= pullOffset st)%Q ∧ (pullOffset st < 150)%Q ∧
  onTouch st TouchEnd
  = ({| pullOffset := 0; startY := 0 |}, bool_decide (80 < pullOffset st)%Q).
Proof.
  intros st.
  assert ((pullOffset st = 0%Q ∨
           ∃ scroll y0 y,
             TouchStart scroll y0 ∈ touches ∧ (scroll == 0)%Q ∧
             TouchMove y ∈ touches ∧ pullOffset st = (y - y0)%Q ∧
             (0 < y - y0)%Q ∧ (y - y0 < 150)%Q) ∧
          ((startY st == 0)%Q ∨
           ∃ scroll, TouchStart scroll (startY st) ∈ touches ∧
                     (scroll == 0)%Q)) as [Hoff _].
  { subst st. induction touches as [|touch touches IH] using rev_ind.
    - split; by left.
    - unfold afterTouches in *. rewrite foldl_app. simpl.
      destruct IH as [H1 H2]. by apply onTouch_invariant. }
  split; [done|]. split; [|split; [|done]].
  - destruct Hoff as [->|(_ & y0 & y & _ & _ & _ & -> & ? & ?)]; lra.
  - destruct Hoff as [->|(_ & y0 & y & _ & _ & _ & -> & ? & ?)]; lra.
Qed.

(** ** The carousel: what a reset does to the offset *)

(** X21. A reset of [animate] moves the offset by a third of the content
    width: a forward reset takes exactly a third off the offset the frame
    has advanced to; a backward reset adds exactly a third where the scroll
    range has room for it and otherwise stops at the end of the range.  In
    every other frame [animate] only advances. *)
Theorem reset_moves_by_a_third (container : Container) (speed : Q) :
  (0 < scrollWidth container)%Q →
  let before := advanced speed container in
  let third := (scrollWidth container / 3)%Q in
  let room := (scrollWidth container - clientWidth container)%Q in
  ((0 < speed)%Q → (third * 2 <= scrollLeft before)%Q →
   (scrollLeft (animate false speed container)
    == scrollLeft before - third)%Q) ∧
  ((speed < 0)%Q → (scrollLeft before <= 10)%Q →
   ((scrollLeft before + third <= room)%Q →
    (scrollLeft (animate false speed container)
     == scrollLeft before + third)%Q) ∧
   ((room < scrollLeft before + third)%Q →
    (scrollLeft (animate false speed container) == Qmax 0 room)%Q)) ∧
  (¬ ((0 < speed)%Q ∧ (third * 2 <= scrollLeft before)%Q) →
   ¬ ((speed < 0)%Q ∧ (scrollLeft before <= 10)%Q) →
   animate false speed container = before).
Proof.
  intros Hsw before third room.
  split; [|split].
  - intros Hspeed Hwrap. by apply animate_forward_reset.
  - intros Hspeed Hedge.
    assert (scrollLeft (animate false speed container)
            == Qmax 0 (Qmin (scrollLeft before + third) room))%Q as E.
    { unfold animate. fold (advanced speed container). fold before.
      assert (scrollWidth before = scrollWidth container) as -> by done.
      fold third.
      destruct (decide (0 < scrollWidth container)%Q); [|done].
      destruct (decide ((0 < speed)%Q ∧ (third * 2 <= scrollLeft before)%Q))
        as [[? _]|_]; [lra|].
      destruct (decide ((speed < 0)%Q ∧ (scrollLeft before <= 10)%Q))
        as [_|Hn]; [|by destruct Hn].
      reflexivity. }
    assert (0 <= scrollLeft before)%Q as Hpos by apply Q.le_max_l.
    assert (0 < third)%Q as Hthird.
    { subst third. apply Qlt_shift_div_l; lra. }
    clearbody third room.
    split; intros Hroom; rewrite E.
    + rewrite Q.min_l by done. rewrite Q.max_r; [reflexivity|lra].
    + rewrite Q.min_r; [reflexivity|lra].
  - intros Hf Hb. unfold animate. fold (advanced speed container).
    fold before.
    assert (scrollWidth before = scrollWidth container) as -> by done.
    fold third.
    destruct (decide (0 < scrollWidth container)%Q); [|done].
    destruct (decide ((0 < speed)%Q ∧ (third * 2 <= scrollLeft before)%Q));
      [done|].
    by destruct (decide ((speed < 0)%Q ∧ (scrollLeft before <= 10)%Q)).
Qed.

Lemma reset_moves_by_a_third_witness :
  (scrollLeft (animate false 0.8 fiveBeforeWrap)
   == scrollLeft (advanced 0.8 fiveBeforeWrap)
      - scrollWidth fiveBeforeWrap / 3)%Q.
Proof.
  assert (0 < scrollWidth fiveBeforeWrap)%Q as Hsw by (by vm_compute).
  pose proof (reset_moves_by_a_third fiveBeforeWrap 0.8 Hsw) as T.
  cbv zeta in T. destruct T as (T & _).
  apply T; by vm_compute.
Defined.

(** ** The carousel: a strip that is short for its viewport *)

Lemma animate_without_room (container : Container) (speed : Q) :
  (0 < speed)%Q →
  (scrollWidth container / 3 < clientWidth container)%Q →
  animate false speed container = advanced speed container.
Proof.
  intros Hspeed Hshort. unfold animate. fold (advanced speed container).
  assert (scrollWidth (advanced speed container) = scrollWidth container)
    as Hsw by done.
  rewrite Hsw.
  destruct (decide (0 < scrollWidth container)%Q) as [Hpos|]; [|done].
  set (third := (scrollWidth container / 3)%Q) in *.
  assert (third * 3 == scrollWidth container)%Q as Hthird
    by (subst third; field).
  assert (scrollLeft (advanced speed container)
          == Qmax 0 (Qmin (scrollLeft container + speed)
                       (scrollWidth container - clientWidth container)))%Q
    as Hleft by done.
  clearbody third.
  destruct (decide ((0 < speed)%Q ∧
                    (third * 2 <= scrollLeft (advanced speed container))%Q))
    as [[_ Hwrap]|_].
  - exfalso. rewrite Hleft in Hwrap.
    destruct (Q.max_spec 0 (Qmin (scrollLeft container + speed)
                (scrollWidth container - clientWidth container)))
      as [[_ E]|[_ E]]; rewrite E in Hwrap; [|lra].
    pose proof (Q.le_min_r (scrollLeft container + speed)
                  (scrollWidth container - clientWidth container)).
    lra.
  - destruct (decide ((speed < 0)%Q ∧
                      (scrollLeft (advanced speed container) <= 10)%Q))
      as [[Hneg _]|_]; [lra|done].
Qed.

(** [animate] writes [scrollLeft] only. *)
Lemma animate_keeps_widths (isDragging : bool) (speed : Q)
    (container : Container) :
  scrollWidth (animate isDragging speed container) = scrollWidth container ∧
  clientWidth (animate isDragging speed container) = clientWidth container.
Proof.
  unfold animate. destruct isDragging; [done|].
  repeat match goal with
         | |- context [if ?d then _ else _] => destruct d
         end; done.
Qed.

Lemma frames_keep_widths (n : nat) (speed : Q) (container : Container) :
  scrollWidth (frames n speed container) = scrollWidth container ∧
  clientWidth (frames n speed container) = clientWidth container.
Proof.
  induction n as [|n [IH1 IH2]]; [done|].
  unfold frames in *. cbn [Nat.iter].
  rewrite <- IH1, <- IH2. apply animate_keeps_widths.
Qed.

(** Advancing inside the scroll range adds up. *)
Lemma clamped_advance (x kv kv1 v room : Q) :
  (0 <= x)%Q → (0 < v)%Q → (0 <= kv)%Q → (kv1 == kv + v)%Q →
  (Qmax 0 (Qmin (Qmax 0 (Qmin (x + kv) room) + v) room)
   == Qmax 0 (Qmin (x + kv1) room))%Q.
Proof.
  intros Hx Hv Hkv Hkv1.
  pose proof (Q.min_spec (x + kv) room) as Sa.
  set (a := Qmin (x + kv) room) in *. clearbody a.
  pose proof (Q.max_spec 0 a) as Sb.
  set (b := Qmax 0 a) in *. clearbody b.
  pose proof (Q.min_spec (b + v) room) as Sc.
  set (c := Qmin (b + v) room) in *. clearbody c.
  pose proof (Q.max_spec 0 c) as Sd.
  set (d := Qmax 0 c) in *. clearbody d.
  pose proof (Q.min_spec (x + kv1) room) as Se.
  set (e := Qmin (x + kv1) room) in *. clearbody e.
  pose proof (Q.max_spec 0 e) as Sf.
  set (f := Qmax 0 e) in *. clearbody f.
  destruct Sa as [[? ?]|[? ?]], Sb as [[? ?]|[? ?]], Sc as [[? ?]|[? ?]],
    Sd as [[? ?]|[? ?]], Se as [[? ?]|[? ?]], Sf as [[? ?]|[? ?]]; lra.
Qed.

(** X22. A strip whose viewport is wider than a third of its content never
    wraps forward: the offset at which [animate] would reset lies beyond the
    end of the scroll range.  Each frame only advances, and after [n] frames
    the strip stands at its start offset plus [n] times the speed or, once
    that exceeds the scroll range, at the end of the range, where it
    stays. *)
Theorem short_strip_runs_to_its_end (container : Container) (speed : Q)
    (n : nat) :
  (0 < speed)%Q → (0 <= scrollLeft container)%Q →
  (scrollWidth container / 3 < clientWidth container)%Q →
  animate false speed (frames n speed container)
  = advanced speed (frames n speed container) ∧
  (scrollLeft (frames (S n) speed container)
   == Qmax 0 (Qmin (scrollLeft container + inject_Z (Z.of_nat (S n)) * speed)
                (scrollWidth container - clientWidth container)))%Q.
Proof.
  intros Hspeed Hstart Hshort.
  assert (∀ m, animate false speed (frames m speed container)
               = advanced speed (frames m speed container)) as Hstep.
  { intros m. apply animate_without_room; [done|].
    by destruct (frames_keep_widths m speed container) as [-> ->]. }
  split; [apply Hstep|].
  induction n as [|n IH].
  - change (frames 1 speed container)
      with (animate false speed (frames 0 speed container)).
    rewrite (Hstep 0%nat). change (frames 0 speed container) with container.
    unfold advanced, setScrollLeft. cbn [scrollLeft].
    change (inject_Z (Z.of_nat 1)) with 1%Q. by rewrite Qmult_1_l.
  - change (frames (S (S n)) speed container)
      with (animate false speed (frames (S n) speed container)).
    rewrite (Hstep (S n)). unfold advanced, setScrollLeft at 1.
    cbn [scrollLeft].
    destruct (frames_keep_widths (S n) speed container) as [-> ->].
    rewrite IH. apply clamped_advance; [done|done| |].
    + apply Qmult_le_0_compat; [|lra]. rewrite <- (Zle_Qle 0). lia.
    + rewrite (Nat2Z.inj_succ (S n)), <- Z.add_1_r, inject_Z_plus.
      change (inject_Z 1) with 1%Q. ring.
Qed.

Lemma short_strip_runs_to_its_end_witness :
  animate false 0.8 (frames 299 0.8 oneShortStrip)
  = advanced 0.8 (frames 299 0.8 oneShortStrip) ∧
  (scrollLeft (frames 300 0.8 oneShortStrip)
   == Qmax 0 (Qmin (scrollLeft oneShortStrip
                    + inject_Z (Z.of_nat 300) * 0.8)
                (scrollWidth oneShortStrip - clientWidth oneShortStrip)))%Q.
Proof.
  apply (short_strip_runs_to_its_end oneShortStrip 0.8 299); by vm_compute.
Defined.

(** The single Short of the example has run to the end of its range, 186
    pixels, after 300 frames and stands there after 600. *)
Lemma one_short_stops :
  (scrollLeft (frames 300 0.8 oneShortStrip) == 186)%Q ∧
  (scrollLeft (frames 600 0.8 oneShortStrip) == 186)%Q.
Proof. split; by vm_compute. Qed.

(** ** The preview cache: what warming does to the store *)

Ltac nothing_added :=
  exists []; rewrite app_nil_r; split; [reflexivity|simpl; lia].

(** A request leaves the entries of the store in place and adds at most one
    behind them. *)
Lemma preloadVideoChunk_appends (world : World) (url : string)
    (cache : Cache) :
  ∃ added,
    (preloadVideoChunk world url cache).2 = cache ++ added ∧
    length added ≤ 1.
Proof.
  unfold preloadVideoChunk.
  destruct (notHttp url); [nothing_added|].
  unfold tryCatch, andThen.
  destruct (decide (url ∈ keys cache)) as [Hin|Hout].
  - destruct (proj1 (cache_match_found url cache) Hin) as [r ->].
    nothing_added.
  - rewrite (proj2 (cache_match_found url cache) Hout).
    unfold fetch. destruct (network world url) as [response|];
      [|nothing_added].
    unfold resolve.
    destruct (ok response || (status response =? 206)%Z);
      [|nothing_added].
    unfold cache_put.
    destruct (status response =? 206)%Z; [nothing_added|].
    destruct (storeAccepts world url); [|nothing_added].
    cbn [snd]. exists [(url, response)]. split; [|simpl; lia].
    f_equal. apply filter_all, Forall_forall.
    intros e He <-. apply Hout. unfold keys.
    by apply list_elem_of_fmap_2.
Qed.

Lemma allSettled_appends (world : World) (queue : list Video) :
  ∀ cache : Cache,
    ∃ added,
      (allSettled
         ((λ video,
             if bool_decide (video_url video ≠ "")
             then preloadVideoChunk world (video_url video)
             else resolve false) <$> queue) cache).2
      = cache ++ added ∧
      length added ≤ length queue.
Proof.
  induction queue as [|video queue IH]; intros cache.
  - nothing_added.
  - rewrite fmap_cons. cbn [allSettled length].
    assert (∃ added,
              ((if bool_decide (video_url video ≠ "")
                then preloadVideoChunk world (video_url video)
                else resolve false) cache).2 = cache ++ added ∧
              length added ≤ 1) as (added1 & E1 & L1).
    { destruct (bool_decide (video_url video ≠ ""));
        [apply preloadVideoChunk_appends|].
      nothing_added. }
    destruct ((if bool_decide (video_url video ≠ "")
               then preloadVideoChunk world (video_url video)
               else resolve false) cache) as [outcome cache1].
    cbn [snd] in E1. subst cache1.
    destruct (IH (cache ++ added1)) as (added2 & E2 & L2).
    destruct (allSettled_preloads world queue (cache ++ added1))
      as (outcomes & cache2 & E & _).
    unfold andThen. rewrite E in *. cbn [snd] in *. subst cache2.
    exists (added1 ++ added2). rewrite length_app, app_assoc.
    split; [done|lia].
Qed.

(** What a warm-up returns and stores. *)
Lemma initSmartBuffering_settles (world : World) (videos : list Video)
    (cache : Cache) :
  ∃ cache',
    initSmartBuffering world videos cache = (Fulfilled tt, cache') ∧
    (∀ url, url ∈ keys cache' ↔
       url ∈ keys cache ∨
       (onLine world = true ∧
        ∃ v, v ∈ take 5 videos ∧ video_url v = url ∧ succeeds world url)) ∧
    ∃ added, cache' = cache ++ added ∧ length added ≤ 5.
Proof.
  unfold initSmartBuffering.
  destruct (onLine world) eqn:Hon; cbn [negb orb].
  2:{ exists cache. split; [done|]. split.
      - intros url. split; [by left|]. by intros [?|[? _]].
      - exists []. rewrite app_nil_r. split; [done|simpl; lia]. }
  destruct (bool_decide (videos = [])) eqn:Hempty.
  { apply bool_decide_eq_true in Hempty as ->. exists cache.
    split; [done|]. split.
    - intros url. split; [by left|].
      intros [?|[_ (v & Hv & _)]]; [done|]. by inversion Hv.
    - exists []. rewrite app_nil_r. split; [done|simpl; lia]. }
  destruct (allSettled_preloads world (take 5 videos) cache)
    as (outcomes & cache' & E & Hkeys).
  destruct (allSettled_appends world (take 5 videos) cache)
    as (added & Ea & La).
  exists cache'. unfold andThen. rewrite E in *. cbn [snd] in Ea.
  split; [done|]. split.
  - intros url. rewrite Hkeys. split.
    + intros [?|?]; [by left|by right].
    + intros [?|[_ ?]]; [by left|by right].
  - exists added. split; [done|]. rewrite length_take in La. lia.
Qed.

(** X23. Warming only appends: whatever the list, the network and the store,
    the entries the store held are afterwards still there, unchanged and in
    their order, followed by at most five new entries; a URL that was
    stored is answered with the same response as before. *)
Theorem warming_only_appends (world : World) (videos : list Video)
    (cache : Cache) :
  ∃ added,
    (initSmartBuffering world videos cache).2 = cache ++ added ∧
    length added ≤ 5 ∧
    (∀ url, url ∈ keys cache →
       (cache_match url (cache ++ added)).1 = (cache_match url cache).1).
Proof.
  destruct (initSmartBuffering_settles world videos cache)
    as (cache' & E & _ & added & -> & Hlen).
  exists added. rewrite E. split; [done|]. split; [done|].
  intros url Hin. unfold cache_match. cbn [fst].
  destruct (list_find (λ e, e.1 = url) cache) as [[i e]|] eqn:Hf.
  - by erewrite list_find_app_l.
  - apply list_find_None in Hf. rewrite Forall_forall in Hf.
    unfold keys in Hin. apply list_elem_of_fmap in Hin as (e & -> & He).
    by destruct (Hf e He).
Qed.

Lemma cleanUpOldCache_result (cache : Cache) :
  NoDup (keys cache) →
  cleanUpOldCache cache
  = (Fulfilled tt,
     if (50 <? length cache)%nat then drop (length cache - 20) cache
     else cache).
Proof.
  intros Hnd. unfold cleanUpOldCache, tryCatch, andThen, cache_keys.
  unfold keys at 1 2. rewrite length_fmap.
  destruct (50 <? length cache)%nat; [|done].
  fold (keys cache). by rewrite deleteEach_oldest.
Qed.

(** X24. A cleanup that follows a warm-up does not evict what the warm-up
    has just stored: on a store with one entry for a URL, every URL that
    warming added is still in the store after [cleanUpOldCache], and the
    store then holds at most 50 entries. *)
Theorem fresh_previews_survive_cleanup (world : World)
    (videos : list Video) (cache : Cache) :
  NoDup (keys cache) →
  let warmed := (initSmartBuffering world videos cache).2 in
  let cleaned := (cleanUpOldCache warmed).2 in
  (∀ url, url ∈ keys warmed → url ∉ keys cache → url ∈ keys cleaned) ∧
  length cleaned ≤ 50.
Proof.
  intros Hnd warmed cleaned.
  pose proof (initSmartBuffering_keeps_distinct world videos cache Hnd)
    as Hnd'.
  destruct (initSmartBuffering_settles world videos cache)
    as (cache' & E & _ & added & -> & Hlen).
  subst warmed cleaned. rewrite E in *. cbn [snd] in *.
  rewrite (cleanUpOldCache_result _ Hnd'). cbn [snd].
  destruct (50 <? length (cache ++ added))%nat eqn:Hbig.
  - apply Nat.ltb_lt in Hbig. rewrite length_app in *.
    split; [|rewrite length_drop, length_app; lia].
    intros url Hin Hout. unfold keys in *.
    rewrite fmap_app, elem_of_app in Hin. destruct Hin as [?|Hin]; [done|].
    rewrite drop_app_le by lia. rewrite fmap_app, elem_of_app. by right.
  - apply Nat.ltb_ge in Hbig. split; [done|lia].
Qed.

Lemma fresh_previews_survive_cleanup_witness :
  (∀ url,
     url ∈ keys (initSmartBuffering thirdFails fiveVideos fullStore).2 →
     url ∉ keys fullStore →
     url ∈ keys (cleanUpOldCache
                   (initSmartBuffering thirdFails fiveVideos fullStore).2).2) ∧
  length (cleanUpOldCache
            (initSmartBuffering thirdFails fiveVideos fullStore).2).2 ≤ 50.
Proof.
  apply (fresh_previews_survive_cleanup thirdFails fiveVideos fullStore).
  apply (bool_decide_unpack _). by vm_compute.
Defined.

(** ** Refreshing the feed *)

Lemma ranking_is_rearrangement (userInterests : list string)
    (videos : list Video) (ux : UserInteractions) (s : RandomSource) :
  (applySmartRecommendations userInterests videos ux s).1 ≡ₚ videos.
Proof.
  destruct (ranked_split userInterests ux videos s)
    as (us & ss & E & Hu & Hs).
  by destruct (split_gives_order ux videos _ us ss E Hu Hs) as (Hp & _).
Qed.

(** X25. A refresh that is not held back by one under way shows the new
    ranking of the raw videos and leaves the store with what it held and the
    previews of those of the first eight videos of the new order whose
    request succeeded; off line it stores nothing.  While a refresh is under
    way, a further one changes neither the display nor the store. *)
Theorem refresh_warms_the_first_eight (world : World)
    (userInterests : list string) (rawVideos : list Video)
    (interactions : UserInteractions) (s : RandomSource) (cache : Cache) :
  (∃ newOrder cache',
     handleManualRefresh world userInterests false rawVideos interactions s
       cache = (Fulfilled (Some newOrder), cache') ∧
     newOrder
     = (applySmartRecommendations userInterests rawVideos interactions s).1 ∧
     newOrder ≡ₚ rawVideos ∧
     ∀ url, url ∈ keys cache' ↔
       url ∈ keys cache ∨
       (onLine world = true ∧
        ∃ v, v ∈ take 8 newOrder ∧ video_url v = url ∧
             succeeds world url)) ∧
  handleManualRefresh world userInterests true rawVideos interactions s cache
  = (Fulfilled None, cache).
Proof.
  split; [|done].
  unfold handleManualRefresh.
  pose proof (ranking_is_rearrangement userInterests rawVideos interactions s)
    as Hperm.
  set (newOrder :=
         (applySmartRecommendations userInterests rawVideos interactions s).1)
    in *.
  clearbody newOrder.
  assert (∀ videos cache0, ∃ cache1,
            initSmartBuffering world videos cache0 = (Fulfilled tt, cache1) ∧
            ∀ url, url ∈ keys cache1 ↔
              url ∈ keys cache0 ∨
              (onLine world = true ∧
               ∃ v, v ∈ take 5 videos ∧ video_url v = url ∧
                    succeeds world url)) as Hwarm.
  { intros videos cache0.
    destruct (initSmartBuffering_settles world videos cache0)
      as (cache1 & E & Hk & _). by exists cache1. }
  assert (∃ cache1,
            (if (0 <? length newOrder)%nat
             then initSmartBuffering world (slice 0 3 newOrder)
             else resolve tt) cache = (Fulfilled tt, cache1) ∧
            ∀ url, url ∈ keys cache1 ↔
              url ∈ keys cache ∨
              (onLine world = true ∧
               ∃ v, v ∈ take 3 newOrder ∧ video_url v = url ∧
                    succeeds world url)) as (cache1 & E1 & K1).
  { destruct (0 <? length newOrder)%nat eqn:Hlen.
    - destruct (Hwarm (slice 0 3 newOrder) cache) as (cache1 & E & Hk).
      exists cache1. split; [done|]. intros url. rewrite Hk.
      unfold slice. rewrite drop_0, take_take. done.
    - apply Nat.ltb_ge in Hlen.
      assert (newOrder = []) as -> by (apply length_zero_iff_nil; lia).
      exists cache. split; [done|]. intros url. split; [by left|].
      intros [?|[_ (v & Hv & _)]]; [done|]. by inversion Hv. }
  assert (∃ cache2,
            (if (3 <? length newOrder)%nat
             then initSmartBuffering world (slice 3 8 newOrder)
             else resolve tt) cache1 = (Fulfilled tt, cache2) ∧
            ∀ url, url ∈ keys cache2 ↔
              url ∈ keys cache1 ∨
              (onLine world = true ∧
               ∃ v, v ∈ take 5 (drop 3 newOrder) ∧ video_url v = url ∧
                    succeeds world url)) as (cache2 & E2 & K2).
  { destruct (3 <? length newOrder)%nat eqn:Hlen.
    - destruct (Hwarm (slice 3 8 newOrder) cache1) as (cache2 & E & Hk).
      exists cache2. split; [done|]. intros url. rewrite Hk.
      unfold slice. by rewrite take_take.
    - apply Nat.ltb_ge in Hlen. rewrite drop_ge by lia.
      exists cache1. split; [done|]. intros url. split; [by left|].
      intros [?|[_ (v & Hv & _)]]; [done|]. by inversion Hv. }
  exists newOrder, cache2. unfold andThen. rewrite E1, E2.
  split; [done|]. split; [done|]. split; [done|].
  intros url. rewrite K2, K1.
  change 8 with (3 + 5). rewrite <- (take_take_drop newOrder 3 5).
  setoid_rewrite elem_of_app. naive_solver.
Qed.

(** ** The preview cache: the store under warm-up and cleanup *)

Lemma handleManualRefresh_keeps_distinct (world : World)
    (userInterests : list string) (isRefreshing : bool)
    (rawVideos : list Video) (interactions : UserInteractions)
    (s : RandomSource) (cache : Cache) :
  NoDup (keys cache) →
  NoDup (keys (handleManualRefresh world userInterests isRefreshing rawVideos
                 interactions s cache).2).
Proof.
  intros Hnd. unfold handleManualRefresh.
  destruct isRefreshing; [done|]. cbv zeta.
  set (newOrder :=
         (applySmartRecommendations userInterests rawVideos interactions s).1).
  clearbody newOrder.
  assert (∀ videos cache0, NoDup (keys cache0) →
            ∃ cache1, initSmartBuffering world videos cache0
                      = (Fulfilled tt, cache1) ∧ NoDup (keys cache1))
    as Hwarm.
  { intros videos cache0 H0.
    pose proof (initSmartBuffering_keeps_distinct world videos cache0 H0)
      as H1.
    destruct (initSmartBuffering_settles world videos cache0)
      as (cache1 & E & _). rewrite E in H1. by exists cache1. }
  unfold andThen.
  assert (∃ cache1,
            (if (0 <? length newOrder)%nat
             then initSmartBuffering world (slice 0 3 newOrder)
             else resolve tt) cache = (Fulfilled tt, cache1) ∧
            NoDup (keys cache1)) as (cache1 & -> & H1).
  { destruct (0 <? length newOrder)%nat; [by apply Hwarm|by exists cache]. }
  assert (∃ cache2,
            (if (3 <? length newOrder)%nat
             then initSmartBuffering world (slice 3 8 newOrder)
             else resolve tt) cache1 = (Fulfilled tt, cache2) ∧
            NoDup (keys cache2)) as (cache2 & -> & H2).
  { destruct (3 <? length newOrder)%nat; [by apply Hwarm|by exists cache1]. }
  done.
Qed.

(** X26. The cache code keeps one entry per URL: a store without repeated
    URLs is one after a warm-up, after a cleanup and after a refresh.  A
    cleanup that runs directly after a cleanup changes nothing. *)
Theorem store_keeps_one_entry_per_url (world : World)
    (userInterests : list string) (videos : list Video)
    (interactions : UserInteractions) (s : RandomSource) (cache : Cache) :
  NoDup (keys cache) →
  NoDup (keys (initSmartBuffering world videos cache).2) ∧
  NoDup (keys (cleanUpOldCache cache).2) ∧
  NoDup (keys (handleManualRefresh world userInterests false videos
                 interactions s cache).2) ∧
  cleanUpOldCache (cleanUpOldCache cache).2
  = (Fulfilled tt, (cleanUpOldCache cache).2).
Proof.
  intros Hnd.
  split; [by apply initSmartBuffering_keeps_distinct|].
  split; [by apply cleanUpOldCache_keeps_distinct|].
  split; [by apply handleManualRefresh_keeps_distinct|].
  pose proof (cleanUpOldCache_keeps_distinct cache Hnd) as Hnd'.
  rewrite (cleanUpOldCache_result _ Hnd').
  rewrite (cleanUpOldCache_result _ Hnd) in *. cbn [snd] in *.
  destruct (50 <? length cache)%nat eqn:Hbig.
  - apply Nat.ltb_lt in Hbig.
    assert ((50 <? length (drop (length cache - 20) cache))%nat = false)
      as -> by (apply Nat.ltb_ge; rewrite length_drop; lia).
    done.
  - by rewrite Hbig.
Qed.

Lemma store_keeps_one_entry_per_url_witness :
  NoDup (keys (initSmartBuffering thirdFails fiveVideos fullStore).2) ∧
  NoDup (keys (cleanUpOldCache fullStore).2) ∧
  NoDup (keys (handleManualRefresh thirdFails [] false fiveVideos
                 noInteractions halves fullStore).2) ∧
  cleanUpOldCache (cleanUpOldCache fullStore).2
  = (Fulfilled tt, (cleanUpOldCache fullStore).2).
Proof.
  apply (store_keeps_one_entry_per_url thirdFails [] fiveVideos
           noInteractions halves fullStore).
  apply (bool_decide_unpack _). by vm_compute.
Defined.

(** ** The preview cache: every request returns *)

(** X27. A request of a warm-up has at most four awaits before it - the
    opening of the cache, the look into it, the fetch and the write - and
    each turn it is given takes it past one of them: under every schedule
    that gives each of the requests four turns, in whatever order, all of
    them have returned.  Three turns are not enough for a request that
    stores. *)
Theorem requests_return_within_four_turns (world : World)
    (videos : list Video) (cache : Cache) (schedule : list nat) :
  (∀ i, i < length (started world videos) →
        4 ≤ length (filter (λ j, j = i) schedule)) →
  Forall hasReturned
    (interleave world schedule (started world videos) cache).1 ∧
  ¬ Forall hasReturned
      (interleave thirdFails [0; 0; 0] (started thirdFails fiveVideos) []).1.
Proof.
  intros Hturns. split.
  - apply Forall_lookup. intros i request' Hi.
    destruct (interleave_advances world _ _ _ _ _ Hi)
      as (request & Hr & Hle).
    assert (i < length (started world videos)) as Hlt
      by (by eapply lookup_lt_Some).
    specialize (Hturns i Hlt).
    assert (awaitsLeft request ≤ 4) by (destruct request; simpl; lia).
    destruct request'; simpl in Hle; (done || lia).
  - intros Hall. apply Forall_cons in Hall as [Hfirst _]. exact Hfirst.
Qed.

Lemma requests_return_within_four_turns_witness :
  Forall hasReturned
    (interleave thirdFails backwards (started thirdFails fiveVideos) []).1.
Proof.
  apply (requests_return_within_four_turns thirdFails fiveVideos []
           backwards).
  intros i Hi. change (length (started thirdFails fiveVideos)) with 5 in Hi.
  do 5 (destruct i as [|i]; [vm_compute; lia|]). lia.
Defined.

(** ** The preview cache: a server that honours the range *)

(** A request that is answered with status 206, if at all, leaves the store
    as it is: it returns [true] for a URL the store holds and [false]
    otherwise. *)
Lemma preloadVideoChunk_range (world : World) (url : string)
    (cache : Cache) :
  (∀ response, network world url = Some response →
     status response = 206%Z) →
  preloadVideoChunk world url cache
  = (Fulfilled (negb (notHttp url) && bool_decide (url ∈ keys cache)),
     cache).
Proof.
  intros Hrange. unfold preloadVideoChunk.
  destruct (notHttp url) eqn:Hh; [done|].
  unfold tryCatch, andThen.
  destruct (cache_match_found url cache) as [Hhit Hmiss].
  destruct (decide (url ∈ keys cache)) as [Hin|Hout].
  { destruct (Hhit Hin) as [r ->]. by rewrite bool_decide_eq_true_2. }
  rewrite (Hmiss Hout), bool_decide_eq_false_2 by done. unfold fetch.
  destruct (network world url) as [response|] eqn:Hn; [|done].
  unfold resolve at 1. unfold cache_put, ok.
  by rewrite (Hrange response eq_refl).
Qed.

Lemma allSettled_range (world : World) (queue : list Video)
    (cache : Cache) :
  (∀ url response, network world url = Some response →
     status response = 206%Z) →
  ∃ outcomes,
    allSettled
      ((λ video,
          if bool_decide (video_url video ≠ "")
          then preloadVideoChunk world (video_url video)
          else resolve false) <$> queue) cache
    = (Fulfilled outcomes, cache).
Proof.
  intros Hrange. induction queue as [|video queue IH].
  { by exists []. }
  rewrite fmap_cons. cbn [allSettled].
  destruct IH as [outcomes E].
  destruct (bool_decide (video_url video ≠ "")).
  - rewrite (preloadVideoChunk_range world (video_url video) cache
               (Hrange (video_url video))).
    unfold andThen. rewrite E. by eexists.
  - unfold resolve at 1. unfold andThen. rewrite E. by eexists.
Qed.

(** X29. A range answer is never stored.  [preloadVideoChunk] asks for the
    first megabyte with a [Range] header and goes on to [cache.put] when the
    status is 206, but the cache rejects a response of that status; the
    [catch] turns the rejection into [false].  So when every answer of the
    network has status 206, a request for a URL the store does not hold
    returns [false], and the warm-up returns with the store as it found
    it. *)
Theorem range_answers_are_never_stored (world : World)
    (videos : list Video) (cache : Cache) :
  (∀ url response, network world url = Some response →
     status response = 206%Z) →
  initSmartBuffering world videos cache = (Fulfilled tt, cache) ∧
  ∀ url, url ∉ keys cache →
    preloadVideoChunk world url cache = (Fulfilled false, cache).
Proof.
  intros Hrange. split.
  - unfold initSmartBuffering.
    destruct (negb (onLine world) || bool_decide (videos = [])); [done|].
    cbv zeta. unfold andThen.
    by destruct (allSettled_range world (take 5 videos) cache Hrange)
      as [outcomes ->].
  - intros url Hout.
    rewrite (preloadVideoChunk_range world url cache (Hrange url)).
    by rewrite bool_decide_eq_false_2, andb_false_r.
Qed.

Lemma range_answers_are_never_stored_witness :
  initSmartBuffering rangeServer fiveVideos [] = (Fulfilled tt, []) ∧
  preloadVideoChunk rangeServer (video_url (short "v1")) []
  = (Fulfilled false, []).
Proof.
  destruct (range_answers_are_never_stored rangeServer fiveVideos [])
    as [Hwarm Hone].
  - intros url response Hanswer. vm_compute in Hanswer.
    by injection Hanswer as <-.
  - split; [exact Hwarm|]. apply Hone. by intros Hin%elem_of_nil.
Defined.

(** ** The older preview cache *)

Lemma legacy_request (world : World) (bodyReads : string → bool)
    (url : string) (cache : Cache) :
  notHttp url = false →
  ∃ cache1,
    tryCatch
      (await response := fetch world url in
       if ok response || (status response =? 206)%Z then
         await _ := LegacyCache.blob bodyReads url in
         await _ := cache_put world url LegacyCache.newResponse in
         resolve tt
       else resolve tt)
      (resolve tt) cache
    = (Fulfilled tt, cache1) ∧
    ((LegacyCache.succeeds world url ∧ bodyReads url = true ∧
      cache1 = filter (λ e, e.1 ≠ url) cache
               ++ [(url, LegacyCache.newResponse)]) ∨
     (¬ (LegacyCache.succeeds world url ∧ bodyReads url = true) ∧ cache1 = cache)).
Proof.
  intros Hhttp. unfold tryCatch, andThen, fetch, LegacyCache.succeeds.
  destruct (network world url) as [response|] eqn:Hnet.
  2:{ exists cache. split; [done|]. right. split; [|done].
      by intros [(_ & r & ? & _) _]. }
  unfold resolve.
  destruct (ok response || (status response =? 206)%Z) eqn:Hok.
  2:{ exists cache. split; [done|]. right. split; [|done].
      intros [(_ & r & [= <-] & Hr & _) _]. congruence. }
  unfold LegacyCache.blob. destruct (bodyReads url) eqn:Hbody.
  2:{ unfold throw. exists cache. split; [done|]. right. split; [|done].
      by intros [_ ?]. }
  unfold resolve, cache_put. destruct (storeAccepts world url) eqn:Hput.
  - eexists. split; [done|]. left.
    split; [|done]. split; [done|]. by exists response.
  - exists cache. split; [done|]. right. split; [|done].
    intros [(_ & r & _ & _ & ?) _]. congruence.
Qed.

Lemma legacy_bufferNext (world : World) (bodyReads : string → bool)
    (queue : list Video) :
  ∀ cache : Cache,
    ∃ cache',
      LegacyCache.bufferNext world bodyReads queue cache
      = (Fulfilled tt, cache') ∧
      (∀ url, url ∈ keys cache' ↔
         url ∈ keys cache ∨
         ∃ v, v ∈ queue ∧ video_url v = url ∧ LegacyCache.succeeds world url ∧
              bodyReads url = true) ∧
      (∀ e, e ∈ cache' →
         e ∈ cache ∨
         (e.2 = LegacyCache.newResponse ∧
          ∃ v, v ∈ queue ∧ video_url v = e.1)) ∧
      (∀ v e, v ∈ queue → LegacyCache.succeeds world (video_url v) →
         bodyReads (video_url v) = true →
         e ∈ cache' → e.1 = video_url v → e.2 = LegacyCache.newResponse).
Proof.
  induction queue as [|video rest IH]; intros cache.
  { exists cache. split; [done|]. split; [|split].
    - intros url. split; [by left|]. intros [?|(v & Hv & _)]; [done|].
      by inversion Hv.
    - intros e ?. by left.
    - intros v e Hv. by inversion Hv. }
  cbn [LegacyCache.bufferNext].
  assert (∃ cache1,
    (if notHttp (video_url video)
     then resolve tt
     else
       tryCatch
         (await response := fetch world (video_url video) in
          if ok response || (status response =? 206)%Z then
            await _ := LegacyCache.blob bodyReads (video_url video) in
            await _ := cache_put world (video_url video)
                         LegacyCache.newResponse in
            resolve tt
          else resolve tt)
         (resolve tt)) cache = (Fulfilled tt, cache1) ∧
    ((LegacyCache.succeeds world (video_url video) ∧
      bodyReads (video_url video) = true ∧
      cache1 = filter (λ e, e.1 ≠ video_url video) cache
               ++ [(video_url video, LegacyCache.newResponse)]) ∨
     (¬ (LegacyCache.succeeds world (video_url video) ∧
         bodyReads (video_url video) = true) ∧ cache1 = cache)))
    as (cache1 & E1 & Hc1).
  { destruct (notHttp (video_url video)) eqn:Hhttp.
    - exists cache. split; [done|]. right. split; [|done].
      intros [[? _] _]. congruence.
    - by apply legacy_request. }
  destruct (IH cache1) as (cache' & E & Hkeys & Hfrom & Hnew).
  exists cache'. split.
  { destruct (notHttp (video_url video)).
    - injection E1 as ->. unfold andThen. by rewrite E.
    - unfold andThen at 1. rewrite E1. unfold andThen. by rewrite E. }
  assert (∀ url, url ∈ keys cache1 ↔
            url ∈ keys cache ∨
            (url = video_url video ∧ LegacyCache.succeeds world url ∧
             bodyReads url = true)) as Hk1.
  { intros url. destruct Hc1 as [(Hs & Hb & ->)|[Hno ->]].
    - rewrite keys_after_put. split; [|naive_solver].
      intros [?| ->]; [by left|by right].
    - split; [by left|]. intros [?|(-> & ? & ?)]; [done|]. by destruct Hno. }
  split; [|split].
  - intros url. rewrite Hkeys, Hk1. split.
    + intros [[?|(-> & ? & ?)]|(v & Hv & ? & ? & ?)]; [by left|..].
      * right. exists video. by split; [left|].
      * right. exists v. by split; [right|].
    + intros [?|(v & Hv & Hu & ? & ?)]; [by left; left|].
      apply elem_of_cons in Hv as [->|Hv].
      * left. right. by subst url.
      * right. by exists v.
  - intros e He. destruct (Hfrom e He) as [He1|(? & v & Hv & ?)].
    + destruct Hc1 as [(_ & _ & ->)|[_ ->]]; [|by left].
      apply elem_of_app in He1
        as [[_ ?]%list_elem_of_filter| ->%list_elem_of_singleton];
        [by left|].
      right. split; [done|]. exists video. split; [left|done].
    + right. split; [done|]. exists v. by split; [right|].
  - intros v e Hv Hs Hb He Hurl.
    apply elem_of_cons in Hv as [->|Hv]; [|by eapply Hnew].
    destruct (Hfrom e He) as [He1|[? _]]; [|done].
    destruct Hc1 as [(_ & _ & ->)|[Hno _]]; [|by destruct Hno].
    apply elem_of_app in He1
      as [[Hne _]%list_elem_of_filter| ->%list_elem_of_singleton];
      [done|done].
Qed.

(** X28. The older warm-up never fails either, and stores the previews of
    those of the first five videos whose request succeeded and whose body
    could be read.  It differs from the current one in what it stores: it
    fetches a video again although its preview is stored, and every preview
    it stores is a new response of status 200, also where the answer was a
    partial one (206). *)
Theorem legacy_warm_stores_new_responses (world : World)
    (bodyReads : string → bool) (videos : list Video) (cache : Cache) :
  ∃ cache',
    LegacyCache.initSmartBuffering world bodyReads videos cache
    = (Fulfilled tt, cache') ∧
    (∀ url, url ∈ keys cache' ↔
       url ∈ keys cache ∨
       (onLine world = true ∧
        ∃ v, v ∈ take 5 videos ∧ video_url v = url ∧ LegacyCache.succeeds world url ∧
             bodyReads url = true)) ∧
    (∀ v, onLine world = true → v ∈ take 5 videos →
          LegacyCache.succeeds world (video_url v) → bodyReads (video_url v) = true →
          cache_match (video_url v) cache'
          = (Fulfilled (Some LegacyCache.newResponse), cache')).
Proof.
  unfold LegacyCache.initSmartBuffering.
  destruct (onLine world) eqn:Hon; cbn [negb orb].
  2:{ exists cache. split; [done|]. split; [|done].
      intros url. split; [by left|]. by intros [?|[? _]]. }
  destruct (bool_decide (videos = [])) eqn:Hempty.
  { apply bool_decide_eq_true in Hempty as ->. exists cache.
    split; [done|]. split.
    - intros url. split; [by left|].
      intros [?|[_ (v & Hv & _)]]; [done|]. by inversion Hv.
    - intros v _ Hv. by inversion Hv. }
  destruct (legacy_bufferNext world bodyReads (take 5 videos) cache)
    as (cache' & E & Hkeys & _ & Hnew).
  exists cache'. split; [done|]. split.
  - intros url. rewrite Hkeys. split.
    + intros [?|?]; [by left|by right].
    + intros [?|[_ ?]]; [by left|by right].
  - intros v _ Hv Hs Hb. unfold cache_match.
    assert (video_url v ∈ keys cache') as Hin.
    { apply Hkeys. right. by exists v. }
    destruct (list_find (λ e, e.1 = video_url v) cache') as [[i e]|] eqn:Hf.
    + apply list_find_Some in Hf as (Hi & He & _). cbn [fmap option_fmap
        option_map snd]. do 3 f_equal.
      eapply Hnew; eauto. by eapply list_elem_of_lookup_2.
    + apply list_find_None in Hf. rewrite Forall_forall in Hf.
      unfold keys in Hin. apply list_elem_of_fmap in Hin as (e & Hu & He).
      by destruct (Hf e He).
Qed.
